(** * DictBST.h: a dictionary implemented as an unbalanced binary search tree

    Shallow embedding of [src/DictBST.h].  The C++ class keeps its nodes on
    the free store and links them with raw pointers ([left], [right] and the
    parent pointer [back]); the embedding keeps that shape: a store of node
    cells indexed by address, a store of [DictBST] objects (each one holds
    just its [root] pointer), and every method as a state-passing function
    over that store.  Loops take a step budget.  Dereferencing a null
    pointer and reading an uninitialised local are undefined behaviour in
    C++; here they are explicit outcomes. *)

From stdpp Require Import gmap list sorting strings.
From Stdlib Require Import ZArith Lia.

(** ** The template parameters *)

(** [KeyType] must offer [operator==] and [operator<] ([remove] also uses
    [operator!=], taken as the negation of [operator==]). *)
Class KeyOps (K : Type) := {
  key_eqb : K → K → bool;
  key_ltb : K → K → bool
}.

(** The contract the header expects of those operators: [==] decides
    equality and [<] is a strict total order. *)
Class KeyLaws (K : Type) `{KeyOps K} : Prop := {
  key_eqb_eq : ∀ a b, key_eqb a b = true ↔ a = b;
  key_ltb_irrefl : ∀ a, key_ltb a a = false;
  key_ltb_trans : ∀ a b c, key_ltb a b = true → key_ltb b c = true → key_ltb a c = true;
  key_ltb_total : ∀ a b, key_ltb a b = true ∨ a = b ∨ key_ltb b a = true
}.

(** What a [ValueType] member holds when a constructor does not mention it
    (the constructors [Node(KeyType, Node* )] and [Node(KeyType)]): the
    default-constructed value of a class type; for a scalar type, whose
    default-initialisation leaves it indeterminate, it stands for whatever
    the member happens to hold. *)
Class DefaultInit (V : Type) := default_init : V.

(** ** Addresses, pointers, outcomes *)

(** Addresses of node cells and of [DictBST] objects. *)
Abbreviation loc := nat (only parsing).
Abbreviation obj := nat (only parsing).

(** A [Node*]: [None] is [nullptr]. *)
Abbreviation ptr := (option nat) (only parsing).

(** Undefined behaviour the methods can run into. *)
Inductive ub :=
  | NullDeref          (* member access through nullptr *)
  | DanglingDeref      (* member access through an address that holds no node *)
  | IndeterminateRead  (* read of a local that was never assigned *)
  | NoSuchObject.      (* method called on an address that holds no DictBST *)

(** [std::invalid_argument("Not in Dictionary")]. *)
Inductive exn := InvalidArgument.

Inductive outcome (S A : Type) :=
  | Ret (a : A) (s : S)      (* normal return *)
  | Throw (e : exn) (s : S)  (* exception, with the store at the throw *)
  | Undefined (u : ub)
  | OutOfFuel.
Arguments Ret {S A} a s.
Arguments Throw {S A} e s.
Arguments Undefined {S A} u.
Arguments OutOfFuel {S A}.

Section DictBST.
Context {K V : Type} `{KeyOps K} `{DefaultInit V}.

(** ** struct Node *)
Record Node := mkNode {
  data : K;
  value : V;
  left : ptr;
  right : ptr;
  back : ptr
}.

(** The store: node cells, and the [root] member of every live [DictBST]. *)
Record Store := mkStore {
  nodes : gmap nat Node;
  roots : gmap nat (option nat)
}.

Definition M (A : Type) : Type := Store → outcome Store A.

Definition ret {A} (a : A) : M A := λ s, Ret a s.
Definition bind {A B} (m : M A) (k : A → M B) : M B := λ s,
  match m s with
  | Ret a s' => k a s'
  | Throw e s' => Throw e s'
  | Undefined u => Undefined u
  | OutOfFuel => OutOfFuel
  end.
Definition undefined {A} (u : ub) : M A := λ _, Undefined u.
Definition throw {A} (e : exn) : M A := λ s, Throw e s.
Definition out_of_fuel {A} : M A := λ _, OutOfFuel.

#[global] Instance M_ret : MRet M := @ret.
#[global] Instance M_bind : MBind M := λ A B k m, bind m k.

(** [*p]: read the node [p] points to. *)
Definition load (p : ptr) : M Node := λ s,
  match p with
  | None => Undefined NullDeref
  | Some l => match nodes s !! l with
              | Some n => Ret n s
              | None => Undefined DanglingDeref
              end
  end.

(** Write a whole node cell (used for single-member assignments). *)
Definition store (l : loc) (n : Node) : M unit := λ s,
  Ret tt (mkStore (<[l := n]> (nodes s)) (roots s)).

(** [new Node(...)]: a cell at an address not in use. *)
Definition new_node (n : Node) : M loc := λ s,
  let l := fresh (dom (nodes s)) in
  Ret l (mkStore (<[l := n]> (nodes s)) (roots s)).

(** [delete p] for a non-null [p]. *)
Definition delete_node (l : loc) : M unit := λ s,
  Ret tt (mkStore (delete l (nodes s)) (roots s)).

(** [this->root] as an rvalue, and assignment to it. *)
Definition get_root (this : obj) : M ptr := λ s,
  match roots s !! this with
  | Some r => Ret r s
  | None => Undefined NoSuchObject
  end.
Definition set_root (this : obj) (r : ptr) : M unit := λ s,
  match roots s !! this with
  | Some _ => Ret tt (mkStore (nodes s) (<[this := r]> (roots s)))
  | None => Undefined NoSuchObject
  end.

(** Member assignments [p->left = q], [p->right = q], [p->back = q],
    [p->data = k]. *)
Definition set_left (p q : ptr) : M unit :=
  n ← load p;
  match p with
  | Some l => store l (mkNode (data n) (value n) q (right n) (back n))
  | None => undefined NullDeref
  end.
Definition set_right (p q : ptr) : M unit :=
  n ← load p;
  match p with
  | Some l => store l (mkNode (data n) (value n) (left n) q (back n))
  | None => undefined NullDeref
  end.
Definition set_back (p q : ptr) : M unit :=
  n ← load p;
  match p with
  | Some l => store l (mkNode (data n) (value n) (left n) (right n) q)
  | None => undefined NullDeref
  end.
Definition set_data (p : ptr) (k : K) : M unit :=
  n ← load p;
  match p with
  | Some l => store l (mkNode k (value n) (left n) (right n) (back n))
  | None => undefined NullDeref
  end.

(** A [Node*&] or [Node**]: the place a node pointer is stored in, which is
    the [root] member of a dictionary or the [left]/[right] member of a
    node. *)
Inductive slot :=
  | RootOf (this : obj)
  | LeftOf (l : loc)
  | RightOf (l : loc).

Definition read_slot (sl : slot) : M ptr :=
  match sl with
  | RootOf this => get_root this
  | LeftOf l => n ← load (Some l); mret (left n)
  | RightOf l => n ← load (Some l); mret (right n)
  end.
Definition write_slot (sl : slot) (q : ptr) : M unit :=
  match sl with
  | RootOf this => set_root this q
  | LeftOf l => set_left (Some l) q
  | RightOf l => set_right (Some l) q
  end.

(** The step budget of a call: twice the number of node cells in the store
    at entry, plus two.  A pointer walk over an unchanged store that takes
    more steps than there are cells has revisited a cell and never ends. *)
Definition budget : M nat := λ s, Ret (2 + 2 * size (nodes s)) s.

(** ** Node's member functions *)

Definition isLeaf (n : Node) : bool :=
  match left n, right n with
  | None, None => true
  | _, _ => false
  end.
Definition hasLeft (n : Node) : bool :=
  match left n with None => false | Some _ => true end.
Definition hasRight (n : Node) : bool :=
  match right n with None => false | Some _ => true end.

(** [Node* maxKey()]: [p = this; while (p->right != nullptr) p = p->right]. *)
Fixpoint maxKey (fuel : nat) (p : ptr) : M ptr :=
  match fuel with
  | 0 => out_of_fuel
  | S fuel =>
      n ← load p;
      match right n with
      | Some _ => maxKey fuel (right n)
      | None => mret p
      end
  end.

(** [Node* minKey()]. *)
Fixpoint minKey (fuel : nat) (p : ptr) : M ptr :=
  match fuel with
  | 0 => out_of_fuel
  | S fuel =>
      n ← load p;
      match left n with
      | Some _ => minKey fuel (left n)
      | None => mret p
      end
  end.

(** [static void freeNodes(Node*& node)]: clears the links below [node]
    and then [node] itself; no cell is deleted. *)
Fixpoint freeNodes (fuel : nat) (node : slot) : M unit :=
  match fuel with
  | 0 => out_of_fuel
  | S fuel =>
      p ← read_slot node;
      n ← load p;
      (if negb (isLeaf n) then
         (if hasLeft n
          then match p with
               | Some l => freeNodes fuel (LeftOf l)
               | None => undefined NullDeref
               end
          else mret tt);;
         n' ← load p;
         (if hasRight n'
          then match p with
               | Some l => freeNodes fuel (RightOf l)
               | None => undefined NullDeref
               end
          else mret tt)
       else mret tt);;
      write_slot node None
  end.

(** [Node* copy() const].  [new Node(data, nullptr)] selects the
    constructor [Node(KeyType d, Node* b)], which leaves [value]
    default-initialised. *)
Fixpoint copy (fuel : nat) (this : ptr) : M ptr :=
  match fuel with
  | 0 => out_of_fuel
  | S fuel =>
      n ← load this;
      nP ← new_node (mkNode (data n) default_init None None None);
      (match left n with
       | Some _ =>
           c ← copy fuel (left n);
           set_left (Some nP) c;;
           set_back c (Some nP)
       | None => mret tt
       end);;
      (match right n with
       | Some _ =>
           c ← copy fuel (right n);
           set_right (Some nP) c;;
           set_back c (Some nP)
       | None => mret tt
       end);;
      mret (Some nP)
  end.

(** ** DictBST: construction, assignment, destruction *)

(** [DictBST() : root(nullptr)]: a new object at an address not in use. *)
Definition construct : M obj := λ s,
  let o := fresh (dom (roots s)) in
  Ret o (mkStore (nodes s) (<[o := None]> (roots s))).

(** [operator=(const DictBST& other)]. *)
Definition copy_assign (this other : obj) : M unit :=
  if decide (this ≠ other) then
    fuel ← budget;
    freeNodes fuel (RootOf this);;
    r ← get_root other;
    c ← copy fuel r;
    set_root this c
  else mret tt.

(** [operator=(DictBST&& temp)]: [std::swap(root, temp.root)]. *)
Definition move_assign (this temp : obj) : M unit :=
  a ← get_root this;
  b ← get_root temp;
  set_root this b;;
  set_root temp a.

(** [DictBST(const DictBST& other) : DictBST() { *this = other; }]. *)
Definition copy_construct (other : obj) : M obj :=
  this ← construct;
  copy_assign this other;;
  mret this.

(** [DictBST(DictBST&& temp) : DictBST() { *this = temp; }].  Inside the
    body [temp] is a named variable, hence an lvalue, so [*this = temp]
    resolves to the copy assignment operator. *)
Definition move_construct (temp : obj) : M obj :=
  this ← construct;
  copy_assign this temp;;
  mret this.

(** The storage of a destroyed object is given back. *)
Definition end_lifetime (this : obj) : M unit := λ s,
  Ret tt (mkStore (nodes s) (delete this (roots s))).

(** [~DictBST() { Node::freeNodes(root); }]. *)
Definition destroy (this : obj) : M unit :=
  fuel ← budget;
  freeNodes fuel (RootOf this);;
  end_lifetime this.

(** ** has, add, remove *)

Fixpoint has_loop (fuel : nat) (key : K) (p : ptr) : M bool :=
  match fuel with
  | 0 => out_of_fuel
  | S fuel =>
      match p with
      | None => mret false
      | Some _ =>
          n ← load p;
          if key_eqb (data n) key then mret true
          else if key_ltb key (data n) then has_loop fuel key (left n)
          else has_loop fuel key (right n)
      end
  end.

Definition has (this : obj) (key : K) : M bool :=
  p ← get_root this;
  fuel ← budget;
  has_loop fuel key p.

(** The [while (!(p->data == key))] loop of [add]. *)
Fixpoint add_loop (fuel : nat) (key : K) (v : V) (p : ptr) : M unit :=
  match fuel with
  | 0 => out_of_fuel
  | S fuel =>
      n ← load p;
      if negb (key_eqb (data n) key) then
        if key_ltb key (data n) then
          (match left n with
           | None =>
               l ← new_node (mkNode key v None None p);
               set_left p (Some l)
           | Some _ => mret tt
           end);;
          n' ← load p;
          add_loop fuel key v (left n')
        else
          (match right n with
           | None =>
               l ← new_node (mkNode key v None None p);
               set_right p (Some l)
           | Some _ => mret tt
           end);;
          n' ← load p;
          add_loop fuel key v (right n')
      else mret tt
  end.

Definition add (this : obj) (key : K) (v : V) : M unit :=
  p ← get_root this;
  match p with
  | None =>
      l ← new_node (mkNode key v None None None);
      set_root this (Some l)
  | Some _ =>
      fuel ← budget;
      add_loop fuel key v p
  end.

(** The search loop of [remove].  The local [remove] is declared without
    an initialiser and assigned only in the loop body: [None] stands for
    its indeterminate value. *)
Fixpoint remove_search (fuel : nat) (key : K) (pRemove : slot)
    (remove : option ptr) : M (slot * option ptr) :=
  match fuel with
  | 0 => out_of_fuel
  | S fuel =>
      cur ← read_slot pRemove;
      match cur with
      | None => mret (pRemove, remove)
      | Some l =>
          n ← load cur;
          if negb (key_eqb (data n) key) then
            let pRemove' := if key_ltb key (data n) then LeftOf l else RightOf l in
            r ← read_slot pRemove';
            remove_search fuel key pRemove' (Some r)
          else mret (pRemove, remove)
      end
  end.

(** [remove]; [depth] bounds the recursive calls, [fuel] each loop. *)
Fixpoint remove_rec (depth fuel : nat) (this : obj) (key : K) : M unit :=
  match depth with
  | 0 => out_of_fuel
  | S depth =>
      '(pRemove, remove) ← remove_search fuel key (RootOf this) None;
      match remove with
      | None => undefined IndeterminateRead
      | Some None => mret tt
      | Some (Some l) =>
          n ← load (Some l);
          if negb (isLeaf n) then
            m ← (match left n with
                 | Some _ => maxKey fuel (left n)
                 | None => minKey fuel (right n)
                 end);
            nm ← load m;
            let replacement := data nm in
            remove_rec depth fuel this replacement;;
            set_data (Some l) replacement
          else
            delete_node l;;
            write_slot pRemove None
      end
  end.

Definition remove (this : obj) (key : K) : M unit :=
  fuel ← budget;
  remove_rec fuel fuel this key.

(** ** get *)

(** A [ValueType&]: the [value] member of the node at an address. *)
Inductive vref := ValueOf (l : loc).

(** [p->value] as an lvalue. *)
Definition value_ref (p : ptr) : M vref :=
  load p;;
  match p with
  | Some l => mret (ValueOf l)
  | None => undefined NullDeref
  end.

(** Reading and writing through a [ValueType&]. *)
Definition read_ref (r : vref) : M V :=
  match r with ValueOf l => n ← load (Some l); mret (value n) end.
Definition write_ref (r : vref) (v : V) : M unit :=
  match r with
  | ValueOf l =>
      n ← load (Some l);
      store l (mkNode (data n) v (left n) (right n) (back n))
  end.

(** The lookup loop shared by both [get]s: [inl] is a [return] from inside
    the loop, [inr p] is the loop left with [p]. *)
Fixpoint get_find (fuel : nat) (key : K) (p : ptr) : M (vref + ptr) :=
  match fuel with
  | 0 => out_of_fuel
  | S fuel =>
      match p with
      | None => mret (inr p)
      | Some _ =>
          n ← load p;
          if key_eqb (data n) key then r ← value_ref p; mret (inl r)
          else if key_ltb key (data n) then get_find fuel key (left n)
          else get_find fuel key (right n)
      end
  end.

(** The inserting loop of the mutable [get].  Both branches return
    [p->right->value]. *)
Fixpoint get_insert (fuel : nat) (key : K) (p : ptr) : M (vref + ptr) :=
  match fuel with
  | 0 => out_of_fuel
  | S fuel =>
      match p with
      | None => mret (inr p)
      | Some _ =>
          n ← load p;
          if key_ltb key (data n) then
            if hasLeft n then get_insert fuel key (left n)
            else
              l ← new_node (mkNode key default_init None None p);
              set_left p (Some l);;
              n' ← load p;
              r ← value_ref (right n');
              mret (inl r)
          else
            if hasRight n then get_insert fuel key (right n)
            else
              l ← new_node (mkNode key default_init None None p);
              set_right p (Some l);;
              n' ← load p;
              r ← value_ref (right n');
              mret (inl r)
      end
  end.

(** [ValueType& get(const KeyType& key)]. *)
Definition get (this : obj) (key : K) : M vref :=
  p ← get_root this;
  b ← has this key;
  fuel ← budget;
  r ← (if b : bool then get_find fuel key p else get_insert fuel key p);
  match r with
  | inl v => mret v
  | inr p' => value_ref p'
  end.

(** [const ValueType& get(const KeyType& key) const]. *)
Definition get_const (this : obj) (key : K) : M vref :=
  p ← get_root this;
  b ← has this key;
  if b : bool then
    fuel ← budget;
    r ← get_find fuel key p;
    match r with
    | inl v => mret v
    | inr p' => value_ref p'
    end
  else throw InvalidArgument.

(** ** const_iterator *)

Record const_iterator := mkIter { current : ptr }.

(** [operator*]. *)
Definition iter_deref (it : const_iterator) : M K :=
  n ← load (current it); mret (data n).

(** [while (current->back != nullptr && current == current->back->right)
      current = current->back;] *)
Fixpoint climb (fuel : nat) (cur : ptr) : M ptr :=
  match fuel with
  | 0 => out_of_fuel
  | S fuel =>
      n ← load cur;
      match back n with
      | None => mret cur
      | Some _ =>
          b ← load (back n);
          if decide (cur = right b) then climb fuel (back n) else mret cur
      end
  end.

(** The last branch of [operator++]: the loop, then
    [current = current->back]. *)
Definition climb_to_next (fuel : nat) (cur : ptr) : M ptr :=
  c ← climb fuel cur;
  n' ← load c;
  mret (back n').

(** [operator++]. *)
Definition iter_incr (it : const_iterator) : M const_iterator :=
  fuel ← budget;
  n ← load (current it);
  if hasRight n then
    m ← minKey fuel (right n); mret (mkIter m)
  else
    match back n with
    | None => mret (mkIter None)
    | Some _ =>
        q ← climb_to_next fuel (current it);
        mret (mkIter q)
    end.

(** [operator!=]. *)
Definition iter_neq (a rhs : const_iterator) : bool :=
  if decide (current rhs = current a) then false else true.

(** [begin()]: [p = root; while (p->hasLeft()) p = p->left]. *)
Fixpoint begin_loop (fuel : nat) (p : ptr) : M ptr :=
  match fuel with
  | 0 => out_of_fuel
  | S fuel =>
      n ← load p;
      if hasLeft n then begin_loop fuel (left n) else mret p
  end.

Definition begin (this : obj) : M const_iterator :=
  p ← get_root this;
  fuel ← budget;
  q ← begin_loop fuel p;
  mret (mkIter q).

(** [begin(KeyType k)]. *)
Fixpoint begin_key_loop (fuel : nat) (k : K) (p : ptr) : M ptr :=
  match fuel with
  | 0 => out_of_fuel
  | S fuel =>
      match p with
      | None => mret p
      | Some _ =>
          n ← load p;
          if key_eqb (data n) k then mret p
          else if key_ltb k (data n) then begin_key_loop fuel k (left n)
          else begin_key_loop fuel k (right n)
      end
  end.

Definition begin_key (this : obj) (k : K) : M const_iterator :=
  p ← get_root this;
  fuel ← budget;
  q ← begin_key_loop fuel k p;
  mret (mkIter q).

(** [end()]. *)
Definition end_ (this : obj) : M const_iterator :=
  get_root this;; mret (mkIter None).

(** The client loop
    [for (it = d.begin(); it != d.end(); ++it) keys.push_back( *it )]. *)
Fixpoint iterate (fuel : nat) (this : obj) (it : const_iterator) : M (list K) :=
  match fuel with
  | 0 => out_of_fuel
  | S fuel =>
      e ← end_ this;
      if iter_neq it e then
        k ← iter_deref it;
        it' ← iter_incr it;
        ks ← iterate fuel this it';
        mret (k :: ks)
      else mret []
  end.

Definition iteration (this : obj) : M (list K) :=
  it ← begin this;
  fuel ← budget;
  iterate fuel this it.

(** The same loop started at a key:
    [for (it = d.begin(k); it != d.end(); ++it) keys.push_back( *it )]. *)
Definition iteration_from (this : obj) (k : K) : M (list K) :=
  it ← begin_key this k;
  fuel ← budget;
  iterate fuel this it.

(** ** Printing *)

(** What [operator<<] inserts into a [std::ostream]: a string, a key (in
    whatever text [KeyType] prints as), or [std::endl]. *)
Inductive item :=
  | Text (str : string)
  | KeyText (k : K)
  | Endl.

(** [static std::ostream& printR(std::ostream& out, std::string prefix,
    const Node* node)]; [out] is what the stream holds so far, the result
    what it holds afterwards. *)
Fixpoint printR (fuel : nat) (out : list item) (prefix : string) (node : ptr)
    : M (list item) :=
  match fuel with
  | 0 => out_of_fuel
  | S fuel =>
      match node with
      | None => mret out
      | Some _ =>
          n ← load node;
          out ← (if hasLeft n
                 then printR fuel out (" " +:+ prefix +:+ "0") (left n)
                 else mret out);
          n ← load node;
          let out := out ++ [Text prefix; Text ": "; KeyText (data n); Endl] in
          n ← load node;
          if hasRight n
          then printR fuel out (" " +:+ prefix +:+ "1") (right n)
          else mret out
      end
  end.

(** [friend std::ostream& operator<<(std::ostream& out, const Node* node)]. *)
Definition print_node (out : list item) (node : ptr) : M (list item) :=
  fuel ← budget;
  printR fuel out "" node.

End DictBST.

Arguments Node : clear implicits.
Arguments Store : clear implicits.

(** ** An instance: integer keys and integer values *)

#[export] Instance Z_KeyOps : KeyOps Z := {| key_eqb := Z.eqb; key_ltb := Z.ltb |}.
(** An [int] member that a constructor does not mention is indeterminate:
    [0] stands for what such a member reads in the concrete runs below, and
    no statement about arbitrary stores says what is read from one. *)
#[export] Instance Z_DefaultInit : DefaultInit Z := 0%Z.

(** The store with no node and no dictionary. *)
Definition empty_store {K V} : Store K V := mkStore ∅ ∅.

(** Run a sequence of calls, stopping at the first that does not return. *)
Fixpoint run {K V} (ms : list (Store K V → outcome (Store K V) unit))
    (s : Store K V) : outcome (Store K V) unit :=
  match ms with
  | [] => Ret tt s
  | m :: ms' =>
      match m s with
      | Ret _ s' => run ms' s'
      | o => o
      end
  end.

(** The two mutators a client can call in sequence. *)
Inductive op (K V : Type) :=
  | Add (k : K) (v : V)
  | Remove (k : K).
Arguments Add {K V} k v.
Arguments Remove {K V} k.

Definition apply_op `{KeyOps K} {V} (this : obj) (o : op K V)
    : Store K V → outcome (Store K V) unit :=
  match o with
  | Add k v => add this k v
  | Remove k => remove this k
  end.

(** ** The tree a store holds *)

Section Shape.
Context {K V : Type} `{KeyOps K} `{DefaultInit V}.

(** The tree below a pointer, each node with the address of its cell. *)
Inductive tree :=
  | Leaf
  | Tree (l : loc) (tl : tree) (k : K) (v : V) (tr : tree).

Definition root_ptr (t : tree) : ptr :=
  match t with
  | Leaf => None
  | Tree l _ _ _ _ => Some l
  end.

(** Addresses, keys and bindings in in-order. *)
Fixpoint locs (t : tree) : list loc :=
  match t with
  | Leaf => []
  | Tree l tl _ _ tr => locs tl ++ l :: locs tr
  end.
Fixpoint keys (t : tree) : list K :=
  match t with
  | Leaf => []
  | Tree _ tl k _ tr => keys tl ++ k :: keys tr
  end.
Fixpoint bindings (t : tree) : list (K * V) :=
  match t with
  | Leaf => []
  | Tree _ tl k v tr => bindings tl ++ (k, v) :: bindings tr
  end.
Fixpoint height (t : tree) : nat :=
  match t with
  | Leaf => 0
  | Tree _ tl _ _ tr => S (height tl `max` height tr)
  end.

(** [rep h b t]: the cells of [h] at the addresses of [t] hold the nodes of
    [t], linked as [t] is, and the root's [back] is [b]. *)
Fixpoint rep (h : gmap nat (Node K V)) (b : ptr) (t : tree) : Prop :=
  match t with
  | Leaf => True
  | Tree l tl k v tr =>
      h !! l = Some (mkNode k v (root_ptr tl) (root_ptr tr) b)
      ∧ rep h (Some l) tl ∧ rep h (Some l) tr
  end.

(** The dictionary at [this] holds the tree [t]. *)
Record is_dict (s : Store K V) (this : obj) (t : tree) : Prop := {
  dict_root : roots s !! this = Some (root_ptr t);
  dict_rep : rep (nodes s) None t;
  dict_nodup : NoDup (locs t)
}.

Definition klt (a b : K) : Prop := key_ltb a b = true.

(** The search-tree order. *)
Fixpoint bst (t : tree) : Prop :=
  match t with
  | Leaf => True
  | Tree _ tl k _ tr =>
      Forall (λ x, klt x k) (keys tl) ∧ Forall (λ x, klt k x) (keys tr)
      ∧ bst tl ∧ bst tr
  end.

(** The descent of [has], [get] and [begin(k)] on a tree: the node it
    stops at, if any. *)
Fixpoint descend (key : K) (t : tree) : option (loc * V) :=
  match t with
  | Leaf => None
  | Tree l tl k v tr =>
      if key_eqb k key then Some (l, v)
      else if key_ltb key k then descend key tl
      else descend key tr
  end.

Definition found (key : K) (t : tree) : bool :=
  match descend key t with Some _ => true | None => false end.

(** The tree [add] leaves, [new] being the address of the cell it
    allocates. *)
Fixpoint tadd (new : loc) (key : K) (v : V) (t : tree) : tree :=
  match t with
  | Leaf => Tree new Leaf key v Leaf
  | Tree l tl k w tr =>
      if key_eqb k key then t
      else if key_ltb key k then Tree l (tadd new key v tl) k w tr
      else Tree l tl k w (tadd new key v tr)
  end.

(** The node whose [value] the inserting loop of the mutable [get] returns
    a reference to ([None]: it is the null right child of the node the new
    one is linked to), [new] being the address of the cell it allocates. *)
Fixpoint tget (new : loc) (key : K) (t : tree) : ptr :=
  match t with
  | Leaf => None
  | Tree l tl k v tr =>
      if key_ltb key k then
        match tl with
        | Leaf => root_ptr tr
        | Tree _ _ _ _ _ => tget new key tl
        end
      else
        match tr with
        | Leaf => Some new
        | Tree _ _ _ _ _ => tget new key tr
        end
  end.

(** The last and the first node in in-order: where [maxKey] and [minKey]
    stop. *)
Fixpoint tlast (t : tree) : option (loc * K) :=
  match t with
  | Leaf => None
  | Tree l _ k _ tr =>
      match tlast tr with
      | Some x => Some x
      | None => Some (l, k)
      end
  end.
Fixpoint tfirst (t : tree) : option (loc * K) :=
  match t with
  | Leaf => None
  | Tree l tl k _ _ =>
      match tfirst tl with
      | Some x => Some x
      | None => Some (l, k)
      end
  end.

(** The subtree the descent for [key] stops at ([Leaf] when it falls off
    the tree). *)
Fixpoint subtree_at (key : K) (t : tree) : tree :=
  match t with
  | Leaf => Leaf
  | Tree _ tl k _ tr =>
      if key_eqb k key then t
      else if key_ltb key k then subtree_at key tl
      else subtree_at key tr
  end.

(** The key [remove] picks to put in the place of the root of a subtree:
    the last key of the left subtree if there is one, else the first key of
    the right subtree. *)
Definition replacement_of (t : tree) : option K :=
  match t with
  | Leaf => None
  | Tree _ tl _ _ tr =>
      match tlast tl with
      | Some (_, r) => Some r
      | None => snd <$> tfirst tr
      end
  end.

(** The tree [remove] leaves.  The node that held [key] keeps its value
    and takes the replacement key. *)
Fixpoint tremove (key : K) (t : tree) : tree :=
  match t with
  | Leaf => Leaf
  | Tree l tl k v tr =>
      if key_eqb k key then
        match tlast tl with
        | Some (_, r) => Tree l (tremove r tl) r v tr
        | None =>
            match tfirst tr with
            | Some (_, r) => Tree l tl r v (tremove r tr)
            | None => Leaf
            end
        end
      else if key_ltb key k then Tree l (tremove key tl) k v tr
      else Tree l tl k v (tremove key tr)
  end.

(** The values of [pRemove] and [remove] when the search loop of [remove]
    ends, started on the slot [sl] above [t] with [rm] in [remove]. *)
Fixpoint tsearch (key : K) (sl : slot) (rm : option ptr) (t : tree)
    : slot * option ptr :=
  match t with
  | Leaf => (sl, rm)
  | Tree l tl k _ tr =>
      if negb (key_eqb k key) then
        if key_ltb key k then tsearch key (LeftOf l) (Some (root_ptr tl)) tl
        else tsearch key (RightOf l) (Some (root_ptr tr)) tr
      else (sl, rm)
  end.

(** [p->data = r] on the node at address [l]. *)
Fixpoint tset (l : loc) (r : K) (t : tree) : tree :=
  match t with
  | Leaf => Leaf
  | Tree l0 tl k v tr =>
      Tree l0 (tset l r tl) (if decide (l0 = l) then r else k) v (tset l r tr)
  end.

(** The cell a slot lives in, if it is a member of a node. *)
Definition slot_cell (sl : slot) : option loc :=
  match sl with
  | RootOf _ => None
  | LeftOf l | RightOf l => Some l
  end.

(** The node cells and the roots after [q] is written to a slot. *)
Definition slot_upd (sl : slot) (q : ptr) (h : gmap nat (Node K V)) : gmap nat (Node K V) :=
  match sl with
  | RootOf _ => h
  | LeftOf l => alter (λ n, mkNode (data n) (value n) q (right n) (back n)) l h
  | RightOf l => alter (λ n, mkNode (data n) (value n) (left n) q (back n)) l h
  end.
Definition slot_upd_roots (sl : slot) (q : ptr) (r : gmap nat (option nat)) : gmap nat (option nat) :=
  match sl with
  | RootOf this => <[this := q]> r
  | _ => r
  end.

(** What [freeNodes] on the slot [sl] above the tree [t] leaves of the store
    [s]: the slot is null, and no cell outside [t] has changed otherwise. *)
Definition freed (sl : slot) (t : tree) (s s' : Store K V) : Prop :=
  roots s' = slot_upd_roots sl None (roots s)
  ∧ ∀ l', l' ∉ locs t → nodes s' !! l' = slot_upd sl None (nodes s) !! l'.

(** The result of a call, with [g] applied to the value it returns. *)
Definition outcome_map {A B} (g : A → B) (o : outcome (Store K V) A)
    : outcome (Store K V) B :=
  match o with
  | Ret a s => Ret (g a) s
  | Throw e s => Throw e s
  | Undefined u => Undefined u
  | OutOfFuel => OutOfFuel
  end.

(** The subtree [t] below the slot [sl] has become [t'], and nothing else
    has changed: the slot holds the root of [t'], the cells at the addresses
    of [t'] hold [t'], and the cells outside [t] are as they were. *)
Definition replaced (sl : slot) (b : ptr) (t t' : tree) (s s' : Store K V) : Prop :=
  roots s' = slot_upd_roots sl (root_ptr t') (roots s)
  ∧ (∀ l', l' ∉ locs t → nodes s' !! l' = slot_upd sl (root_ptr t') (nodes s) !! l')
  ∧ rep (nodes s') b t'.

(** [t'] has the shape and the keys of [t], and default-initialised
    values: what [Node::copy] builds. *)
Fixpoint copy_of (t t' : tree) : Prop :=
  match t, t' with
  | Leaf, Leaf => True
  | Tree _ tl k _ tr, Tree _ tl' k' v' tr' =>
      k' = k ∧ v' = default_init ∧ copy_of tl tl' ∧ copy_of tr tr'
  | _, _ => False
  end.

(** The store [s'] is [s] with a copy [t'] of [t] in cells that were not
    in use, its root without a parent. *)
Definition copied (t t' : tree) (s s' : Store K V) : Prop :=
  roots s' = roots s
  ∧ rep (nodes s') None t'
  ∧ copy_of t t'
  ∧ NoDup (locs t')
  ∧ (∀ l, l ∈ locs t' → l ∉ dom (nodes s))
  ∧ (∀ l, l ∈ dom (nodes s) → nodes s' !! l = nodes s !! l).

(** The subtree [t], with parent pointer [b], hangs in the slot [sl]. *)
Definition under (sl : slot) (b : ptr) (t : tree) (s : Store K V) : Prop :=
  read_slot sl s = Ret (root_ptr t) s
  ∧ rep (nodes s) b t
  ∧ NoDup (locs t)
  ∧ ∀ l, slot_cell sl = Some l → l ∉ locs t.

(** [ref = w] through a reference to the value of the node at address
    [l]. *)
Fixpoint tput (l : loc) (w : V) (t : tree) : tree :=
  match t with
  | Leaf => Leaf
  | Tree l0 tl k v tr =>
      Tree l0 (tput l w tl) k (if decide (l0 = l) then w else v) (tput l w tr)
  end.

(** The keys in in-order from the node the descent for [key] stops at. *)
Fixpoint keys_from (key : K) (t : tree) : list K :=
  match t with
  | Leaf => []
  | Tree _ tl k _ tr =>
      if key_eqb k key then k :: keys tr
      else if key_ltb key k then keys_from key tl ++ k :: keys tr
      else keys_from key tr
  end.

(** The value given to [k] by the first pair of a list that mentions it. *)
Fixpoint first_value (k : K) (kvs : list (K * V)) : option V :=
  match kvs with
  | [] => None
  | (k', v) :: kvs' => if key_eqb k' k then Some v else first_value k kvs'
  end.

(** The nodes in in-order, each with the way to it from the root: [false]
    is a step to the left child, [true] a step to the right child. *)
Fixpoint paths (t : tree) : list (list bool * K) :=
  match t with
  | Leaf => []
  | Tree _ tl k _ tr =>
      (prod_map (cons false) id <$> paths tl)
      ++ ([], k) :: (prod_map (cons true) id <$> paths tr)
  end.

(** A way as a string of digits, and a run of blanks. *)
Fixpoint digits (p : list bool) : string :=
  match p with
  | [] => ""
  | b :: p' => (if b : bool then "1" else "0") +:+ digits p'
  end.
Fixpoint blanks (n : nat) : string :=
  match n with
  | 0 => ""
  | S n' => " " +:+ blanks n'
  end.

(** The line of a node at the end of the way [p], printed under
    [prefix]. *)
Definition line (prefix : string) (x : list bool * K) : list item :=
  [Text (blanks (length x.1) +:+ prefix +:+ digits x.1); Text ": ";
   KeyText x.2; Endl].

(** The stores [s] and [s'] have the same cells in use, and every cell
    holds the same key, value and parent pointer in both: they differ in
    child links and in roots only. *)
Definition same_cells (s s' : Store K V) : Prop :=
  ∀ l, match nodes s !! l, nodes s' !! l with
       | Some n, Some n' =>
           data n' = data n ∧ value n' = value n ∧ back n' = back n
       | None, None => True
       | _, _ => False
       end.

End Shape.

Arguments tree : clear implicits.

(** ** Concrete dictionaries *)

Module Examples.

(** The store after one more default-constructed dictionary. *)
Definition declare (s : Store Z Z) : Store Z Z :=
  match construct s with
  | Ret _ s' => s'
  | _ => s
  end.

(** One empty dictionary, at address 0: [DictBST<int,int> d;]. *)
Definition fresh_dict : Store Z Z :=
  Eval vm_compute in declare empty_store.

(** Two empty dictionaries, at addresses 0 and 1. *)
Definition two_fresh_dicts : Store Z Z :=
  Eval vm_compute in declare (declare empty_store).

(** The store after a sequence of calls that all return. *)
Definition after (ms : list (Store Z Z → outcome (Store Z Z) unit))
    (s : Store Z Z) : Store Z Z :=
  match run ms s with
  | Ret _ s' => s'
  | _ => s
  end.

(** [d.add(5, 50)]. *)
Definition dict5 : Store Z Z :=
  Eval vm_compute in after [add 0 5 50]%Z fresh_dict.

(** [d.add(5, 50); d.add(8, 80)]. *)
Definition dict58 : Store Z Z :=
  Eval vm_compute in after [add 0 5 50; add 0 8 80]%Z fresh_dict.

(** Keys 5, 3, 8, 1, 4, 7, 9 added in this order, each with ten times the
    key as its value. *)
Definition dict7 : Store Z Z :=
  Eval vm_compute in
    after [add 0 5 50; add 0 3 30; add 0 8 80; add 0 1 10;
           add 0 4 40; add 0 7 70; add 0 9 90]%Z fresh_dict.
Definition tree7 : tree Z Z :=
  (Tree 0 (Tree 1 (Tree 3 Leaf 1 10 Leaf) 3 30 (Tree 4 Leaf 4 40 Leaf)) 5 50
          (Tree 2 (Tree 5 Leaf 7 70 Leaf) 8 80 (Tree 6 Leaf 9 90 Leaf)))%Z.

(** Two dictionaries: the one at address 0 holds 5 ↦ 50, the one at
    address 1 holds 1 ↦ 10. *)
Definition two_dicts : Store Z Z :=
  Eval vm_compute in
    after [add 0 5 50; add 1 1 10]%Z two_fresh_dicts.

(** The dictionary at address 0 holds 5 ↦ 50, the one at address 1 is
    empty. *)
Definition dict_and_empty : Store Z Z :=
  Eval vm_compute in
    after [add 0 5 50]%Z two_fresh_dicts.

(** The two dictionaries after [add(3, 30)], [add(8, 80)] and [remove(3)]
    on the first. *)
Definition two_dicts_later : Store Z Z :=
  Eval vm_compute in
    after [add 0 3 30; add 0 8 80; remove 0 3]%Z two_dicts.

(** The value read through the reference the const [get] returns. *)
Definition lookup_value (this : obj) (key : Z) : M Z :=
  r ← get_const this key; read_ref r.

End Examples.

(** ** What the methods do on a store that holds a tree *)

Section Proofs.
Context {K V : Type} `{KeyOps K} `{DefaultInit V} {KL : KeyLaws K}.

Implicit Types (s : Store K V) (t : tree K V) (h : gmap nat (Node K V)).

(** *** Running one step *)

Lemma bind_Ret {A B} (m : M A) (k : A → M B) s a s' :
  m s = Ret a s' → (m ≫= k) s = k a s'.
Proof. intros E. unfold mbind, M_bind, bind. by rewrite E. Qed.

Lemma bind_congr_l {A B} (m1 m2 : M A) (k : A → M B) s :
  m1 s = m2 s → (m1 ≫= k) s = (m2 ≫= k) s.
Proof. intros E. unfold mbind, M_bind, bind. by rewrite E. Qed.

Lemma load_Some s l n : nodes s !! l = Some n → load (Some l) s = Ret n s.
Proof. intros E. unfold load. by rewrite E. Qed.

Lemma value_ref_Some s l n :
  nodes s !! l = Some n → value_ref (Some l) s = Ret (ValueOf l) s.
Proof.
  intros E. unfold value_ref. by rewrite (bind_Ret _ _ _ _ _ (load_Some _ _ _ E)).
Qed.

(** *** The representation *)

Lemma rep_frame h h' b t :
  (∀ l, l ∈ locs t → h' !! l = h !! l) → rep h b t → rep h' b t.
Proof.
  revert b. induction t as [|l tl IHl k v tr IHr]; intros b Hag; [done|].
  simpl. intros (Hl & Hrl & Hrr). split_and!.
  - rewrite Hag; [done|]. simpl. set_solver.
  - apply IHl; [|done]. intros l' Hl'. apply Hag. simpl. set_solver.
  - apply IHr; [|done]. intros l' Hl'. apply Hag. simpl. set_solver.
Qed.

Lemma rep_dom h b t l : rep h b t → l ∈ locs t → l ∈ dom h.
Proof.
  revert b. induction t as [|l0 tl IHl k v tr IHr]; intros b; simpl.
  - intros _ Hin. by apply elem_of_nil in Hin.
  - intros (Hl & Hrl & Hrr) Hin.
    apply elem_of_app in Hin as [Hin|Hin]; [by eapply IHl|].
    apply elem_of_cons in Hin as [->|Hin]; [|by eapply IHr].
    apply elem_of_dom. eauto.
Qed.

Lemma rep_size h b t : rep h b t → NoDup (locs t) → length (locs t) ≤ size h.
Proof.
  intros Hrep Hnd. rewrite <- size_dom.
  rewrite <- (size_list_to_set (C := gset nat) (locs t)) by done.
  apply subseteq_size. intros l Hl. apply elem_of_list_to_set in Hl.
  by eapply rep_dom.
Qed.

Lemma height_le_locs t : height t ≤ length (locs t).
Proof.
  induction t as [|l tl IHl k v tr IHr]; simpl; [lia|].
  rewrite length_app. simpl. lia.
Qed.

Lemma budget_enough s b t :
  rep (nodes s) b t → NoDup (locs t) → height t < 2 + 2 * size (nodes s).
Proof.
  intros Hrep Hnd. pose proof (rep_size _ _ _ Hrep Hnd).
  pose proof (height_le_locs t). lia.
Qed.

Lemma fresh_not_in h b t : rep h b t → fresh (dom h) ∉ locs t.
Proof. intros Hrep Hin. apply (is_fresh (dom h)). by eapply rep_dom. Qed.

(** *** has and add *)

Lemma has_loop_spec fuel key s b t :
  rep (nodes s) b t → height t < fuel →
  has_loop fuel key (root_ptr t) s = Ret (found key t) s.
Proof.
  revert b fuel. induction t as [|l tl IHl k v tr IHr]; intros b fuel Hrep Hf.
  - destruct fuel; [lia|]. reflexivity.
  - destruct fuel; [lia|]. simpl in Hf. destruct Hrep as (Hl & Hrl & Hrr).
    simpl. rewrite (bind_Ret _ _ _ _ _ (load_Some _ _ _ Hl)). simpl.
    unfold found. simpl.
    destruct (key_eqb k key); [done|].
    destruct (key_ltb key k).
    + apply (IHl (Some l)); [done|lia].
    + apply (IHr (Some l)); [done|lia].
Qed.

Lemma key_eqb_refl (k : K) : key_eqb k k = true.
Proof. by apply key_eqb_eq. Qed.

Lemma root_ptr_tadd new key v t : t ≠ Leaf → root_ptr (tadd new key v t) = root_ptr t.
Proof.
  destruct t as [|l tl k w tr]; [done|]. intros _. simpl.
  destruct (key_eqb k key); [done|]. by destruct (key_ltb key k).
Qed.

Lemma root_ptr_Some t : t ≠ Leaf → ∃ l, root_ptr t = Some l.
Proof. destruct t; [done|]. intros _. by eexists. Qed.

Lemma tree_leaf_dec t : t = Leaf ∨ t ≠ Leaf.
Proof. destruct t; [by left|by right]. Qed.

Lemma add_loop_spec fuel key v s b t :
  t ≠ Leaf → rep (nodes s) b t → NoDup (locs t) → height t < fuel →
  ∃ s', add_loop fuel key v (root_ptr t) s = Ret tt s'
     ∧ roots s' = roots s
     ∧ rep (nodes s') b (tadd (fresh (dom (nodes s))) key v t)
     ∧ (found key t = true → s' = s)
     ∧ (∀ l', l' ∉ locs t → l' ≠ fresh (dom (nodes s)) →
           nodes s' !! l' = nodes s !! l').
Proof.
  set (new := fresh (dom (nodes s))).
  revert b fuel. induction t as [|l tl IHl k w tr IHr]; intros b fuel Hne Hrep Hnd Hf; [done|].
  destruct fuel as [|fuel]; [lia|]. simpl in Hf.
  pose proof (fresh_not_in _ _ _ Hrep) as Hnew. fold new in Hnew.
  destruct Hrep as (Hl & Hrl & Hrr).
  simpl in Hnd. apply NoDup_app in Hnd as (Hndl & Hlr & Hnd).
  apply NoDup_cons in Hnd as (Hltr & Hndr).
  simpl add_loop. rewrite (bind_Ret _ _ _ _ _ (load_Some _ _ _ Hl)). cbn [data left right].
  unfold found. simpl descend. simpl tadd.
  destruct (key_eqb k key) eqn:Ek; simpl.
  { exists s. split_and!; done. }
  destruct (key_ltb key k) eqn:El.
  - destruct (tree_leaf_dec tl) as [->|Htl].
    + simpl root_ptr. destruct fuel as [|fuel]; [lia|].
      assert (new ≠ l) as Hnl by (intros ->; apply Hnew; simpl; set_solver).
      eexists. split.
      { unfold add_loop, set_left, new_node, load, store, mbind, M_bind, bind, mret, M_ret, ret.
        simpl. fold new. rewrite lookup_insert_ne by done. rewrite Hl. simpl.
        rewrite lookup_insert_eq. simpl. rewrite lookup_insert_ne by done.
        rewrite lookup_insert_eq. simpl. rewrite key_eqb_refl. simpl. reflexivity. }
      simpl. split_and!; try done.
      * by rewrite lookup_insert_eq.
      * rewrite lookup_insert_ne by done. by rewrite lookup_insert_eq.
      * eapply rep_frame; [|exact Hrr]. intros l' Hl'.
        rewrite !lookup_insert_ne; [done| |].
        -- intros ->. apply Hnew. simpl. set_solver.
        -- by intros ->.
      * intros l' Hl' Hl'n. rewrite !lookup_insert_ne; [done|done|].
        intros ->. apply Hl'. set_solver.
    + destruct (IHl (Some l) fuel) as (s' & Hrun & Hroots & Hrep' & Hsame & Hframe);
        [done|done|done|simpl in *; lia|].
      exists s'. split.
      { simpl. destruct (root_ptr_Some tl Htl) as [l1 Hl1]. rewrite Hl1 in *.
        rewrite (bind_Ret (mret ()) _ s () s eq_refl).
        rewrite (bind_Ret _ _ _ _ _ (load_Some _ _ _ Hl)). simpl. exact Hrun. }
      split_and!; [done| | |].
      * simpl. rewrite root_ptr_tadd by done. split_and!; [|done|].
        -- rewrite Hframe; [done| |by intros ->; apply Hnew; simpl; set_solver].
           intros Hin. apply (Hlr l Hin). set_solver.
        -- eapply rep_frame; [|exact Hrr]. intros l' Hl'. apply Hframe.
           ++ intros Hin. apply (Hlr l' Hin). set_solver.
           ++ intros ->. apply Hnew. simpl. set_solver.
      * exact Hsame.
      * intros l' Hl' Hl'n. apply Hframe; [|done]. intros Hin. apply Hl'. simpl. set_solver.
  - destruct (tree_leaf_dec tr) as [->|Htr].
    + simpl root_ptr. destruct fuel as [|fuel]; [lia|].
      assert (new ≠ l) as Hnl by (intros ->; apply Hnew; simpl; set_solver).
      eexists. split.
      { unfold add_loop, set_right, new_node, load, store, mbind, M_bind, bind, mret, M_ret, ret.
        simpl. fold new. rewrite lookup_insert_ne by done. rewrite Hl. simpl.
        rewrite lookup_insert_eq. simpl. rewrite lookup_insert_ne by done.
        rewrite lookup_insert_eq. simpl. rewrite key_eqb_refl. simpl. reflexivity. }
      simpl. split_and!; try done.
      * by rewrite lookup_insert_eq.
      * eapply rep_frame; [|exact Hrl]. intros l' Hl'.
        rewrite !lookup_insert_ne; [done| |].
        -- intros ->. apply Hnew. simpl. set_solver.
        -- intros Heq. apply (Hlr l' Hl'). set_solver.
      * rewrite lookup_insert_ne by done. by rewrite lookup_insert_eq.
      * intros l' Hl' Hl'n. rewrite !lookup_insert_ne; [done|done|].
        intros ->. apply Hl'. set_solver.
    + destruct (IHr (Some l) fuel) as (s' & Hrun & Hroots & Hrep' & Hsame & Hframe);
        [done|done|done|simpl in *; lia|].
      exists s'. split.
      { simpl. destruct (root_ptr_Some tr Htr) as [l1 Hl1]. rewrite Hl1 in *.
        rewrite (bind_Ret (mret ()) _ s () s eq_refl).
        rewrite (bind_Ret _ _ _ _ _ (load_Some _ _ _ Hl)). simpl. exact Hrun. }
      split_and!; [done| | |].
      * simpl. rewrite root_ptr_tadd by done. split_and!; [| |done].
        -- rewrite Hframe; [done|done|by intros ->; apply Hnew; simpl; set_solver].
        -- eapply rep_frame; [|exact Hrl]. intros l' Hl'. apply Hframe.
           ++ intros Hin. apply (Hlr l' Hl'). set_solver.
           ++ intros ->. apply Hnew. simpl. set_solver.
      * exact Hsame.
      * intros l' Hl' Hl'n. apply Hframe; [|done]. intros Hin. apply Hl'. simpl. set_solver.
Qed.

Lemma locs_tadd new key v t :
  locs (tadd new key v t) ≡ₚ if found key t then locs t else new :: locs t.
Proof.
  unfold found. induction t as [|l tl IHl k w tr IHr]; simpl; [done|].
  destruct (key_eqb k key); [done|].
  destruct (key_ltb key k); simpl.
  - rewrite IHl. by destruct (descend key tl).
  - rewrite IHr. destruct (descend key tr); [done|].
    solve_Permutation.
Qed.

Lemma NoDup_locs_tadd new key v t :
  new ∉ locs t → NoDup (locs t) → NoDup (locs (tadd new key v t)).
Proof.
  intros Hnew Hnd. rewrite locs_tadd. destruct (found key t); [done|].
  by apply NoDup_cons.
Qed.

Lemma found_tadd new key v t : found key (tadd new key v t) = true.
Proof.
  unfold found. induction t as [|l tl IHl k w tr IHr]; simpl.
  - by rewrite key_eqb_refl.
  - destruct (key_eqb k key) eqn:Ek; simpl; [by rewrite Ek|].
    destruct (key_ltb key k) eqn:El; simpl; by rewrite Ek, El.
Qed.

(** *** The descent in a search tree, and the const get *)

Lemma klt_irrefl (a : K) : ¬ klt a a.
Proof. unfold klt. by rewrite key_ltb_irrefl. Qed.

Lemma klt_asym (a b : K) : klt a b → key_ltb b a = false.
Proof.
  intros Hab. destruct (key_ltb b a) eqn:E; [|done].
  destruct (klt_irrefl a). by eapply key_ltb_trans.
Qed.

Lemma klt_neqb (a b : K) : klt a b → key_eqb a b = false ∧ key_eqb b a = false.
Proof.
  intros Hab. split.
  - destruct (key_eqb a b) eqn:E; [|done]. apply key_eqb_eq in E as ->.
    by destruct (klt_irrefl b).
  - destruct (key_eqb b a) eqn:E; [|done]. apply key_eqb_eq in E as ->.
    by destruct (klt_irrefl a).
Qed.

(** In a search tree the descent finds every binding. *)
Lemma descend_binding key v t :
  bst t → (key, v) ∈ bindings t → ∃ l, descend key t = Some (l, v).
Proof.
  induction t as [|l tl IHl k w tr IHr]; simpl.
  - intros _ Hin. by apply elem_of_nil in Hin.
  - intros (Hlt & Hgt & Hbl & Hbr) Hin.
    assert (∀ t', (key, v) ∈ bindings t' → key ∈ keys t') as Hkeys.
    { clear. induction t' as [|l tl IHl k w tr IHr]; simpl; set_solver. }
    apply elem_of_app in Hin as [Hin|Hin].
    + pose proof (Hkeys _ Hin) as Hk. rewrite Forall_forall in Hlt.
      specialize (Hlt _ Hk). destruct (klt_neqb _ _ Hlt) as [_ ->].
      rewrite Hlt. by apply IHl.
    + apply elem_of_cons in Hin as [Heq|Hin].
      * inversion Heq; subst. rewrite key_eqb_refl. by eexists.
      * pose proof (Hkeys _ Hin) as Hk. rewrite Forall_forall in Hgt.
        specialize (Hgt _ Hk). destruct (klt_neqb _ _ Hgt) as [-> _].
        rewrite (klt_asym _ _ Hgt). by apply IHr.
Qed.

(** Whatever the descent finds is a binding of the tree. *)
Lemma descend_sound key l v t :
  descend key t = Some (l, v) → (key, v) ∈ bindings t ∧ l ∈ locs t.
Proof.
  induction t as [|l0 tl IHl k w tr IHr]; simpl; [done|].
  destruct (key_eqb k key) eqn:Ek.
  - intros [= -> ->]. apply key_eqb_eq in Ek as ->. set_solver.
  - destruct (key_ltb key k); intros Hd.
    + destruct (IHl Hd). set_solver.
    + destruct (IHr Hd). set_solver.
Qed.

Lemma keys_bindings t : keys t = (bindings t).*1.
Proof.
  induction t as [|l tl IHl k w tr IHr]; simpl; [done|].
  rewrite fmap_app. simpl. by rewrite IHl, IHr.
Qed.

Lemma found_iff key t : bst t → found key t = true ↔ key ∈ keys t.
Proof.
  intros Hbst. unfold found. split.
  - destruct (descend key t) as [[l v]|] eqn:Hd; [|done]. intros _.
    apply descend_sound in Hd as [Hin _]. rewrite keys_bindings.
    apply list_elem_of_fmap. by exists (key, v).
  - rewrite keys_bindings. intros ([k v] & -> & Hin)%list_elem_of_fmap. simpl.
    by destruct (descend_binding _ _ _ Hbst Hin) as [l ->].
Qed.

(** The cell the descent stops at. *)
Lemma descend_cell h b key l v t :
  rep h b t → descend key t = Some (l, v) →
  ∃ n, h !! l = Some n ∧ data n = key ∧ value n = v.
Proof.
  revert b. induction t as [|l0 tl IHl k w tr IHr]; intros b; simpl; [done|].
  intros (Hl & Hrl & Hrr). destruct (key_eqb k key) eqn:Ek.
  - intros [= -> ->]. apply key_eqb_eq in Ek as ->. by eexists.
  - destruct (key_ltb key k); eauto.
Qed.

Lemma get_find_spec fuel key s b t :
  rep (nodes s) b t → height t < fuel →
  get_find fuel key (root_ptr t) s =
    Ret (match descend key t with
         | Some (l, _) => inl (ValueOf l)
         | None => inr None
         end) s.
Proof.
  revert b fuel. induction t as [|l tl IHl k v tr IHr]; intros b fuel Hrep Hf.
  - destruct fuel; [lia|]. reflexivity.
  - destruct fuel; [lia|]. simpl in Hf. destruct Hrep as (Hl & Hrl & Hrr).
    cbn [get_find root_ptr descend].
    rewrite (bind_Ret _ _ _ _ _ (load_Some _ _ _ Hl)). cbn [data left right].
    destruct (key_eqb k key).
    + by rewrite (bind_Ret _ _ _ _ _ (value_ref_Some _ _ _ Hl)).
    + destruct (key_ltb key k).
      * apply (IHl (Some l)); [done|lia].
      * apply (IHr (Some l)); [done|lia].
Qed.

Lemma has_spec s this t key :
  is_dict s this t → has this key s = Ret (found key t) s.
Proof.
  intros [Hroot Hrep Hnd]. unfold has, get_root.
  unfold mbind at 1, M_bind at 1, bind at 1. rewrite Hroot.
  rewrite (bind_Ret budget _ s _ s eq_refl).
  eapply has_loop_spec; [done|]. by eapply budget_enough.
Qed.

Lemma add_spec s this t key v :
  is_dict s this t →
  ∃ s', add this key v s = Ret () s'
     ∧ is_dict s' this (tadd (fresh (dom (nodes s))) key v t)
     ∧ (found key t = true → s' = s)
     ∧ (∀ o, o ≠ this → roots s' !! o = roots s !! o)
     ∧ (∀ l', l' ∉ locs t → l' ≠ fresh (dom (nodes s)) →
           nodes s' !! l' = nodes s !! l').
Proof.
  intros [Hroot Hrep Hnd]. unfold add, get_root.
  unfold mbind at 1, M_bind at 1, bind at 1. rewrite Hroot.
  destruct (tree_leaf_dec t) as [->|Hne].
  - simpl. eexists. split.
    { unfold new_node, set_root, mbind, M_bind, bind. simpl. rewrite Hroot. reflexivity. }
    split_and!; try done.
    + split; simpl; [by rewrite lookup_insert_eq| |apply NoDup_singleton].
      by rewrite lookup_insert_eq.
    + intros o Ho. simpl. by rewrite lookup_insert_ne.
    + intros l' _ Hl'. simpl. by rewrite lookup_insert_ne.
  - destruct (root_ptr_Some t Hne) as [l Hl]. rewrite Hl.
    rewrite (bind_Ret budget _ s _ s eq_refl). rewrite <- Hl.
    destruct (add_loop_spec (2 + 2 * size (nodes s)) key v s None t)
      as (s' & Hrun & Hroots & Hrep' & Hsame & Hframe);
      [done|done|done|by eapply budget_enough|].
    exists s'. split_and!; try done.
    + split.
      * rewrite Hroots, root_ptr_tadd by done. done.
      * done.
      * apply NoDup_locs_tadd; [|done]. by eapply fresh_not_in.
    + intros o _. by rewrite Hroots.
Qed.


Lemma get_const_descend s this t key :
  is_dict s this t →
  get_const this key s =
    match descend key t with
    | Some (l, _) => Ret (ValueOf l) s
    | None => Throw InvalidArgument s
    end.
Proof.
  intros Hd. pose proof Hd as [Hroot Hrep Hnd].
  unfold get_const, get_root.
  unfold mbind at 1, M_bind at 1, bind at 1. rewrite Hroot.
  rewrite (bind_Ret _ _ _ _ _ (has_spec _ _ _ key Hd)). unfold found.
  destruct (descend key t) as [[l v]|] eqn:Hdesc; [|done].
  rewrite (bind_Ret budget _ s _ s eq_refl).
  rewrite (bind_Ret _ _ _ _ _ (get_find_spec _ key s None t Hrep
             (budget_enough _ _ _ Hrep Hnd))).
  by rewrite Hdesc.
Qed.

Lemma get_const_binding s this t key v :
  is_dict s this t → bst t → (key, v) ∈ bindings t →
  ∃ r, get_const this key s = Ret r s ∧ read_ref r s = Ret v s.
Proof.
  intros Hd Hbst Hin. rewrite (get_const_descend _ _ _ _ Hd).
  destruct (descend_binding _ _ _ Hbst Hin) as [l Hdesc].
  rewrite Hdesc. exists (ValueOf l). split; [done|].
  destruct Hd as [_ Hrep _].
  destruct (descend_cell _ _ _ _ _ _ Hrep Hdesc) as (n & Hn & _ & Hv).
  unfold read_ref. rewrite (bind_Ret _ _ _ _ _ (load_Some _ _ _ Hn)).
  by rewrite <- Hv.
Qed.


(** *** freeNodes *)

Lemma insert_as_alter h l (n : Node K V) (f : Node K V → Node K V) :
  h !! l = Some n → <[l := f n]> h = alter f l h.
Proof.
  intros E. apply map_eq. intros i. destruct (decide (l = i)) as [->|Hne].
  - by rewrite lookup_insert_eq, lookup_alter_eq, E.
  - by rewrite lookup_insert_ne, lookup_alter_ne.
Qed.

Lemma write_slot_spec sl p q s :
  read_slot sl s = Ret p s →
  write_slot sl q s =
    Ret () (mkStore (slot_upd sl q (nodes s)) (slot_upd_roots sl q (roots s))).
Proof.
  destruct sl as [this|l|l]; simpl.
  - unfold get_root, set_root. by destruct (roots s !! this).
  - unfold set_left, load, store, mbind, M_bind, bind, mret, M_ret, ret.
    destruct (nodes s !! l) as [n|] eqn:E; [|done]. intros _.
    by rewrite (insert_as_alter _ _ _ (λ n, mkNode (data n) (value n) q (right n) (back n)) E).
  - unfold set_right, load, store, mbind, M_bind, bind, mret, M_ret, ret.
    destruct (nodes s !! l) as [n|] eqn:E; [|done]. intros _.
    by rewrite (insert_as_alter _ _ _ (λ n, mkNode (data n) (value n) (left n) q (back n)) E).
Qed.

Lemma slot_upd_lookup sl q h1 h2 l :
  h1 !! l = h2 !! l → slot_upd sl q h1 !! l = slot_upd sl q h2 !! l.
Proof.
  intros E. destruct sl as [this|l0|l0]; simpl; [done| |].
  - destruct (decide (l0 = l)) as [->|Hne].
    + by rewrite !lookup_alter_eq, E.
    + by rewrite !lookup_alter_ne.
  - destruct (decide (l0 = l)) as [->|Hne].
    + by rewrite !lookup_alter_eq, E.
    + by rewrite !lookup_alter_ne.
Qed.

Lemma slot_upd_other sl q h l :
  slot_cell sl ≠ Some l → slot_upd sl q h !! l = h !! l.
Proof.
  destruct sl as [this|l0|l0]; simpl; [done| |]; intros Hne;
    apply lookup_alter_ne; congruence.
Qed.

Lemma freeNodes_spec fuel sl s b t :
  t ≠ Leaf → rep (nodes s) b t → NoDup (locs t) → height t < fuel →
  read_slot sl s = Ret (root_ptr t) s →
  (∀ l, slot_cell sl = Some l → l ∉ locs t) →
  ∃ s', freeNodes fuel sl s = Ret () s' ∧ freed sl t s s'.
Proof.
  revert sl s b fuel. induction t as [|l tl IHl k v tr IHr];
    intros sl s b fuel Hne Hrep Hnd Hf Hsl Hout; [done|].
  destruct fuel as [|fuel]; [lia|]. simpl in Hf.
  destruct Hrep as (Hl & Hrl & Hrr).
  simpl in Hnd. apply NoDup_app in Hnd as (Hndl & Hlr & Hnd).
  apply NoDup_cons in Hnd as (Hltr & Hndr).
  assert (l ∉ locs tl) as Hltl by (intros Hin; apply (Hlr l Hin); set_solver).
  set (n := mkNode k v (root_ptr tl) (root_ptr tr) b) in *.
  (* the left subtree *)
  assert (∃ s1, (if hasLeft n
                 then freeNodes fuel (LeftOf l)
                 else mret ()) s = Ret () s1
                ∧ freed (LeftOf l) tl s s1) as (s1 & Hrun1 & Hroots1 & Hfr1).
  { destruct (tree_leaf_dec tl) as [->|Htl].
    - exists s. split; [done|]. split; [done|]. intros l' _. simpl.
      destruct (decide (l = l')) as [<-|Hne'].
      + by rewrite lookup_alter_eq, Hl.
      + by rewrite lookup_alter_ne.
    - destruct (root_ptr_Some tl Htl) as [l1 Hl1].
      replace (hasLeft n) with true by (unfold hasLeft, n; simpl; by rewrite Hl1).
      apply (IHl (LeftOf l) s (Some l)); [done|done|done|lia| |].
      + simpl. by rewrite (bind_Ret _ _ _ _ _ (load_Some _ _ _ Hl)).
      + by intros ? [= <-]. }
  simpl in Hroots1.
  assert (nodes s1 !! l = Some (mkNode k v None (root_ptr tr) b)) as Hl1.
  { rewrite Hfr1 by done. simpl. by rewrite lookup_alter_eq, Hl. }
  set (n1 := mkNode k v None (root_ptr tr) b) in *.
  (* the right subtree *)
  assert (∃ s2, (if hasRight n1
                 then freeNodes fuel (RightOf l)
                 else mret ()) s1 = Ret () s2
                ∧ freed (RightOf l) tr s1 s2) as (s2 & Hrun2 & Hroots2 & Hfr2).
  { destruct (tree_leaf_dec tr) as [->|Htr].
    - exists s1. split; [done|]. split; [done|]. intros l' _. simpl.
      destruct (decide (l = l')) as [<-|Hne'].
      + by rewrite lookup_alter_eq, Hl1.
      + by rewrite lookup_alter_ne.
    - destruct (root_ptr_Some tr Htr) as [l2 Hl2].
      replace (hasRight n1) with true by (unfold hasRight, n1; simpl; by rewrite Hl2).
      apply (IHr (RightOf l) s1 (Some l)); [done| |done|lia| |].
      + eapply rep_frame; [|exact Hrr]. intros l' Hl'.
        rewrite Hfr1.
        * simpl. apply lookup_alter_ne. by intros ->.
        * intros Hin. apply (Hlr l' Hin). set_solver.
      + simpl. by rewrite (bind_Ret _ _ _ _ _ (load_Some _ _ _ Hl1)).
      + by intros ? [= <-]. }
  simpl in Hroots2.
  (* the slot itself *)
  assert (∀ l0, l0 ∉ locs tl ++ l :: locs tr → nodes s2 !! l0 = nodes s !! l0) as Hfr.
  { intros l0 Hl0.
    rewrite Hfr2, (slot_upd_other (RightOf l)), Hfr1, (slot_upd_other (LeftOf l));
      simpl; [done|set_solver..]. }
  assert (read_slot sl s2 = Ret (Some l) s2) as Hsl2.
  { destruct sl as [this|l0|l0]; simpl in Hsl |- *.
    - unfold get_root in *. rewrite Hroots2, Hroots1.
      by destruct (roots s !! this) as [r|]; simplify_eq.
    - unfold load, mbind, M_bind, bind in *. rewrite Hfr by by apply Hout.
      destruct (nodes s !! l0) as [n0|]; [|done]. unfold mret, M_ret, ret in *.
      injection Hsl as Hsl. by rewrite Hsl.
    - unfold load, mbind, M_bind, bind in *. rewrite Hfr by by apply Hout.
      destruct (nodes s !! l0) as [n0|]; [|done]. unfold mret, M_ret, ret in *.
      injection Hsl as Hsl. by rewrite Hsl. }
  eexists. split.
  { cbn [freeNodes]. simpl in Hsl. rewrite (bind_Ret _ _ _ _ _ Hsl).
    rewrite (bind_Ret _ _ _ _ _ (load_Some _ _ _ Hl)). fold n.
    assert ((if negb (isLeaf n)
             then (if hasLeft n then freeNodes fuel (LeftOf l) else mret ()) ≫= λ _,
                  load (Some l) ≫= λ n', if hasRight n' then freeNodes fuel (RightOf l) else mret ()
             else mret ()) s = Ret () s2) as Hbody.
    { destruct (isLeaf n) eqn:Hleaf; simpl.
      - unfold isLeaf, hasLeft, hasRight, n, n1 in *. simpl in *.
        destruct (root_ptr tl); [done|]. destruct (root_ptr tr); [done|].
        unfold mret, M_ret, ret in *. congruence.
      - rewrite (bind_Ret _ _ _ _ _ Hrun1).
        by rewrite (bind_Ret _ _ _ _ _ (load_Some _ _ _ Hl1)). }
    rewrite (bind_Ret _ _ _ _ _ Hbody).
    apply (write_slot_spec _ _ _ _ Hsl2). }
  split; simpl.
  - by rewrite Hroots2, Hroots1.
  - intros l' Hl'. apply slot_upd_lookup. by apply Hfr.
Qed.

(** *** Null roots *)


Lemma copy_assign_into_empty s this other :
  this ≠ other → roots s !! this = Some None →
  copy_assign this other s = Undefined NullDeref.
Proof.
  intros Hne Hroot. unfold copy_assign. rewrite decide_True by done.
  unfold mbind at 1, M_bind at 1, bind at 1. simpl.
  unfold mbind at 1, M_bind at 1, bind at 1.
  unfold get_root, mbind, M_bind, bind. by rewrite Hroot.
Qed.

Lemma copy_construct_undefined s other :
  is_Some (roots s !! other) → copy_construct other s = Undefined NullDeref.
Proof.
  intros Hother. unfold copy_construct, construct.
  unfold mbind at 1, M_bind at 1, bind at 1.
  set (o := fresh (dom (roots s))).
  assert (o ≠ other) as Hne.
  { intros Heq. apply (is_fresh (dom (roots s))). fold o. rewrite Heq.
    by apply elem_of_dom. }
  unfold mbind at 1, M_bind at 1, bind at 1.
  rewrite copy_assign_into_empty; [done|done|]. simpl. by rewrite lookup_insert_eq.
Qed.


(** *** Reading an unassigned local in remove *)

Lemma remove_rec_no_step depth fuel s this key :
  (roots s !! this = Some None
   ∨ ∃ l n, roots s !! this = Some (Some l) ∧ nodes s !! l = Some n
            ∧ key_eqb (data n) key = true) →
  remove_rec (S depth) (S fuel) this key s = Undefined IndeterminateRead.
Proof.
  intros Hcase. simpl. unfold get_root, load, mbind, M_bind, bind.
  destruct Hcase as [Hroot|(l & n & Hroot & Hn & Heq)]; rewrite Hroot; [done|].
  rewrite Hn. simpl. by rewrite Heq.
Qed.

Lemma remove_no_step s this key :
  (roots s !! this = Some None
   ∨ ∃ l n, roots s !! this = Some (Some l) ∧ nodes s !! l = Some n
            ∧ key_eqb (data n) key = true) →
  remove this key s = Undefined IndeterminateRead.
Proof.
  intros Hcase. unfold remove. rewrite (bind_Ret budget _ s _ s eq_refl).
  by apply remove_rec_no_step.
Qed.

(** *** Replacing a subtree below a slot *)

Lemma slot_upd_id sl p s :
  read_slot sl s = Ret p s →
  slot_upd sl p (nodes s) = nodes s ∧ slot_upd_roots sl p (roots s) = roots s.
Proof.
  destruct sl as [this|l|l]; simpl.
  - unfold get_root. destruct (roots s !! this) as [r|] eqn:E; [|done].
    intros [= ->]. split; [done|]. by apply insert_id.
  - unfold load, mbind, M_bind, bind, mret, M_ret, ret.
    destruct (nodes s !! l) as [n|] eqn:E; [|done]. intros [= <-]. split; [|done].
    apply map_eq. intros i. destruct (decide (l = i)) as [<-|Hne].
    + rewrite lookup_alter_eq, E. by destruct n.
    + by rewrite lookup_alter_ne.
  - unfold load, mbind, M_bind, bind, mret, M_ret, ret.
    destruct (nodes s !! l) as [n|] eqn:E; [|done]. intros [= <-]. split; [|done].
    apply map_eq. intros i. destruct (decide (l = i)) as [<-|Hne].
    + rewrite lookup_alter_eq, E. by destruct n.
    + by rewrite lookup_alter_ne.
Qed.

Lemma under_inv sl b l tl k v tr s :
  under sl b (Tree l tl k v tr) s →
  nodes s !! l = Some (mkNode k v (root_ptr tl) (root_ptr tr) b)
  ∧ under (LeftOf l) (Some l) tl s
  ∧ under (RightOf l) (Some l) tr s
  ∧ (∀ x, x ∈ locs tl → x ∉ locs tr).
Proof.
  intros (Hsl & (Hl & Hrl & Hrr) & Hnd & Hout).
  simpl in Hnd. apply NoDup_app in Hnd as (Hndl & Hlr & Hnd).
  apply NoDup_cons in Hnd as (Hltr & Hndr).
  split_and!; [done| | |].
  - split_and!; [|done|done|].
    + simpl. by rewrite (bind_Ret _ _ _ _ _ (load_Some _ _ _ Hl)).
    + intros ? [= <-] Hin. apply (Hlr l Hin). set_solver.
  - split_and!; [|done|done|].
    + simpl. by rewrite (bind_Ret _ _ _ _ _ (load_Some _ _ _ Hl)).
    + by intros ? [= <-].
  - intros x Hx Hx'. apply (Hlr x Hx). set_solver.
Qed.

Lemma replaced_left sl b l tl tl' k v tr s s' :
  under sl b (Tree l tl k v tr) s →
  replaced (LeftOf l) (Some l) tl tl' s s' →
  replaced sl b (Tree l tl k v tr) (Tree l tl' k v tr) s s'.
Proof.
  intros Hu (Hroots & Hfr & Hrep').
  pose proof (under_inv _ _ _ _ _ _ _ _ Hu) as (Hl & Hul & Hur & Hdisj).
  destruct Hu as (Hsl & Hrep & Hnd & Hout).
  destruct (slot_upd_id _ _ _ Hsl) as [Hid Hidr].
  destruct Hul as (_ & _ & _ & Hll). specialize (Hll l eq_refl).
  destruct Hur as (_ & Hrr & _ & Hlr). specialize (Hlr l eq_refl).
  simpl in Hroots. split_and!.
  - rewrite Hroots. symmetry. exact Hidr.
  - intros l' Hl'. change (root_ptr (Tree l tl' k v tr)) with (root_ptr (Tree l tl k v tr)).
    rewrite Hid, Hfr by (simpl in Hl'; set_solver).
    simpl. apply lookup_alter_ne. simpl in Hl'. set_solver.
  - simpl. split_and!; [|done|].
    + rewrite Hfr by done. simpl. by rewrite lookup_alter_eq, Hl.
    + eapply rep_frame; [|exact Hrr]. intros l' Hl'. rewrite Hfr.
      * simpl. apply lookup_alter_ne. by intros ->.
      * intros Hin. by apply (Hdisj l').
Qed.

Lemma replaced_right sl b l tl k v tr tr' s s' :
  under sl b (Tree l tl k v tr) s →
  replaced (RightOf l) (Some l) tr tr' s s' →
  replaced sl b (Tree l tl k v tr) (Tree l tl k v tr') s s'.
Proof.
  intros Hu (Hroots & Hfr & Hrep').
  pose proof (under_inv _ _ _ _ _ _ _ _ Hu) as (Hl & Hul & Hur & Hdisj).
  destruct Hu as (Hsl & Hrep & Hnd & Hout).
  destruct (slot_upd_id _ _ _ Hsl) as [Hid Hidr].
  destruct Hul as (_ & Hrl & _ & Hll). specialize (Hll l eq_refl).
  destruct Hur as (_ & _ & _ & Hlr). specialize (Hlr l eq_refl).
  simpl in Hroots. split_and!.
  - rewrite Hroots. symmetry. exact Hidr.
  - intros l' Hl'. change (root_ptr (Tree l tl k v tr')) with (root_ptr (Tree l tl k v tr)).
    rewrite Hid, Hfr by (simpl in Hl'; set_solver).
    simpl. apply lookup_alter_ne. simpl in Hl'. set_solver.
  - simpl. split_and!; [| |done].
    + rewrite Hfr by done. simpl. by rewrite lookup_alter_eq, Hl.
    + eapply rep_frame; [|exact Hrl]. intros l' Hl'. rewrite Hfr.
      * simpl. apply lookup_alter_ne. by intros ->.
      * intros Hin. by apply (Hdisj l').
Qed.

(** *** maxKey, minKey and the search loop of remove *)

Lemma maxKey_spec fuel s b l tl k v tr :
  rep (nodes s) b (Tree l tl k v tr) → height tr < fuel →
  maxKey fuel (Some l) s =
    Ret (Some (default (l, k) (tlast tr)).1) s.
Proof.
  revert b fuel l tl k v. induction tr as [|l1 tl1 IHl k1 v1 tr1 IHr];
    intros b fuel l tl k v (Hl & Hrl & Hrr) Hf.
  - destruct fuel; [lia|]. simpl.
    by rewrite (bind_Ret _ _ _ _ _ (load_Some _ _ _ Hl)).
  - destruct fuel; [simpl in Hf; lia|]. cbn [maxKey].
    rewrite (bind_Ret _ _ _ _ _ (load_Some _ _ _ Hl)). cbn [right root_ptr].
    rewrite (IHr (Some l) fuel l1 tl1 k1 v1 Hrr) by (simpl in Hf; lia).
    simpl. by destruct (tlast tr1).
Qed.

Lemma minKey_spec fuel s b l tl k v tr :
  rep (nodes s) b (Tree l tl k v tr) → height tl < fuel →
  minKey fuel (Some l) s =
    Ret (Some (default (l, k) (tfirst tl)).1) s.
Proof.
  revert b fuel l k v tr. induction tl as [|l1 tl1 IHl k1 v1 tr1 IHr];
    intros b fuel l k v tr (Hl & Hrl & Hrr) Hf.
  - destruct fuel; [lia|]. simpl.
    by rewrite (bind_Ret _ _ _ _ _ (load_Some _ _ _ Hl)).
  - destruct fuel; [simpl in Hf; lia|]. cbn [minKey].
    rewrite (bind_Ret _ _ _ _ _ (load_Some _ _ _ Hl)). cbn [left root_ptr].
    rewrite (IHl (Some l) fuel l1 k1 v1 tr1 Hrl) by (simpl in Hf; lia).
    simpl. by destruct (tfirst tl1).
Qed.

(** The node [tlast] and [tfirst] name is in the tree, with that key. *)
Lemma tlast_cell h b t l k :
  rep h b t → tlast t = Some (l, k) →
  l ∈ locs t ∧ k ∈ keys t ∧ ∃ n, h !! l = Some n ∧ data n = k.
Proof.
  revert b. induction t as [|l0 tl IHl k0 v0 tr IHr]; intros b; simpl; [done|].
  intros (Hl & Hrl & Hrr). destruct (tlast tr) as [[l1 k1]|] eqn:E.
  - intros [= -> ->]. destruct (IHr _ Hrr eq_refl) as (? & ? & ?). set_solver.
  - intros [= -> ->]. split_and!; [set_solver..|]. by eexists.
Qed.

Lemma tfirst_cell h b t l k :
  rep h b t → tfirst t = Some (l, k) →
  l ∈ locs t ∧ k ∈ keys t ∧ ∃ n, h !! l = Some n ∧ data n = k.
Proof.
  revert b. induction t as [|l0 tl IHl k0 v0 tr IHr]; intros b; simpl; [done|].
  intros (Hl & Hrl & Hrr). destruct (tfirst tl) as [[l1 k1]|] eqn:E.
  - intros [= -> ->]. destruct (IHl _ Hrl eq_refl) as (? & ? & ?). set_solver.
  - intros [= -> ->]. split_and!; [set_solver..|]. by eexists.
Qed.

Lemma remove_search_spec fuel key sl rm s b t :
  rep (nodes s) b t → read_slot sl s = Ret (root_ptr t) s → height t < fuel →
  remove_search fuel key sl rm s = Ret (tsearch key sl rm t) s.
Proof.
  revert sl rm b fuel. induction t as [|l tl IHl k v tr IHr];
    intros sl rm b fuel Hrep Hsl Hf.
  - destruct fuel; [lia|]. simpl. by rewrite (bind_Ret _ _ _ _ _ Hsl).
  - destruct fuel; [lia|]. simpl in Hf. destruct Hrep as (Hl & Hrl & Hrr).
    cbn [remove_search tsearch]. simpl in Hsl. rewrite (bind_Ret _ _ _ _ _ Hsl).
    rewrite (bind_Ret _ _ _ _ _ (load_Some _ _ _ Hl)). cbn [data].
    destruct (key_eqb k key); [done|]. cbn [negb].
    destruct (key_ltb key k).
    + assert (read_slot (LeftOf l) s = Ret (root_ptr tl) s) as Hsl'.
      { simpl. by rewrite (bind_Ret _ _ _ _ _ (load_Some _ _ _ Hl)). }
      rewrite (bind_Ret _ _ _ _ _ Hsl'). apply (IHl _ _ (Some l)); [done|done|lia].
    + assert (read_slot (RightOf l) s = Ret (root_ptr tr) s) as Hsl'.
      { simpl. by rewrite (bind_Ret _ _ _ _ _ (load_Some _ _ _ Hl)). }
      rewrite (bind_Ret _ _ _ _ _ Hsl'). apply (IHr _ _ (Some l)); [done|done|lia].
Qed.

Lemma tsearch_remove key sl t :
  (tsearch key sl (Some (root_ptr t)) t).2 = Some (root_ptr (subtree_at key t)).
Proof.
  revert sl. induction t as [|l tl IHl k v tr IHr]; intros sl; simpl; [done|].
  destruct (key_eqb k key); [done|]. simpl. by destruct (key_ltb key k).
Qed.

(** *** Facts about trees *)

Lemma tlast_in t l k : tlast t = Some (l, k) → l ∈ locs t ∧ k ∈ keys t.
Proof.
  induction t as [|l0 tl IHl k0 v0 tr IHr]; simpl; [done|].
  destruct (tlast tr) as [[l1 k1]|]; intros [= -> ->].
  - destruct (IHr eq_refl). set_solver.
  - set_solver.
Qed.

Lemma tfirst_in t l k : tfirst t = Some (l, k) → l ∈ locs t ∧ k ∈ keys t.
Proof.
  induction t as [|l0 tl IHl k0 v0 tr IHr]; simpl; [done|].
  destruct (tfirst tl) as [[l1 k1]|]; intros [= -> ->].
  - destruct (IHl eq_refl). set_solver.
  - set_solver.
Qed.

Lemma tlast_None t : tlast t = None → t = Leaf.
Proof. destruct t as [|l tl k v tr]; [done|]. simpl. by destruct (tlast tr). Qed.

Lemma tfirst_None t : tfirst t = None → t = Leaf.
Proof. destruct t as [|l tl k v tr]; [done|]. simpl. by destruct (tfirst tl). Qed.

Lemma subtree_at_in key t x :
  (x ∈ locs (subtree_at key t) → x ∈ locs t).
Proof.
  induction t as [|l tl IHl k v tr IHr]; simpl; [done|].
  destruct (key_eqb k key); [done|]. destruct (key_ltb key k); set_solver.
Qed.

Lemma subtree_at_keys key t x :
  (x ∈ keys (subtree_at key t) → x ∈ keys t).
Proof.
  induction t as [|l tl IHl k v tr IHr]; simpl; [done|].
  destruct (key_eqb k key); [done|]. destruct (key_ltb key k); set_solver.
Qed.

Lemma subtree_at_root key t l tl k v tr :
  subtree_at key t = Tree l tl k v tr → k = key.
Proof.
  induction t as [|l0 tl0 IHl k0 v0 tr0 IHr]; simpl; [done|].
  destruct (key_eqb k0 key) eqn:E.
  - intros [= -> -> -> -> ->]. by apply key_eqb_eq.
  - by destruct (key_ltb key k0).
Qed.

Lemma height_subtree_at key t : height (subtree_at key t) ≤ height t.
Proof.
  induction t as [|l tl IHl k v tr IHr]; simpl; [done|].
  destruct (key_eqb k key); [done|]. destruct (key_ltb key k); lia.
Qed.

Lemma rep_subtree_at h b key t :
  rep h b t → ∃ b', rep h b' (subtree_at key t).
Proof.
  revert b. induction t as [|l tl IHl k v tr IHr]; intros b Hrep; simpl.
  - by exists b.
  - destruct (key_eqb k key); [by exists b|].
    destruct Hrep as (_ & Hrl & Hrr). destruct (key_ltb key k); eauto.
Qed.

Lemma replacement_of_in t r :
  replacement_of t = Some r →
  ∃ l tl k v tr, t = Tree l tl k v tr ∧ (r ∈ keys tl ∨ (tl = Leaf ∧ r ∈ keys tr)).
Proof.
  destruct t as [|l tl k v tr]; simpl; [done|]. intros Hr.
  exists l, tl, k, v, tr. split; [done|].
  destruct (tlast tl) as [[lm km]|] eqn:E.
  - injection Hr as ->. left. by destruct (tlast_in _ _ _ E).
  - right. split; [by apply tlast_None|].
    destruct (tfirst tr) as [[lm km]|] eqn:E'; [|done]. injection Hr as ->.
    by destruct (tfirst_in _ _ _ E').
Qed.

Lemma locs_tremove key t x : x ∈ locs (tremove key t) → x ∈ locs t.
Proof.
  revert key. induction t as [|l tl IHl k v tr IHr]; intros key; simpl; [done|].
  destruct (key_eqb k key).
  - destruct (tlast tl) as [[lm r]|].
    + simpl. specialize (IHl r). set_solver.
    + destruct (tfirst tr) as [[lm r]|]; simpl; [|set_solver].
      specialize (IHr r). set_solver.
  - destruct (key_ltb key k); simpl.
    + specialize (IHl key). set_solver.
    + specialize (IHr key). set_solver.
Qed.

Lemma NoDup_locs_tremove key t : NoDup (locs t) → NoDup (locs (tremove key t)).
Proof.
  revert key. induction t as [|l tl IHl k v tr IHr]; intros key; simpl; [done|].
  intros Hnd. apply NoDup_app in Hnd as (Hndl & Hlr & Hnd).
  apply NoDup_cons in Hnd as (Hltr & Hndr).
  assert (∀ key' key'', NoDup (locs (tremove key' tl) ++ l :: locs (tremove key'' tr))) as Hgen.
  { intros key' key''. apply NoDup_app. split_and!; [by apply IHl| |].
    - intros x Hx%locs_tremove Hx'. apply (Hlr x Hx).
      apply elem_of_cons in Hx' as [->|Hx'%locs_tremove]; set_solver.
    - apply NoDup_cons. split; [|by apply IHr].
      by intros Hx%locs_tremove. }
  assert (∀ key', NoDup (locs (tremove key' tl) ++ l :: locs tr)) as Hgenl.
  { intros key'. apply NoDup_app. split_and!; [by apply IHl| |by apply NoDup_cons].
    intros x Hx%locs_tremove. by apply Hlr. }
  assert (∀ key', NoDup (locs tl ++ l :: locs (tremove key' tr))) as Hgenr.
  { intros key'. apply NoDup_app. split_and!; [done| |].
    - intros x Hx Hx'. apply (Hlr x Hx).
      apply elem_of_cons in Hx' as [->|Hx'%locs_tremove]; set_solver.
    - apply NoDup_cons. split; [|by apply IHr]. by intros Hx%locs_tremove. }
  destruct (key_eqb k key).
  - destruct (tlast tl) as [[lm r]|]; [apply Hgenl|].
    destruct (tfirst tr) as [[lm r]|]; [apply Hgenr|apply NoDup_nil_2].
  - destruct (key_ltb key k); [apply Hgenl|apply Hgenr].
Qed.

Lemma tremove_absent key t : subtree_at key t = Leaf → tremove key t = t.
Proof.
  induction t as [|l tl IHl k v tr IHr]; simpl; [done|].
  destruct (key_eqb k key); [done|].
  destruct (key_ltb key k); intros E; by rewrite ?IHl, ?IHr.
Qed.

Lemma tset_notin l r t : l ∉ locs t → tset l r t = t.
Proof.
  induction t as [|l0 tl IHl k v tr IHr]; simpl; [done|]. intros Hl.
  rewrite IHl, IHr by set_solver. rewrite decide_False; [done|]. set_solver.
Qed.

Lemma locs_tset l r t : locs (tset l r t) = locs t.
Proof. induction t as [|l0 tl IHl k v tr IHr]; simpl; [done|]. by rewrite IHl, IHr. Qed.

Lemma root_ptr_tset l r t : root_ptr (tset l r t) = root_ptr t.
Proof. by destruct t. Qed.

(** The replacement key takes the same way down as the key it replaces,
    and one step further. *)
Lemma replacement_route key t l tl k v tr r :
  bst t → subtree_at key t = Tree l tl k v tr →
  replacement_of (Tree l tl k v tr) = Some r →
  height (subtree_at r t) < height (Tree l tl k v tr)
  ∧ ∀ l0 tl0 k0 v0 tr0, t = Tree l0 tl0 k0 v0 tr0 → key_eqb k0 r = false.
Proof.
  intros Hbst Hsub Hr. revert Hbst Hsub.
  induction t as [|l0 tl0 IHl k0 v0 tr0 IHr]; [done|].
  intros (Hlt & Hgt & Hbl & Hbr). rewrite Forall_forall in Hlt, Hgt.
  cbn [subtree_at]. destruct (key_eqb k0 key) eqn:Ek.
  - intros [= -> -> -> -> ->].
    destruct (replacement_of_in _ _ Hr) as (? & ? & ? & ? & ? & [= <- <- <- <- <-] & Hin).
    destruct Hin as [Hin|[-> Hin]].
    + specialize (Hlt _ Hin). destruct (klt_neqb _ _ Hlt) as [_ Hne].
      split; [|by intros ? ? ? ? ? [= <- <- <- <- <-]].
      rewrite Hne, Hlt. pose proof (height_subtree_at r tl). simpl. lia.
    + specialize (Hgt _ Hin). destruct (klt_neqb _ _ Hgt) as [Hne _].
      split; [|by intros ? ? ? ? ? [= <- <- <- <- <-]].
      rewrite Hne, (klt_asym _ _ Hgt). pose proof (height_subtree_at r tr). simpl. lia.
  - assert (r ∈ keys (Tree l tl k v tr)) as Hrin.
    { destruct (replacement_of_in _ _ Hr) as (? & ? & ? & ? & ? & [= <- <- <- <- <-] & Hin).
      simpl. set_solver. }
    destruct (key_ltb key k0) eqn:El; intros Hsub.
    + assert (r ∈ keys tl0) as Hin by (rewrite <- Hsub in Hrin; by eapply subtree_at_keys).
      specialize (Hlt _ Hin). destruct (klt_neqb _ _ Hlt) as [_ Hne].
      split; [|by intros ? ? ? ? ? [= <- <- <- <- <-]].
      rewrite Hne, Hlt. by apply IHl.
    + assert (r ∈ keys tr0) as Hin by (rewrite <- Hsub in Hrin; by eapply subtree_at_keys).
      specialize (Hgt _ Hin). destruct (klt_neqb _ _ Hgt) as [Hne _].
      split; [|by intros ? ? ? ? ? [= <- <- <- <- <-]].
      rewrite Hne, (klt_asym _ _ Hgt). by apply IHr.
Qed.

(** Removing the replacement key and then writing it into the node of
    [key] is removing [key]. *)
Lemma tset_tremove key t l tl k v tr r :
  bst t → NoDup (locs t) → subtree_at key t = Tree l tl k v tr →
  replacement_of (Tree l tl k v tr) = Some r →
  tset l r (tremove r t) = tremove key t.
Proof.
  intros Hbst Hnd Hsub Hr. revert Hbst Hnd Hsub.
  induction t as [|l0 tl0 IHl k0 v0 tr0 IHr]; [done|].
  intros (Hlt & Hgt & Hbl & Hbr) Hnd. rewrite Forall_forall in Hlt, Hgt.
  simpl in Hnd. apply NoDup_app in Hnd as (Hndl & Hlr & Hnd).
  apply NoDup_cons in Hnd as (Hltr & Hndr).
  assert (l0 ∉ locs tl0) as Hltl by (intros Hin; apply (Hlr l0 Hin); set_solver).
  cbn [subtree_at tremove]. destruct (key_eqb k0 key) eqn:Ek.
  - intros [= -> -> -> -> ->]. simpl in Hr.
    destruct (tlast tl) as [[lm rm]|] eqn:El.
    + injection Hr as ->. destruct (tlast_in _ _ _ El) as [_ Hin].
      specialize (Hlt _ Hin). destruct (klt_neqb _ _ Hlt) as [_ Hne].
      rewrite Hne, Hlt. cbn [tset]. rewrite decide_True by done.
      rewrite !tset_notin; [done|done|]. by intros Hx%locs_tremove.
    + destruct (tfirst tr) as [[lm rm]|] eqn:Ef; [|done]. injection Hr as ->.
      destruct (tfirst_in _ _ _ Ef) as [_ Hin].
      specialize (Hgt _ Hin). destruct (klt_neqb _ _ Hgt) as [Hne _].
      rewrite Hne, (klt_asym _ _ Hgt). cbn [tset]. rewrite decide_True by done.
      rewrite !tset_notin; [done| |done]. by intros Hx%locs_tremove.
  - assert (r ∈ keys (Tree l tl k v tr)) as Hrin.
    { destruct (replacement_of_in _ _ Hr) as (? & ? & ? & ? & ? & [= <- <- <- <- <-] & Hin).
      simpl. set_solver. }
    destruct (key_ltb key k0) eqn:Elt; intros Hsub.
    + assert (r ∈ keys tl0) as Hin by (rewrite <- Hsub in Hrin; by eapply subtree_at_keys).
      assert (l ∈ locs tl0) as Hlin.
      { apply (subtree_at_in key). rewrite Hsub. simpl. set_solver. }
      specialize (Hlt _ Hin). destruct (klt_neqb _ _ Hlt) as [_ Hne].
      rewrite Hne, Hlt. cbn [tset]. rewrite decide_False by (by intros ->).
      rewrite IHl by done. rewrite tset_notin; [done|].
      intros Hx. apply (Hlr l Hlin). set_solver.
    + assert (r ∈ keys tr0) as Hin by (rewrite <- Hsub in Hrin; by eapply subtree_at_keys).
      assert (l ∈ locs tr0) as Hlin.
      { apply (subtree_at_in key). rewrite Hsub. simpl. set_solver. }
      specialize (Hgt _ Hin). destruct (klt_neqb _ _ Hgt) as [Hne _].
      rewrite Hne, (klt_asym _ _ Hgt). cbn [tset]. rewrite decide_False by (by intros ->).
      rewrite IHr by done. rewrite tset_notin; [done|].
      intros Hx. apply (Hlr l Hx). set_solver.
Qed.

(** The node of [key] stays when it is not a leaf. *)
Lemma tremove_keeps_node key t l tl k v tr r :
  subtree_at key t = Tree l tl k v tr →
  replacement_of (Tree l tl k v tr) = Some r →
  l ∈ locs (tremove key t).
Proof.
  intros Hsub Hr. revert Hsub.
  induction t as [|l0 tl0 IHl k0 v0 tr0 IHr]; [done|].
  cbn [subtree_at tremove]. destruct (key_eqb k0 key) eqn:Ek.
  - intros [= -> -> -> -> ->]. simpl in Hr.
    destruct (tlast tl) as [[lm rm]|]; [simpl; set_solver|].
    destruct (tfirst tr) as [[lm rm]|]; [simpl; set_solver|done].
  - destruct (key_ltb key k0); intros Hsub; simpl.
    + specialize (IHl Hsub). set_solver.
    + specialize (IHr Hsub). set_solver.
Qed.

(** *** remove *)

Lemma set_data_rep h b t l r n :
  rep h b t → h !! l = Some n →
  rep (<[l := mkNode r (value n) (left n) (right n) (back n)]> h) b (tset l r t).
Proof.
  revert b. induction t as [|l0 tl IHl k v tr IHr]; intros b; simpl; [done|].
  intros (Hl0 & Hrl & Hrr) Hn. rewrite !root_ptr_tset. split_and!; [|by apply IHl|by apply IHr].
  destruct (decide (l0 = l)) as [->|Hne].
  - rewrite lookup_insert_eq. rewrite Hl0 in Hn. by injection Hn as <-.
  - by rewrite lookup_insert_ne.
Qed.

Lemma read_slot_frame sl p s s' :
  read_slot sl s = Ret p s → roots s' = roots s →
  (∀ l, slot_cell sl = Some l → nodes s' !! l = nodes s !! l) →
  read_slot sl s' = Ret p s'.
Proof.
  intros Hsl Hroots Hfr. destruct sl as [this|l|l]; simpl in *.
  - unfold get_root in *. rewrite Hroots. destruct (roots s !! this); by simplify_eq.
  - unfold load, mbind, M_bind, bind, mret, M_ret, ret in *. rewrite Hfr by done.
    destruct (nodes s !! l); [|done]. injection Hsl as Hsl. by rewrite Hsl.
  - unfold load, mbind, M_bind, bind, mret, M_ret, ret in *. rewrite Hfr by done.
    destruct (nodes s !! l); [|done]. injection Hsl as Hsl. by rewrite Hsl.
Qed.

(** Deleting a leaf and clearing the slot the search loop ended on. *)
Lemma delete_leaf_spec key t : ∀ rm sl b s l k v,
  under sl b t s → subtree_at key t = Tree l Leaf k v Leaf →
  ∃ s', (delete_node l ≫= λ _, write_slot (tsearch key sl rm t).1 None) s = Ret () s'
      ∧ replaced sl b t (tremove key t) s s'.
Proof.
  induction t as [|l0 tl IHl k0 v0 tr IHr]; intros rm sl b s l k v Hu; [done|].
  pose proof (under_inv _ _ _ _ _ _ _ _ Hu) as (Hl0 & Hul & Hur & Hdisj).
  cbn [subtree_at tsearch tremove]. destruct (key_eqb k0 key) eqn:Ek.
  - intros [= -> -> -> -> ->]. cbn [negb tlast tfirst].
    destruct Hu as (Hsl & Hrep & Hnd & Hout).
    set (sd := mkStore (delete l (nodes s)) (roots s)).
    assert (read_slot sl sd = Ret (Some l) sd) as Hsl'.
    { eapply read_slot_frame; [exact Hsl|done|].
      intros l' Hl'. simpl. apply lookup_delete_ne. intros ->.
      apply (Hout _ Hl'). simpl. set_solver. }
    eexists. split.
    { rewrite (bind_Ret (delete_node l) _ s () sd eq_refl).
      apply (write_slot_spec _ _ _ _ Hsl'). }
    split_and!; simpl; [done| |done].
    intros l' Hl'. apply slot_upd_lookup. apply lookup_delete_ne. set_solver.
  - cbn [negb]. destruct (key_ltb key k0); intros Hsub.
    + destruct (IHl (Some (root_ptr tl)) (LeftOf l0) (Some l0) s l k v Hul Hsub)
        as (s' & Hrun & Hrepl).
      exists s'. split; [done|]. by apply replaced_left.
    + destruct (IHr (Some (root_ptr tr)) (RightOf l0) (Some l0) s l k v Hur Hsub)
        as (s' & Hrun & Hrepl).
      exists s'. split; [done|]. by apply replaced_right.
Qed.

Lemma is_dict_under s this t : is_dict s this t → under (RootOf this) None t s.
Proof.
  intros [Hroot Hrep Hnd]. split_and!; [|done|done|done].
  simpl. unfold get_root. by rewrite Hroot.
Qed.

Lemma replaced_is_dict s s' this t t' :
  replaced (RootOf this) None t t' s s' → NoDup (locs t') → is_dict s' this t'.
Proof.
  intros (Hroots & _ & Hrep) Hnd. split; [|done|done].
  rewrite Hroots. simpl. by rewrite lookup_insert_eq.
Qed.

Lemma remove_rec_spec depth : ∀ fuel s this t key l0 tl0 k0 v0 tr0,
  is_dict s this t → bst t → height t < fuel →
  t = Tree l0 tl0 k0 v0 tr0 → key_eqb k0 key = false →
  height (subtree_at key t) < depth →
  ∃ s', remove_rec depth fuel this key s = Ret () s'
      ∧ is_dict s' this (tremove key t)
      ∧ (∀ o, o ≠ this → roots s' !! o = roots s !! o)
      ∧ (∀ l', l' ∉ locs t → nodes s' !! l' = nodes s !! l')
      ∧ (subtree_at key t = Leaf → s' = s).
Proof.
  induction depth as [|depth IH];
    intros fuel s this t key l0 tl0 k0 v0 tr0 Hd Hbst Hf Ht Hk0 Hdepth; [lia|].
  pose proof (is_dict_under _ _ _ Hd) as Hu.
  pose proof Hd as [Hroot Hrep Hnd]. pose proof Hu as (Hsl & _).
  cbn [remove_rec].
  rewrite (bind_Ret _ _ _ _ _
             (remove_search_spec fuel key (RootOf this) None s None t Hrep Hsl Hf)).
  assert (tsearch key (RootOf this) None t =
          ((tsearch key (RootOf this) None t).1,
           Some (root_ptr (subtree_at key t)))) as Hts.
  { rewrite (surjective_pairing (tsearch key (RootOf this) None t)) at 1.
    f_equal. subst t. simpl. rewrite Hk0. simpl.
    destruct (key_ltb key k0); apply tsearch_remove. }
  rewrite Hts. clear Hts.
  destruct (subtree_at key t) as [|l tl k v tr] eqn:Hsub.
  { exists s. rewrite tremove_absent by done. by split_and!. }
  destruct (rep_subtree_at _ _ key _ Hrep) as [b' Hrs]. rewrite Hsub in Hrs.
  pose proof Hrs as (Hl & Hrl & Hrr). cbn [root_ptr].
  rewrite (bind_Ret _ _ _ _ _ (load_Some _ _ _ Hl)).
  assert (l ∈ locs t) as Hlin.
  { apply (subtree_at_in key). rewrite Hsub. simpl. set_solver. }
  pose proof (height_subtree_at key t) as Hhs. rewrite Hsub in Hhs.
  destruct (replacement_of (Tree l tl k v tr)) as [r|] eqn:Hr.
  - (* the node has a child *)
    assert (isLeaf (mkNode k v (root_ptr tl) (root_ptr tr) b') = false) as ->.
    { unfold isLeaf. simpl. simpl in Hr.
      destruct tl as [|l1 tl1 k1 v1 tr1]; [|done].
      destruct tr as [|l1 tl1 k1 v1 tr1]; done. }
    cbn [negb left right].
    assert (∃ lm nm,
      (match root_ptr tl with
       | Some _ => maxKey fuel (root_ptr tl)
       | None => minKey fuel (root_ptr tr)
       end) s = Ret (Some lm) s
      ∧ nodes s !! lm = Some nm ∧ data nm = r) as (lm & nm & Hm & Hnm & Hdata).
    { unfold replacement_of in Hr. destruct tl as [|l1 tl1 k1 v1 tr1].
      - destruct tr as [|l1 tl1 k1 v1 tr1]; [done|]. cbn [root_ptr tlast] in *.
        rewrite (minKey_spec fuel s _ _ _ _ _ _ Hrr) by (simpl in Hhs; lia).
        destruct (tfirst (Tree l1 tl1 k1 v1 tr1)) as [[lm km]|] eqn:Ef; [|done].
        injection Hr as ->.
        destruct (tfirst_cell _ _ _ _ _ Hrr Ef) as (_ & _ & nm & Hnm & Hdata).
        exists lm, nm. split_and!; [|done|done].
        simpl in Ef. destruct (tfirst tl1); by simplify_eq.
      - cbn [root_ptr] in *.
        rewrite (maxKey_spec fuel s _ _ _ _ _ _ Hrl) by (simpl in Hhs; lia).
        destruct (tlast (Tree l1 tl1 k1 v1 tr1)) as [[lm km]|] eqn:El;
          [|by apply tlast_None in El].
        injection Hr as ->.
        destruct (tlast_cell _ _ _ _ _ Hrl El) as (_ & _ & nm & Hnm & Hdata).
        exists lm, nm. split_and!; [|done|done].
        simpl in El. destruct (tlast tr1); by simplify_eq. }
    rewrite (bind_Ret _ _ _ _ _ Hm).
    rewrite (bind_Ret _ _ _ _ _ (load_Some _ _ _ Hnm)). rewrite Hdata.
    destruct (replacement_route key t l tl k v tr r Hbst Hsub Hr) as [Hlt Hroot_ne].
    destruct (IH fuel s this t r l0 tl0 k0 v0 tr0) as (s1 & Hrun1 & Hd1 & Hroots1 & Hfr1 & _);
      [done|done|done|done|by eapply Hroot_ne|lia|].
    rewrite (bind_Ret _ _ _ _ _ Hrun1).
    pose proof (tset_tremove key t l tl k v tr r Hbst Hnd Hsub Hr) as Hid.
    pose proof Hd1 as [Hroot1 Hrep1 Hnd1].
    assert (l ∈ locs (tremove r t)) as Hlin1.
    { rewrite <- (locs_tset l r), Hid. by eapply tremove_keeps_node. }
    pose proof (rep_dom _ _ _ _ Hrep1 Hlin1) as [n1 Hn1]%elem_of_dom.
    eexists. split.
    { unfold set_data. rewrite (bind_Ret _ _ _ _ _ (load_Some _ _ _ Hn1)). reflexivity. }
    split_and!; simpl.
    + split; simpl.
      * by rewrite Hroot1, <- Hid, root_ptr_tset.
      * rewrite <- Hid. by apply set_data_rep.
      * by apply NoDup_locs_tremove.
    + done.
    + intros l' Hl'. rewrite lookup_insert_ne by (by intros ->). by apply Hfr1.
    + done.
  - (* the node is a leaf *)
    assert (tl = Leaf ∧ tr = Leaf) as [-> ->].
    { simpl in Hr. destruct (tlast tl) as [[??]|] eqn:El; [done|].
      destruct (tfirst tr) as [[??]|] eqn:Ef; [done|].
      split; [by apply tlast_None|by apply tfirst_None]. }
    cbn [isLeaf left right root_ptr negb].
    destruct (delete_leaf_spec key t None (RootOf this) None s l k v Hu Hsub)
      as (s' & Hrun & Hrepl).
    exists s'. split; [exact Hrun|].
    destruct Hrepl as (Hroots' & Hfr' & Hrep').
    split_and!.
    + eapply replaced_is_dict; [by split_and!|]. by apply NoDup_locs_tremove.
    + intros o Ho. rewrite Hroots'. simpl. by rewrite lookup_insert_ne.
    + intros l' Hl'. by rewrite Hfr'.
    + done.
Qed.

Lemma remove_spec s this t key l0 tl0 k0 v0 tr0 :
  is_dict s this t → bst t →
  t = Tree l0 tl0 k0 v0 tr0 → key_eqb k0 key = false →
  ∃ s', remove this key s = Ret () s'
      ∧ is_dict s' this (tremove key t)
      ∧ (∀ o, o ≠ this → roots s' !! o = roots s !! o)
      ∧ (∀ l', l' ∉ locs t → nodes s' !! l' = nodes s !! l')
      ∧ (subtree_at key t = Leaf → s' = s).
Proof.
  intros Hd Hbst Ht Hk0. unfold remove.
  rewrite (bind_Ret budget _ s _ s eq_refl).
  pose proof Hd as [_ Hrep Hnd].
  pose proof (budget_enough _ _ _ Hrep Hnd) as Hb.
  eapply remove_rec_spec; [done..|].
  pose proof (height_subtree_at key t). lia.
Qed.

(** *** The search-tree order under add and remove *)

Lemma key_eq_dec (a b : K) : a = b ∨ a ≠ b.
Proof.
  destruct (key_eqb a b) eqn:E; [left; by apply key_eqb_eq|right].
  intros ->. by rewrite key_eqb_refl in E.
Qed.

Lemma klt_ne (a b : K) : klt a b → a ≠ b.
Proof. intros Hab ->. by apply (klt_irrefl b). Qed.

Lemma keys_tadd new key v t x :
  x ∈ keys (tadd new key v t) ↔ x = key ∨ x ∈ keys t.
Proof.
  induction t as [|l tl IHl k w tr IHr]; simpl; [set_solver|].
  destruct (key_eqb k key) eqn:Ek.
  - apply key_eqb_eq in Ek as ->. simpl. set_solver.
  - destruct (key_ltb key k); simpl; set_solver.
Qed.

Lemma bst_tadd new key v t : bst t → bst (tadd new key v t).
Proof.
  induction t as [|l tl IHl k w tr IHr]; simpl.
  - intros _. by split_and!.
  - intros (Hlt & Hgt & Hbl & Hbr). destruct (key_eqb k key) eqn:Ek; [done|].
    destruct (key_ltb key k) eqn:El; simpl.
    + split_and!; [|done|by apply IHl|done].
      rewrite Forall_forall in *. intros x [->|Hx]%keys_tadd; [done|by apply Hlt].
    + split_and!; [done| |done|by apply IHr].
      rewrite Forall_forall in *. intros x [->|Hx]%keys_tadd; [|by apply Hgt].
      destruct (key_ltb_total k key) as [?|[->|Hc]]; [done| |].
      * by rewrite key_eqb_refl in Ek.
      * unfold klt. congruence.
Qed.

Lemma tlast_max t l r :
  bst t → tlast t = Some (l, r) → ∀ x, x ∈ keys t → x = r ∨ klt x r.
Proof.
  revert l r. induction t as [|l0 tl IHl k v tr IHr]; intros l r; simpl; [done|].
  intros (Hlt & Hgt & Hbl & Hbr). rewrite Forall_forall in Hlt, Hgt.
  destruct (tlast tr) as [[lm rm]|] eqn:E; intros [= -> ->] x Hx.
  - destruct (tlast_in _ _ _ E) as [_ Hr]. specialize (Hgt _ Hr).
    apply elem_of_app in Hx as [Hx|Hx].
    + right. eapply key_ltb_trans; [by apply Hlt|done].
    + apply elem_of_cons in Hx as [->|Hx]; [by right|]. by eapply IHr.
  - apply tlast_None in E as ->. simpl in Hx.
    apply elem_of_app in Hx as [Hx|Hx]; [right; by apply Hlt|]. left. set_solver.
Qed.

Lemma tfirst_min t l r :
  bst t → tfirst t = Some (l, r) → ∀ x, x ∈ keys t → x = r ∨ klt r x.
Proof.
  revert l r. induction t as [|l0 tl IHl k v tr IHr]; intros l r; simpl; [done|].
  intros (Hlt & Hgt & Hbl & Hbr). rewrite Forall_forall in Hlt, Hgt.
  destruct (tfirst tl) as [[lm rm]|] eqn:E; intros [= -> ->] x Hx.
  - destruct (tfirst_in _ _ _ E) as [_ Hr]. specialize (Hlt _ Hr).
    apply elem_of_app in Hx as [Hx|Hx]; [by eapply IHl|].
    right. apply elem_of_cons in Hx as [->|Hx]; [done|].
    eapply key_ltb_trans; [done|by apply Hgt].
  - apply tfirst_None in E as ->. simpl in Hx.
    apply elem_of_cons in Hx as [->|Hx]; [by left|right; by apply Hgt].
Qed.

(** After [remove(key)] the keys are those there were, but for [key]. *)
Lemma keys_tremove key t x :
  bst t → x ∈ keys (tremove key t) ↔ x ∈ keys t ∧ x ≠ key.
Proof.
  revert key. induction t as [|l tl IHl k v tr IHr]; intros key; simpl; [set_solver|].
  intros (Hlt & Hgt & Hbl & Hbr). rewrite Forall_forall in Hlt, Hgt.
  assert (∀ y, y ∈ keys tl → y ≠ k) as Hltne by (intros y Hy; by apply klt_ne, Hlt).
  assert (∀ y, y ∈ keys tr → y ≠ k) as Hgtne.
  { intros y Hy Heq. apply (klt_ne k y); [by apply Hgt|done]. }
  destruct (key_eqb k key) eqn:Ek.
  - apply key_eqb_eq in Ek as <-.
    destruct (tlast tl) as [[lm r]|] eqn:El.
    + destruct (tlast_in _ _ _ El) as [_ Hr]. simpl.
      rewrite !elem_of_app, !elem_of_cons, (IHl r Hbl).
      destruct (key_eq_dec x r) as [->|Hne]; naive_solver.
    + apply tlast_None in El as ->.
      destruct (tfirst tr) as [[lm r]|] eqn:Ef.
      * destruct (tfirst_in _ _ _ Ef) as [_ Hr]. simpl.
        rewrite !elem_of_cons, (IHr r Hbr).
        destruct (key_eq_dec x r) as [->|Hne]; naive_solver.
      * apply tfirst_None in Ef as ->. simpl. set_solver.
  - assert (k ≠ key) as Hkne by (intros ->; by rewrite key_eqb_refl in Ek).
    destruct (key_ltb key k) eqn:El; simpl.
    + rewrite !elem_of_app, !elem_of_cons, (IHl key Hbl).
      assert (∀ y, y ∈ keys tr → y ≠ key).
      { intros y Hy ->. apply (klt_irrefl key). eapply key_ltb_trans; [done|by apply Hgt]. }
      naive_solver.
    + rewrite !elem_of_app, !elem_of_cons, (IHr key Hbr).
      assert (∀ y, y ∈ keys tl → y ≠ key).
      { intros y Hy ->. specialize (Hlt _ Hy). unfold klt in Hlt. congruence. }
      naive_solver.
Qed.

Lemma bst_tremove key t : bst t → bst (tremove key t).
Proof.
  revert key. induction t as [|l tl IHl k v tr IHr]; intros key; simpl; [done|].
  intros (Hlt & Hgt & Hbl & Hbr).
  pose proof Hlt as Hlt'. pose proof Hgt as Hgt'. rewrite Forall_forall in Hlt', Hgt'.
  destruct (key_eqb k key) eqn:Ek.
  - destruct (tlast tl) as [[lm r]|] eqn:El.
    + destruct (tlast_in _ _ _ El) as [_ Hr]. simpl.
      split_and!; [| |by apply IHl|done]; rewrite Forall_forall.
      * intros x [Hx Hne]%keys_tremove; [|done].
        by destruct (tlast_max _ _ _ Hbl El x Hx).
      * intros x Hx. eapply key_ltb_trans; [by apply Hlt'|by apply Hgt'].
    + destruct (tfirst tr) as [[lm r]|] eqn:Ef; [|done].
      destruct (tfirst_in _ _ _ Ef) as [_ Hr]. simpl.
      split_and!; [| |done|by apply IHr]; rewrite Forall_forall.
      * intros x Hx. eapply key_ltb_trans; [by apply Hlt'|by apply Hgt'].
      * intros x [Hx Hne]%keys_tremove; [|done].
        by destruct (tfirst_min _ _ _ Hbr Ef x Hx).
  - destruct (key_ltb key k); simpl.
    + split_and!; [|done|by apply IHl|done]. rewrite Forall_forall.
      intros x [Hx _]%keys_tremove; [by apply Hlt'|done].
    + split_and!; [done| |done|by apply IHr]. rewrite Forall_forall.
      intros x [Hx _]%keys_tremove; [by apply Hgt'|done].
Qed.

(** In-order, the keys of a search tree ascend strictly. *)
Lemma bst_sorted t : bst t → StronglySorted klt (keys t).
Proof.
  induction t as [|l tl IHl k v tr IHr]; simpl; [constructor|].
  intros (Hlt & Hgt & Hbl & Hbr).
  apply StronglySorted_app_2; [|by apply IHl|].
  - rewrite Forall_forall in Hlt, Hgt. intros x1 x2 Hx1 [->|Hx2]%elem_of_cons.
    + by apply Hlt.
    + eapply key_ltb_trans; [by apply Hlt|by apply Hgt].
  - apply StronglySorted_cons. split; [done|by apply IHr].
Qed.

(** *** Iteration *)

Lemma outcome_map_compose {A B C} (g : B → C) (h : A → B) (o : outcome (Store K V) A) :
  outcome_map g (outcome_map h o) = outcome_map (g ∘ h) o.
Proof. by destruct o. Qed.

Lemma outcome_map_ext {A B} (g h : A → B) (o : outcome (Store K V) A) :
  (∀ a, g a = h a) → outcome_map g o = outcome_map h o.
Proof. intros E. destruct o; simpl; by rewrite ?E. Qed.

Lemma iterate_step this r0 s l n it' f :
  roots s !! this = Some r0 → nodes s !! l = Some n →
  iter_incr (mkIter (Some l)) s = Ret it' s →
  iterate (S f) this (mkIter (Some l)) s =
    outcome_map (cons (data n)) (iterate f this it' s).
Proof.
  intros Hroot Hn Hincr. cbn [iterate].
  assert (end_ this s = Ret (mkIter None) s) as Hend.
  { unfold end_, get_root, mbind, M_bind, bind. by rewrite Hroot. }
  rewrite (bind_Ret _ _ _ _ _ Hend).
  unfold iter_neq. cbn [current]. rewrite decide_False by done.
  assert (iter_deref (mkIter (Some l)) s = Ret (data n) s) as Hderef.
  { unfold iter_deref. cbn [current]. by rewrite (bind_Ret _ _ _ _ _ (load_Some _ _ _ Hn)). }
  rewrite (bind_Ret _ _ _ _ _ Hderef), (bind_Ret _ _ _ _ _ Hincr).
  unfold mbind, M_bind, bind. by destruct (iterate f this it' s).
Qed.

Lemma iterate_end this r0 s f :
  roots s !! this = Some r0 →
  iterate (S f) this (mkIter None) s = Ret [] s.
Proof.
  intros Hroot. cbn [iterate].
  assert (end_ this s = Ret (mkIter None) s) as Hend.
  { unfold end_, get_root, mbind, M_bind, bind. by rewrite Hroot. }
  by rewrite (bind_Ret _ _ _ _ _ Hend).
Qed.

Lemma climb_to_next_top s l n f :
  nodes s !! l = Some n → back n = None →
  climb_to_next (S f) (Some l) s = Ret None s.
Proof.
  intros Hn Hback. unfold climb_to_next. cbn [climb].
  unfold mbind at 1, M_bind at 1, bind at 1.
  rewrite (bind_Ret _ _ _ _ _ (load_Some _ _ _ Hn)). rewrite Hback.
  unfold mret at 1, M_ret at 1, ret at 1.
  rewrite (bind_Ret _ _ _ _ _ (load_Some _ _ _ Hn)). by rewrite Hback.
Qed.

(** [operator++] on a node without a right child. *)
Lemma iter_incr_up s l n nxt :
  nodes s !! l = Some n → right n = None →
  climb_to_next (2 + 2 * size (nodes s)) (Some l) s = Ret nxt s →
  iter_incr (mkIter (Some l)) s = Ret (mkIter nxt) s.
Proof.
  intros Hn Hright Hup. unfold iter_incr.
  rewrite (bind_Ret budget _ s _ s eq_refl). cbn [current].
  rewrite (bind_Ret _ _ _ _ _ (load_Some _ _ _ Hn)).
  unfold hasRight. rewrite Hright.
  destruct (back n) as [p|] eqn:Hback.
  - by rewrite (bind_Ret _ _ _ _ _ Hup).
  - change (2 + 2 * size (nodes s)) with (S (S (2 * size (nodes s)))) in Hup.
    rewrite (climb_to_next_top _ _ _ _ Hn Hback) in Hup. by injection Hup as <-.
Qed.

(** [operator++] on a node with a right child. *)
Lemma iter_incr_right s b l tl k v tr lf kf :
  rep (nodes s) b (Tree l tl k v tr) → tfirst tr = Some (lf, kf) →
  height tr < 2 + 2 * size (nodes s) →
  iter_incr (mkIter (Some l)) s = Ret (mkIter (Some lf)) s.
Proof.
  intros (Hl & Hrl & Hrr) Hf Hh. unfold iter_incr.
  rewrite (bind_Ret budget _ s _ s eq_refl). cbn [current].
  rewrite (bind_Ret _ _ _ _ _ (load_Some _ _ _ Hl)).
  destruct tr as [|l1 tl1 k1 v1 tr1]; [done|].
  unfold hasRight. cbn [right root_ptr].
  assert (height tl1 < 2 + 2 * size (nodes s)) as Hh1.
  { cbn [height] in Hh. lia. }
  rewrite (bind_Ret _ _ _ _ _ (minKey_spec _ s _ _ _ _ _ _ Hrr Hh1)).
  simpl in Hf. destruct (tfirst tl1); by simplify_eq.
Qed.

(** From the root of a left subtree the climb stops at once, and the next
    node is the parent. *)
Lemma climb_to_next_left s b l tl k v tr f :
  rep (nodes s) b (Tree l tl k v tr) → NoDup (locs (Tree l tl k v tr)) →
  tl ≠ Leaf → 0 < f →
  climb_to_next f (root_ptr tl) s = Ret (Some l) s.
Proof.
  intros (Hl & Hrl & Hrr) Hnd Htl Hf.
  destruct tl as [|l1 tl1 k1 v1 tr1]; [done|]. destruct Hrl as (Hl1 & _).
  destruct f; [lia|]. unfold climb_to_next. cbn [climb root_ptr].
  assert (Some l1 ≠ root_ptr tr) as Hne.
  { destruct tr as [|l2 tl2 k2 v2 tr2]; [done|]. simpl. intros [= ->].
    simpl in Hnd. apply NoDup_app in Hnd as (_ & Hlr & _).
    apply (Hlr l2); set_solver. }
  assert (climb (S f) (Some l1) s = Ret (Some l1) s) as Hclimb.
  { cbn [climb]. rewrite (bind_Ret _ _ _ _ _ (load_Some _ _ _ Hl1)). cbn [back].
    rewrite (bind_Ret _ _ _ _ _ (load_Some _ _ _ Hl)). cbn [right].
    by rewrite decide_False. }
  cbn [climb] in Hclimb. rewrite (bind_Ret _ _ _ _ _ Hclimb).
  by rewrite (bind_Ret _ _ _ _ _ (load_Some _ _ _ Hl1)).
Qed.

(** From the root of a right subtree the climb goes on from the parent. *)
Lemma climb_to_next_right s b l tl k v tr f :
  rep (nodes s) b (Tree l tl k v tr) → tr ≠ Leaf →
  climb_to_next (S f) (root_ptr tr) s = climb_to_next f (Some l) s.
Proof.
  intros (Hl & Hrl & Hrr) Htr.
  destruct tr as [|l2 tl2 k2 v2 tr2]; [done|]. destruct Hrr as (Hl2 & _).
  unfold climb_to_next. apply bind_congr_l. cbn [climb root_ptr].
  rewrite (bind_Ret _ _ _ _ _ (load_Some _ _ _ Hl2)). cbn [back].
  rewrite (bind_Ret _ _ _ _ _ (load_Some _ _ _ Hl)). cbn [right root_ptr].
  by rewrite decide_True.
Qed.

(** Iterating from the first node of a subtree yields its keys in
    in-order and goes on with whatever follows its root on the way up. *)
Lemma iterate_subtree this r0 s :
  roots s !! this = Some r0 →
  ∀ t b d nxt lf kf,
    rep (nodes s) b t → NoDup (locs t) → tfirst t = Some (lf, kf) →
    d + height t < 2 + 2 * size (nodes s) →
    (∀ f, d < f → climb_to_next f (root_ptr t) s = Ret nxt s) →
    ∀ f, iterate (length (keys t) + f) this (mkIter (Some lf)) s =
         outcome_map (app (keys t)) (iterate f this (mkIter nxt) s).
Proof.
  intros Hroot. induction t as [|l tl IHl k v tr IHr]; [done|].
  intros b d nxt lf kf Hrep Hnd Hfirst Hh Hup f.
  pose proof Hrep as (Hl & Hrl & Hrr).
  pose proof Hnd as Hnd'. simpl in Hnd'.
  apply NoDup_app in Hnd' as (Hndl & _ & Hnd').
  apply NoDup_cons in Hnd' as (_ & Hndr).
  cbn [height] in Hh.
  assert (∀ f, iterate (S (length (keys tr) + f)) this (mkIter (Some l)) s =
               outcome_map (app (k :: keys tr)) (iterate f this (mkIter nxt) s))
    as Hnode.
  { intros f'. destruct (tfirst tr) as [[lf' kf']|] eqn:Ef.
    - assert (height tr < 2 + 2 * size (nodes s)) as Hhr by lia.
      rewrite (iterate_step this r0 s l _ (mkIter (Some lf')) _ Hroot Hl
                 (iter_incr_right s b l tl k v tr lf' kf' Hrep Ef Hhr)).
      cbn [data]. rewrite (IHr (Some l) (S d) nxt lf' kf' Hrr Hndr eq_refl).
      + rewrite outcome_map_compose. by apply outcome_map_ext.
      + lia.
      + intros f'' Hf''. destruct f'' as [|f'']; [lia|].
        rewrite (climb_to_next_right s b l tl k v tr f'' Hrep)
          by (intros ->; done).
        apply Hup. lia.
    - apply tfirst_None in Ef as ->. cbn [keys length Nat.add].
      assert (d < 2 + 2 * size (nodes s)) as Hd by lia.
      rewrite (iterate_step this r0 s l _ (mkIter nxt) _ Hroot Hl
                 (iter_incr_up s l _ nxt Hl eq_refl (Hup _ Hd))).
      by apply outcome_map_ext. }
  cbn [keys]. rewrite length_app. cbn [length].
  simpl in Hfirst. destruct (tfirst tl) as [[lf1 kf1]|] eqn:Ef.
  - injection Hfirst as -> ->.
    replace (length (keys tl) + S (length (keys tr)) + f)
      with (length (keys tl) + S (length (keys tr) + f)) by lia.
    rewrite (IHl (Some l) 0 (Some l) lf kf Hrl Hndl eq_refl).
    + rewrite Hnode, outcome_map_compose. apply outcome_map_ext.
      intros a. simpl. by rewrite <- app_assoc.
    + lia.
    + intros f' Hf'. eapply climb_to_next_left; [done|done| |done].
      intros ->. done.
  - apply tfirst_None in Ef as ->. injection Hfirst as <- <-. apply Hnode.
Qed.

Lemma begin_loop_spec fuel s b l tl k v tr :
  rep (nodes s) b (Tree l tl k v tr) → height tl < fuel →
  begin_loop fuel (Some l) s =
    Ret (Some (default (l, k) (tfirst tl)).1) s.
Proof.
  revert b fuel l k v tr. induction tl as [|l1 tl1 IHl k1 v1 tr1 IHr];
    intros b fuel l k v tr (Hl & Hrl & Hrr) Hf.
  - destruct fuel; [lia|]. simpl.
    by rewrite (bind_Ret _ _ _ _ _ (load_Some _ _ _ Hl)).
  - destruct fuel; [simpl in Hf; lia|]. cbn [begin_loop].
    rewrite (bind_Ret _ _ _ _ _ (load_Some _ _ _ Hl)).
    unfold hasLeft. cbn [left root_ptr].
    rewrite (IHl (Some l) fuel l1 k1 v1 tr1 Hrl) by (simpl in Hf; lia).
    simpl. by destruct (tfirst tl1).
Qed.

Lemma length_keys_locs t : length (keys t) = length (locs t).
Proof.
  induction t as [|l tl IHl k v tr IHr]; simpl; [done|].
  rewrite !length_app. simpl. by rewrite IHl, IHr.
Qed.

(** [begin()] advanced with [++] until [end()], on a non-empty dictionary,
    yields the keys of the tree in in-order. *)
Lemma iteration_spec s this t :
  is_dict s this t → t ≠ Leaf → iteration this s = Ret (keys t) s.
Proof.
  intros [Hroot Hrep Hnd] Hne.
  destruct t as [|l tl k v tr]; [done|].
  pose proof (budget_enough _ _ _ Hrep Hnd) as Hb.
  pose proof (rep_size _ _ _ Hrep Hnd) as Hsz.
  rewrite <- length_keys_locs in Hsz.
  unfold iteration.
  assert (begin this s =
          Ret (mkIter (Some (default (l, k) (tfirst tl)).1)) s) as Hbegin.
  { unfold begin, get_root. unfold mbind at 1, M_bind at 1, bind at 1.
    rewrite Hroot. rewrite (bind_Ret budget _ s _ s eq_refl). cbn [root_ptr].
    assert (height tl < 2 + 2 * size (nodes s)) as Hbl.
    { cbn [height] in Hb. lia. }
    by rewrite (bind_Ret _ _ _ _ _ (begin_loop_spec _ s _ _ _ _ _ _ Hrep Hbl)). }
  rewrite (bind_Ret _ _ _ _ _ Hbegin), (bind_Ret budget _ s _ s eq_refl).
  destruct (tfirst (Tree l tl k v tr)) as [[lf kf]|] eqn:Ef;
    [|by apply tfirst_None in Ef].
  assert ((default (l, k) (tfirst tl)).1 = lf) as ->.
  { simpl in Ef. destruct (tfirst tl); by simplify_eq. }
  replace (2 + 2 * size (nodes s))
    with (length (keys (Tree l tl k v tr))
          + S (1 + 2 * size (nodes s) - length (keys (Tree l tl k v tr)))) by lia.
  rewrite (iterate_subtree this _ s Hroot _ None 0 None lf kf Hrep Hnd Ef).
  - rewrite (iterate_end this _ s _ Hroot). simpl. by rewrite app_nil_r.
  - lia.
  - intros f Hf. destruct f; [lia|].
    destruct Hrep as (Hl & _). by eapply climb_to_next_top.
Qed.

(** *** Sequences of add and remove *)

Lemma root_ptr_tremove key t l0 tl0 k0 v0 tr0 :
  t = Tree l0 tl0 k0 v0 tr0 → key_eqb k0 key = false →
  root_ptr (tremove key t) = Some l0.
Proof. intros -> Hk. simpl. rewrite Hk. by destruct (key_ltb key k0). Qed.

(** One call of [add] or [remove] on a dictionary holding a search tree:
    either it is a [remove] on the empty dictionary or of the key at the
    root, which reads the unassigned local, or it returns and the dictionary
    holds a non-empty search tree. *)
Lemma apply_op_spec s this t o :
  is_dict s this t → bst t →
  apply_op this o s = Undefined IndeterminateRead
  ∨ ∃ s' t', apply_op this o s = Ret () s' ∧ is_dict s' this t' ∧ bst t' ∧ t' ≠ Leaf.
Proof.
  intros Hd Hbst. destruct o as [k v|k]; simpl.
  - right. destruct (add_spec s this t k v Hd) as (s' & Hrun & Hd' & _).
    exists s', (tadd (fresh (dom (nodes s))) k v t). split_and!; [done|done| |].
    + by apply bst_tadd.
    + destruct t as [|l0 tl0 k0 v0 tr0]; simpl; [done|].
      destruct (key_eqb k0 k); [done|]. by destruct (key_ltb k k0).
  - pose proof Hd as [Hroot Hrep Hnd].
    destruct t as [|l0 tl0 k0 v0 tr0].
    { left. apply remove_no_step. by left. }
    destruct (key_eqb k0 k) eqn:Ek.
    { left. apply remove_no_step. right. destruct Hrep as (Hl0 & _).
      by exists l0, (mkNode k0 v0 (root_ptr tl0) (root_ptr tr0) None). }
    right.
    destruct (remove_spec s this _ k l0 tl0 k0 v0 tr0 Hd Hbst eq_refl Ek)
      as (s' & Hrun & Hd' & _).
    exists s', (tremove k (Tree l0 tl0 k0 v0 tr0)). split_and!; [done|done| |].
    + by apply bst_tremove.
    + intros Heq. pose proof (root_ptr_tremove k _ l0 tl0 k0 v0 tr0 eq_refl Ek) as Hr.
      by rewrite Heq in Hr.
Qed.

Lemma run_ops_inv this (ops : list (op K V)) : ∀ s t,
  is_dict s this t → bst t →
  run (apply_op this <$> ops) s = Undefined IndeterminateRead
  ∨ ∃ s' t', run (apply_op this <$> ops) s = Ret () s'
       ∧ is_dict s' this t' ∧ bst t'
       ∧ (t ≠ Leaf ∨ ops ≠ [] → t' ≠ Leaf).
Proof.
  induction ops as [|o ops IH]; intros s t Hd Hbst.
  - right. exists s, t. split_and!; [done..|]. by intros [?|?].
  - cbn [fmap list_fmap run].
    destruct (apply_op_spec s this t o Hd Hbst)
      as [Hub|(s1 & t1 & Hrun & Hd1 & Hbst1 & Hne1)].
    { left. by rewrite Hub. }
    rewrite Hrun.
    destruct (IH s1 t1 Hd1 Hbst1) as [Hub|(s' & t' & Hrun' & Hd' & Hbst' & Hne')];
      [by left|].
    right. exists s', t'. split_and!; [done..|]. intros _. apply Hne'. by left.
Qed.

(** Any sequence of [add] and [remove] calls on a dictionary holding a
    search tree: either one of the [remove]s reads its unassigned local, or
    all calls return, the dictionary holds a search tree, and (when at least
    one call was made) iterating from [begin()] to [end()] yields its keys,
    which ascend strictly. *)
Lemma run_ops_spec this (ops : list (op K V)) s t :
  is_dict s this t → bst t →
  run (apply_op this <$> ops) s = Undefined IndeterminateRead
  ∨ ∃ s' t', run (apply_op this <$> ops) s = Ret () s'
       ∧ is_dict s' this t' ∧ bst t'
       ∧ (ops ≠ [] → iteration this s' = Ret (keys t') s'
                     ∧ StronglySorted klt (keys t')).
Proof.
  intros Hd Hbst.
  destruct (run_ops_inv this ops s t Hd Hbst)
    as [Hub|(s' & t' & Hrun' & Hd' & Hbst' & Hne')]; [by left|].
  right. exists s', t'. split_and!; [done..|]. intros Hops.
  split; [|by apply bst_sorted]. apply iteration_spec; [done|]. apply Hne'. by right.
Qed.

(** *** What remove does where it is defined *)

Lemma subtree_at_Leaf key t : subtree_at key t = Leaf ↔ found key t = false.
Proof.
  unfold found. induction t as [|l tl IHl k v tr IHr]; simpl; [done|].
  destruct (key_eqb k key); [done|]. by destruct (key_ltb key k).
Qed.

(** On a non-empty dictionary whose root holds another key, [remove(key)]
    returns; afterwards [has(key)] is false and [has] answers as before for
    every other key; and when [key] was not among the keys the store is
    unchanged. *)
Lemma remove_then_has s this t key l0 tl0 k0 v0 tr0 :
  is_dict s this t → bst t →
  t = Tree l0 tl0 k0 v0 tr0 → key_eqb k0 key = false →
  ∃ s', remove this key s = Ret () s'
      ∧ has this key s' = Ret false s'
      ∧ (∀ x, x ≠ key → ∃ b, has this x s = Ret b s ∧ has this x s' = Ret b s')
      ∧ (key ∉ keys t → s' = s).
Proof.
  intros Hd Hbst Ht Hk0.
  destruct (remove_spec s this t key l0 tl0 k0 v0 tr0 Hd Hbst Ht Hk0)
    as (s' & Hrun & Hd' & _ & _ & Hsame).
  pose proof (bst_tremove key t Hbst) as Hbst'.
  exists s'. split_and!; [done| | |].
  - rewrite (has_spec _ _ _ _ Hd'). f_equal.
    destruct (found key (tremove key t)) eqn:E; [|done].
    apply (found_iff _ _ Hbst'), keys_tremove in E as [_ ?]; done.
  - intros x Hx. exists (found x t).
    rewrite (has_spec _ _ _ _ Hd), (has_spec _ _ _ _ Hd'). split; [done|]. f_equal.
    destruct (found x t) eqn:E.
    + apply (found_iff _ _ Hbst'), keys_tremove; [done|]. split; [|done].
      by apply (found_iff _ _ Hbst).
    + destruct (found x (tremove key t)) eqn:E'; [|done].
      apply (found_iff _ _ Hbst'), keys_tremove in E' as [Hin _]; [|done].
      apply (found_iff _ _ Hbst) in Hin. congruence.
  - intros Hnin. apply Hsame, subtree_at_Leaf.
    destruct (found key t) eqn:E; [|done]. by apply (found_iff _ _ Hbst) in E.
Qed.

Lemma tremove_binding key t l tl k v tr r :
  subtree_at key t = Tree l tl k v tr →
  replacement_of (Tree l tl k v tr) = Some r →
  (r, v) ∈ bindings (tremove key t).
Proof.
  intros Hsub Hr. revert Hsub.
  induction t as [|l0 tl0 IHl k0 v0 tr0 IHr]; [done|].
  cbn [subtree_at tremove]. destruct (key_eqb k0 key) eqn:Ek.
  - intros [= -> -> -> -> ->]. simpl in Hr.
    destruct (tlast tl) as [[lm rm]|]; [injection Hr as ->; simpl; set_solver|].
    destruct (tfirst tr) as [[lm rm]|]; [injection Hr as ->; simpl; set_solver|done].
  - destruct (key_ltb key k0); intros Hsub; simpl.
    + specialize (IHl Hsub). set_solver.
    + specialize (IHr Hsub). set_solver.
Qed.

(** *** The mutable get on an absent key *)

Lemma rep_attach_left h b l k w tr new key v :
  h !! l = Some (mkNode k w None (root_ptr tr) b) → rep h (Some l) tr →
  l ∉ locs tr → new ∉ locs tr → new ≠ l →
  rep (<[l := mkNode k w (Some new) (root_ptr tr) b]>
         (<[new := mkNode key v None None (Some l)]> h)) b
      (Tree l (Tree new Leaf key v Leaf) k w tr).
Proof.
  intros Hl Hrr Hltr Hntr Hnl. simpl. split_and!; try done.
  - by rewrite lookup_insert_eq.
  - rewrite lookup_insert_ne by done. by rewrite lookup_insert_eq.
  - eapply rep_frame; [|exact Hrr]. intros l' Hl'.
    rewrite !lookup_insert_ne; [done|by intros ->|by intros ->].
Qed.

Lemma rep_attach_right h b l tl k w new key v :
  h !! l = Some (mkNode k w (root_ptr tl) None b) → rep h (Some l) tl →
  l ∉ locs tl → new ∉ locs tl → new ≠ l →
  rep (<[l := mkNode k w (root_ptr tl) (Some new) b]>
         (<[new := mkNode key v None None (Some l)]> h)) b
      (Tree l tl k w (Tree new Leaf key v Leaf)).
Proof.
  intros Hl Hrl Hltl Hntl Hnl. simpl. split_and!; try done.
  - by rewrite lookup_insert_eq.
  - eapply rep_frame; [|exact Hrl]. intros l' Hl'.
    rewrite !lookup_insert_ne; [done|by intros ->|by intros ->].
  - rewrite lookup_insert_ne by done. by rewrite lookup_insert_eq.
Qed.

Lemma get_insert_spec fuel key s b t :
  t ≠ Leaf → rep (nodes s) b t → NoDup (locs t) → height t < fuel →
  found key t = false →
  match tget (fresh (dom (nodes s))) key t with
  | Some l =>
      ∃ s', get_insert fuel key (root_ptr t) s = Ret (inl (ValueOf l)) s'
         ∧ roots s' = roots s
         ∧ rep (nodes s') b (tadd (fresh (dom (nodes s))) key default_init t)
         ∧ (∀ l', l' ∉ locs t → l' ≠ fresh (dom (nodes s)) →
               nodes s' !! l' = nodes s !! l')
  | None => get_insert fuel key (root_ptr t) s = Undefined NullDeref
  end.
Proof.
  set (new := fresh (dom (nodes s))).
  revert b fuel. induction t as [|l tl IHl k w tr IHr];
    intros b fuel Hne Hrep Hnd Hf Hfound; [done|].
  destruct fuel as [|fuel]; [lia|]. cbn [height] in Hf.
  pose proof (fresh_not_in _ _ _ Hrep) as Hnew. fold new in Hnew. simpl in Hnew.
  destruct Hrep as (Hl & Hrl & Hrr).
  simpl in Hnd. apply NoDup_app in Hnd as (Hndl & Hlr & Hnd).
  apply NoDup_cons in Hnd as (Hltr & Hndr).
  assert (l ∉ locs tl) as Hltl by (intros Hin; apply (Hlr l Hin); set_solver).
  assert (new ≠ l) as Hnl by (intros ->; apply Hnew; set_solver).
  unfold found in Hfound. cbn [descend] in Hfound.
  destruct (key_eqb k key) eqn:Ek; [done|].
  cbn [get_insert root_ptr tget tadd]. rewrite Ek.
  rewrite (bind_Ret _ _ _ _ _ (load_Some _ _ _ Hl)). cbn [data left right].
  destruct (key_ltb key k) eqn:El.
  - destruct tl as [|l1 tl1 k1 w1 tr1].
    + (* the new node becomes the left child; p->right->value is returned *)
      unfold hasLeft. cbn [left root_ptr].
      set (h2 := <[l := mkNode k w (Some new) (root_ptr tr) b]>
                   (<[new := mkNode key default_init None None (Some l)]> (nodes s))).
      assert (rep h2 b (Tree l (Tree new Leaf key default_init Leaf) k w tr)) as Hrep2.
      { apply rep_attach_left; [done|done|done|set_solver|done]. }
      destruct tr as [|l2 tl2 k2 w2 tr2]; cbn [root_ptr] in *.
      * unfold set_left, new_node, load, store, value_ref,
          mbind, M_bind, bind, mret, M_ret, ret.
        simpl. fold new. rewrite (lookup_insert_ne (nodes s) new l _ Hnl). rewrite Hl. simpl.
        by rewrite lookup_insert_eq.
      * pose proof Hrep2 as (_ & _ & Hl2 & _).
        exists (mkStore h2 (roots s)). split_and!; [|done|done|].
        -- unfold set_left, new_node, load, store, value_ref,
             mbind, M_bind, bind, mret, M_ret, ret.
           simpl. fold new. rewrite lookup_insert_ne by done. rewrite Hl. simpl.
           rewrite lookup_insert_eq. simpl. fold h2. by rewrite Hl2.
        -- intros l' Hl' Hl'n. cbn [nodes]. unfold h2.
           rewrite !lookup_insert_ne; [done|done|].
           intros ->. apply Hl'. simpl. set_solver.
    + unfold hasLeft. cbn [left root_ptr].
      assert (found key (Tree l1 tl1 k1 w1 tr1) = false) as Hfl by done.
      specialize (IHl (Some l) fuel ltac:(done) Hrl Hndl ltac:(lia) Hfl).
      fold new in IHl. cbn [root_ptr] in IHl.
      destruct (tget new key (Tree l1 tl1 k1 w1 tr1)) as [lr|]; [|done].
      destruct IHl as (s' & Hrun & Hroots & Hrep' & Hframe).
      exists s'. split_and!; [done|done| |].
      * cbn [rep]. rewrite root_ptr_tadd by done. split_and!; [|done|].
        -- rewrite Hframe; [done|done|done].
        -- eapply rep_frame; [|exact Hrr]. intros l' Hl'. apply Hframe.
           ++ intros Hin. apply (Hlr l' Hin). set_solver.
           ++ intros ->. apply Hnew. set_solver.
      * intros l' Hl' Hl'n. apply Hframe; [|done]. intros Hin. apply Hl'. simpl. set_solver.
  - destruct tr as [|l1 tl1 k1 w1 tr1].
    + (* the new node becomes the right child, and its value is returned *)
      unfold hasRight. cbn [right root_ptr].
      set (h2 := <[l := mkNode k w (root_ptr tl) (Some new) b]>
                   (<[new := mkNode key default_init None None (Some l)]> (nodes s))).
      assert (rep h2 b (Tree l tl k w (Tree new Leaf key default_init Leaf))) as Hrep2.
      { apply rep_attach_right; [done|done|done|set_solver|done]. }
      exists (mkStore h2 (roots s)). split_and!; [|done|done|].
      * unfold set_right, new_node, load, store, value_ref,
          mbind, M_bind, bind, mret, M_ret, ret.
        simpl. fold new. rewrite lookup_insert_ne by done. rewrite Hl. simpl.
        rewrite lookup_insert_eq. simpl. rewrite lookup_insert_ne by done.
        by rewrite lookup_insert_eq.
      * intros l' Hl' Hl'n. cbn [nodes]. unfold h2.
        rewrite !lookup_insert_ne; [done|done|].
        intros ->. apply Hl'. simpl. set_solver.
    + unfold hasRight. cbn [right root_ptr].
      assert (found key (Tree l1 tl1 k1 w1 tr1) = false) as Hfr by done.
      specialize (IHr (Some l) fuel ltac:(done) Hrr Hndr ltac:(lia) Hfr).
      fold new in IHr. cbn [root_ptr] in IHr.
      destruct (tget new key (Tree l1 tl1 k1 w1 tr1)) as [lr|]; [|done].
      destruct IHr as (s' & Hrun & Hroots & Hrep' & Hframe).
      exists s'. split_and!; [done|done| |].
      * cbn [rep]. rewrite root_ptr_tadd by done. split_and!; [| |done].
        -- rewrite Hframe; [done|done|done].
        -- eapply rep_frame; [|exact Hrl]. intros l' Hl'. apply Hframe.
           ++ intros Hin. apply (Hlr l' Hl'). set_solver.
           ++ intros ->. apply Hnew. set_solver.
      * intros l' Hl' Hl'n. apply Hframe; [|done]. intros Hin. apply Hl'. simpl. set_solver.
Qed.

(** The mutable [get(key)] for a key that [has] does not find.  On the
    empty dictionary it dereferences the null root.  Otherwise it links a
    new node with a default-initialised value where [add] would, and returns
    a reference to the value of the node [tget] names: the new node when it
    became a right child, the right sibling when it became a left child, and
    a null dereference when that sibling is absent. *)
Lemma get_absent_spec s this t key :
  is_dict s this t → found key t = false →
  (t = Leaf → get this key s = Undefined NullDeref)
  ∧ (t ≠ Leaf → tget (fresh (dom (nodes s))) key t = None →
       get this key s = Undefined NullDeref)
  ∧ (∀ l, t ≠ Leaf → tget (fresh (dom (nodes s))) key t = Some l →
       ∃ s', get this key s = Ret (ValueOf l) s'
          ∧ is_dict s' this (tadd (fresh (dom (nodes s))) key default_init t)
          ∧ has this key s' = Ret true s').
Proof.
  intros Hd Hfound. pose proof Hd as [Hroot Hrep Hnd].
  assert (get this key s =
          (get_insert (2 + 2 * size (nodes s)) key (root_ptr t) ≫= λ r,
             match r with inl v => mret v | inr p' => value_ref p' end) s) as Hget.
  { unfold get, get_root. unfold mbind at 1, M_bind at 1, bind at 1. rewrite Hroot.
    rewrite (bind_Ret _ _ _ _ _ (has_spec _ _ _ key Hd)), Hfound.
    by rewrite (bind_Ret budget _ s _ s eq_refl). }
  rewrite Hget. clear Hget. split_and!.
  - by intros ->.
  - intros Hne Htget.
    pose proof (get_insert_spec (2 + 2 * size (nodes s)) key s None t Hne Hrep Hnd
                  (budget_enough _ _ _ Hrep Hnd) Hfound) as Hspec.
    rewrite Htget in Hspec. unfold mbind, M_bind, bind. by rewrite Hspec.
  - intros l Hne Htget.
    pose proof (get_insert_spec (2 + 2 * size (nodes s)) key s None t Hne Hrep Hnd
                  (budget_enough _ _ _ Hrep Hnd) Hfound) as Hspec.
    rewrite Htget in Hspec. destruct Hspec as (s' & Hrun & Hroots & Hrep' & Hframe).
    assert (is_dict s' this (tadd (fresh (dom (nodes s))) key default_init t)) as Hd'.
    { split; [|done|].
      - by rewrite Hroots, root_ptr_tadd.
      - apply NoDup_locs_tadd; [|done]. by eapply fresh_not_in. }
    exists s'. split_and!; [|done|].
    + by rewrite (bind_Ret _ _ _ _ _ Hrun).
    + by rewrite (has_spec _ _ _ _ Hd'), found_tadd.
Qed.

(** The mutable [get(key)] for a key that [has] finds. *)
Lemma get_present_spec s this t key l v :
  is_dict s this t → descend key t = Some (l, v) →
  get this key s = Ret (ValueOf l) s ∧ read_ref (ValueOf l) s = Ret v s.
Proof.
  intros Hd Hdesc. pose proof Hd as [Hroot Hrep Hnd]. split.
  - unfold get, get_root. unfold mbind at 1, M_bind at 1, bind at 1. rewrite Hroot.
    rewrite (bind_Ret _ _ _ _ _ (has_spec _ _ _ key Hd)). unfold found. rewrite Hdesc.
    rewrite (bind_Ret budget _ s _ s eq_refl).
    rewrite (bind_Ret _ _ _ _ _ (get_find_spec _ key s None t Hrep
               (budget_enough _ _ _ Hrep Hnd))).
    by rewrite Hdesc.
  - destruct (descend_cell _ _ _ _ _ _ Hrep Hdesc) as (n & Hn & _ & Hv).
    unfold read_ref. rewrite (bind_Ret _ _ _ _ _ (load_Some _ _ _ Hn)).
    by rewrite <- Hv.
Qed.

(** *** copy *)

Lemma copy_of_Leaf t t' : copy_of t t' → t ≠ Leaf → t' ≠ Leaf.
Proof. destruct t, t'; simpl; done. Qed.

Lemma copy_of_keys t t' : copy_of t t' → keys t' = keys t.
Proof.
  revert t'. induction t as [|l tl IHl k v tr IHr]; intros [|l' tl' k' v' tr']; simpl;
    try done.
  intros (-> & _ & Hl & Hr). by rewrite (IHl _ Hl), (IHr _ Hr).
Qed.

Lemma copy_of_bindings t t' :
  copy_of t t' → bindings t' = (λ k, (k, default_init)) <$> keys t.
Proof.
  revert t'. induction t as [|l tl IHl k v tr IHr]; intros [|l' tl' k' v' tr']; simpl;
    try done.
  intros (-> & -> & Hl & Hr). rewrite fmap_app. simpl.
  by rewrite (IHl _ Hl), (IHr _ Hr).
Qed.

Lemma copy_of_bst t t' : copy_of t t' → bst t → bst t'.
Proof.
  revert t'. induction t as [|l tl IHl k v tr IHr]; intros [|l' tl' k' v' tr']; simpl;
    try done.
  intros (-> & _ & Hl & Hr) (Hlt & Hgt & Hbl & Hbr).
  rewrite (copy_of_keys _ _ Hl), (copy_of_keys _ _ Hr). split_and!; eauto.
Qed.

Lemma slot_upd_is_Some sl q h l :
  is_Some (slot_upd sl q h !! l) ↔ is_Some (h !! l).
Proof.
  destruct sl as [this|l0|l0]; simpl; [done| |];
    (destruct (decide (l0 = l)) as [->|Hne];
      [rewrite lookup_alter_eq; by rewrite fmap_is_Some
      |by rewrite lookup_alter_ne]).
Qed.

(** Giving the root of a parentless tree a parent. *)
Lemma rep_set_back h c tl k v tr b :
  rep h None (Tree c tl k v tr) → NoDup (locs (Tree c tl k v tr)) →
  rep (<[c := mkNode k v (root_ptr tl) (root_ptr tr) b]> h) b (Tree c tl k v tr).
Proof.
  intros (Hc & Hrl & Hrr) Hnd. simpl in Hnd.
  apply NoDup_app in Hnd as (_ & Hlr & Hnd). apply NoDup_cons in Hnd as (Hctr & _).
  simpl. split_and!.
  - by rewrite lookup_insert_eq.
  - eapply rep_frame; [|exact Hrl]. intros l' Hl'. apply lookup_insert_ne.
    intros ->. apply (Hlr l' Hl'). set_solver.
  - eapply rep_frame; [|exact Hrr]. intros l' Hl'. apply lookup_insert_ne.
    by intros ->.
Qed.

(** Copying one child of a node and linking the copy to the slot [sl] of
    the new node [nP]. *)
Lemma copy_child fuel tc sl nP s b :
  (∀ s b, rep (nodes s) b tc → tc ≠ Leaf →
     ∃ s' t', copy fuel (root_ptr tc) s = Ret (root_ptr t') s' ∧ copied tc t' s s') →
  slot_cell sl = Some nP →
  rep (nodes s) b tc →
  read_slot sl s = Ret None s →
  ∃ s' tc',
    (match root_ptr tc with
     | Some _ => copy fuel (root_ptr tc) ≫= λ c,
                   write_slot sl c ≫= λ _, set_back c (Some nP)
     | None => mret ()
     end) s = Ret () s'
    ∧ roots s' = roots s
    ∧ copy_of tc tc'
    ∧ rep (nodes s') (Some nP) tc'
    ∧ NoDup (locs tc')
    ∧ (∀ l, l ∈ locs tc' → l ∉ dom (nodes s))
    ∧ (∀ l, l ∈ dom (nodes s) →
         nodes s' !! l = slot_upd sl (root_ptr tc') (nodes s) !! l).
Proof.
  intros Hcopy Hcell Hrep Hsl.
  assert (nP ∈ dom (nodes s)) as HnP.
  { apply elem_of_dom. destruct sl as [?|l|l]; simpl in Hcell; [done| |];
      injection Hcell as ->; simpl in Hsl;
      unfold load, mbind, M_bind, bind in Hsl;
      by destruct (nodes s !! nP). }
  destruct (tree_leaf_dec tc) as [->|Hne].
  { exists s, Leaf. simpl. split_and!; try done.
    - apply NoDup_nil_2.
    - intros l Hl. by apply elem_of_nil in Hl.
    - intros l _. by destruct (slot_upd_id _ _ _ Hsl) as [-> _]. }
  destruct (Hcopy s b Hrep Hne)
    as (s1 & t' & Hrun & Hroots1 & Hrep1 & Hshape & Hnd1 & Hfresh1 & Hold1).
  destruct (root_ptr_Some tc Hne) as [lc Hlc]. rewrite Hlc in Hrun |- *.
  destruct t' as [|c tl' k' v' tr']; [by destruct tc|].
  rewrite (bind_Ret _ _ _ _ _ Hrun). cbn [root_ptr].
  assert (c ≠ nP) as Hc.
  { intros ->. apply (Hfresh1 nP); [simpl; set_solver|done]. }
  assert (read_slot sl s1 = Ret None s1) as Hsl1.
  { eapply read_slot_frame; [exact Hsl|done|]. intros l Hl.
    rewrite Hcell in Hl. injection Hl as <-. by apply Hold1. }
  rewrite (bind_Ret _ _ _ _ _ (write_slot_spec _ _ (Some c) _ Hsl1)).
  pose proof Hrep1 as (Hc1 & _).
  eexists. exists (Tree c tl' k' v' tr'). split.
  { unfold set_back. cbn [nodes].
    assert (slot_upd sl (Some c) (nodes s1) !! c = nodes s1 !! c) as Hcc.
    { apply slot_upd_other. rewrite Hcell. congruence. }
    unfold load at 1. unfold mbind at 1, M_bind at 1, bind at 1. cbn [nodes].
    rewrite Hcc, Hc1. reflexivity. }
  simpl. split_and!; try done.
  - destruct sl; simpl; done.
  - by rewrite lookup_insert_eq.
  - destruct Hrep1 as (_ & Hrl & _). eapply rep_frame; [|exact Hrl].
    intros l' Hl'. simpl in Hnd1. apply NoDup_app in Hnd1 as (_ & Hlr & _).
    rewrite lookup_insert_ne by (intros ->; apply (Hlr l' Hl'); set_solver).
    apply slot_upd_other. rewrite Hcell. intros [= ->].
    apply (Hfresh1 l'); [simpl; set_solver|done].
  - destruct Hrep1 as (_ & _ & Hrr). eapply rep_frame; [|exact Hrr].
    intros l' Hl'. simpl in Hnd1. apply NoDup_app in Hnd1 as (_ & _ & Hnd1).
    apply NoDup_cons in Hnd1 as (Hctr & _).
    rewrite lookup_insert_ne by (by intros ->).
    apply slot_upd_other. rewrite Hcell. intros [= ->].
    apply (Hfresh1 l'); [simpl; set_solver|done].
  - intros l Hl. rewrite lookup_insert_ne.
    + apply slot_upd_lookup. by apply Hold1.
    + intros ->. apply (Hfresh1 l); [simpl; set_solver|done].
Qed.

Lemma copy_spec t : ∀ fuel s b,
  rep (nodes s) b t → t ≠ Leaf → height t < fuel →
  ∃ s' t', copy fuel (root_ptr t) s = Ret (root_ptr t') s' ∧ copied t t' s s'.
Proof.
  induction t as [|l tl IHl k v tr IHr]; intros fuel s b Hrep Hne Hf; [done|].
  destruct fuel as [|fuel]; [lia|]. cbn [height] in Hf.
  pose proof Hrep as (Hl & Hrl & Hrr).
  set (nP := fresh (dom (nodes s))).
  assert (nP ∉ dom (nodes s)) as HnP by apply is_fresh.
  set (n0 := mkNode k (default_init : V) None None None).
  set (s0 := mkStore (<[nP := n0]> (nodes s)) (roots s)).
  assert (∀ l', l' ∈ dom (nodes s) → nodes s0 !! l' = nodes s !! l') as Hold0.
  { intros l' Hl'. simpl. apply lookup_insert_ne. by intros ->. }
  assert (∀ b' t', rep (nodes s) b' t' → rep (nodes s0) b' t') as Hframe0.
  { intros b' t' Hr. eapply rep_frame; [|exact Hr]. intros l' Hl'.
    apply Hold0. by eapply rep_dom. }
  (* the left child *)
  destruct (copy_child fuel tl (LeftOf nP) nP s0 (Some l))
    as (s1 & tl' & Hrun1 & Hroots1 & Hshape1 & Hrep1 & Hnd1 & Hfresh1 & Hold1).
  { intros s' b' Hr Hn. apply (IHl fuel s' b' Hr Hn). lia. }
  { done. }
  { by apply Hframe0. }
  { simpl. unfold load, mbind, M_bind, bind. simpl. by rewrite lookup_insert_eq. }
  assert (nodes s1 !! nP = Some (mkNode k default_init (root_ptr tl') None None)) as HnP1.
  { rewrite Hold1 by (simpl; set_solver). simpl.
    by rewrite lookup_alter_eq, lookup_insert_eq. }
  assert (∀ l', l' ∈ dom (nodes s0) → l' ≠ nP → nodes s1 !! l' = nodes s0 !! l') as Hold1'.
  { intros l' Hl' Hne'. rewrite Hold1 by done. simpl. by apply lookup_alter_ne. }
  assert (dom (nodes s0) ⊆ dom (nodes s1)) as Hdom1.
  { intros l' Hl'. apply elem_of_dom. rewrite Hold1 by done.
    apply slot_upd_is_Some. by apply elem_of_dom. }
  (* the right child *)
  destruct (copy_child fuel tr (RightOf nP) nP s1 (Some l))
    as (s2 & tr' & Hrun2 & Hroots2 & Hshape2 & Hrep2 & Hnd2 & Hfresh2 & Hold2).
  { intros s' b' Hr Hn. apply (IHr fuel s' b' Hr Hn). lia. }
  { done. }
  { eapply rep_frame; [|exact Hrr]. intros l' Hl'.
    pose proof (rep_dom _ _ _ _ Hrr Hl') as Hin.
    rewrite Hold1', Hold0; [done|done|simpl; set_solver|by intros ->]. }
  { simpl. by rewrite (bind_Ret _ _ _ _ _ (load_Some _ _ _ HnP1)). }
  assert (nodes s2 !! nP
          = Some (mkNode k default_init (root_ptr tl') (root_ptr tr') None)) as HnP2.
  { rewrite Hold2 by (apply Hdom1; simpl; set_solver). simpl.
    by rewrite lookup_alter_eq, HnP1. }
  assert (∀ l', l' ∈ dom (nodes s1) → l' ≠ nP → nodes s2 !! l' = nodes s1 !! l') as Hold2'.
  { intros l' Hl' Hne'. rewrite Hold2 by done. simpl. by apply lookup_alter_ne. }
  exists s2, (Tree nP tl' k default_init tr'). split.
  { cbn [copy root_ptr]. rewrite (bind_Ret _ _ _ _ _ (load_Some _ _ _ Hl)).
    cbn [data left right].
    rewrite (bind_Ret (new_node n0) _ s nP s0 eq_refl).
    rewrite (bind_Ret _ _ _ _ _ Hrun1), (bind_Ret _ _ _ _ _ Hrun2). done. }
  assert (∀ l', l' ∈ locs tl' → l' ≠ nP) as Hl'nP.
  { intros l' Hl' ->. apply (Hfresh1 nP Hl'). simpl. set_solver. }
  split_and!.
  - by rewrite Hroots2, Hroots1.
  - simpl. split_and!; [done| |done].
    eapply rep_frame; [|exact Hrep1]. intros l' Hl'.
    apply Hold2'; [by eapply rep_dom|by apply Hl'nP].
  - simpl. by split_and!.
  - simpl. apply NoDup_app. split_and!; [done| |apply NoDup_cons; split; [|done]].
    + intros l' Hl' [->|Hin]%elem_of_cons; [by apply (Hl'nP _ Hl')|].
      apply (Hfresh2 l' Hin). by eapply rep_dom.
    + intros Hin. apply (Hfresh2 nP Hin), Hdom1. simpl. set_solver.
  - intros l' Hl' Hin. simpl in Hl'.
    apply elem_of_app in Hl' as [Hl'|Hl'].
    { apply (Hfresh1 l' Hl'). simpl. set_solver. }
    apply elem_of_cons in Hl' as [->|Hl']; [done|].
    apply (Hfresh2 l' Hl'), Hdom1. simpl. set_solver.
  - intros l' Hl'. assert (l' ≠ nP) by (by intros ->).
    rewrite Hold2', Hold1', Hold0; [done|done|simpl; set_solver|done| |done].
    apply Hdom1. simpl. set_solver.
Qed.

(** Copy assignment between two distinct non-empty dictionaries that share
    no node: the target then holds a copy of the source's tree (same shape
    and keys, default-initialised values) in new cells, and the source is as
    it was. *)
Lemma copy_assign_spec s this other t1 t2 :
  this ≠ other → is_dict s this t1 → is_dict s other t2 →
  t1 ≠ Leaf → t2 ≠ Leaf → (∀ l, l ∈ locs t1 → l ∉ locs t2) →
  ∃ s' t', copy_assign this other s = Ret () s'
     ∧ is_dict s' this t' ∧ copy_of t2 t'
     ∧ is_dict s' other t2
     ∧ (∀ l, l ∈ locs t' → l ∉ locs t2)
     ∧ (∀ o, o ≠ this → roots s' !! o = roots s !! o).
Proof.
  intros Hne [Hroot1 Hrep1 Hnd1] [Hroot2 Hrep2 Hnd2] Ht1 Ht2 Hdisj.
  unfold copy_assign. rewrite decide_True by done.
  rewrite (bind_Ret budget _ s _ s eq_refl).
  destruct (freeNodes_spec (2 + 2 * size (nodes s)) (RootOf this) s None t1)
    as (s1 & Hrun1 & Hroots1 & Hfr1); [done|done|done|by eapply budget_enough| |done|].
  { simpl. unfold get_root. by rewrite Hroot1. }
  rewrite (bind_Ret _ _ _ _ _ Hrun1). simpl in Hroots1, Hfr1.
  assert (get_root other s1 = Ret (root_ptr t2) s1) as Hget.
  { unfold get_root. rewrite Hroots1, lookup_insert_ne by done. by rewrite Hroot2. }
  rewrite (bind_Ret _ _ _ _ _ Hget).
  assert (rep (nodes s1) None t2) as Hrep2'.
  { eapply rep_frame; [|exact Hrep2]. intros l Hl. apply Hfr1.
    intros Hin. by apply (Hdisj l). }
  destruct (copy_spec t2 (2 + 2 * size (nodes s)) s1 None Hrep2' Ht2
              (budget_enough _ _ _ Hrep2 Hnd2))
    as (s2 & t' & Hrun2 & Hroots2 & Hrep' & Hshape & Hnd' & Hfresh & Hold).
  rewrite (bind_Ret _ _ _ _ _ Hrun2).
  assert (roots s2 !! this = Some None) as Hthis2.
  { by rewrite Hroots2, Hroots1, lookup_insert_eq. }
  eexists. exists t'. split.
  { unfold set_root. rewrite Hthis2. reflexivity. }
  split_and!.
  - split; simpl; [by rewrite lookup_insert_eq|done|done].
  - done.
  - split; simpl; [|..|done].
    + rewrite lookup_insert_ne by done.
      rewrite Hroots2, Hroots1, lookup_insert_ne by done. done.
    + eapply rep_frame; [|exact Hrep2']. intros l Hl. apply Hold.
      by eapply rep_dom.
  - intros l Hl Hin. apply (Hfresh l Hl). by eapply rep_dom.
  - intros o Ho. simpl. rewrite lookup_insert_ne by done.
    rewrite Hroots2, Hroots1. by rewrite lookup_insert_ne.
Qed.

(** A call of [add] or [remove] on one dictionary that returns leaves any
    other dictionary with which it shares no node as it was. *)
Lemma apply_op_frame s this other t1 t2 o s' :
  this ≠ other → is_dict s this t1 → bst t1 → is_dict s other t2 →
  (∀ l, l ∈ locs t1 → l ∉ locs t2) →
  apply_op this o s = Ret () s' →
  is_dict s' other t2
  ∧ ∃ t1', is_dict s' this t1' ∧ bst t1' ∧ (∀ l, l ∈ locs t1' → l ∉ locs t2).
Proof.
  intros Hne Hd1 Hbst1 [Hroot2 Hrep2 Hnd2] Hdisj Hrun.
  destruct o as [k v|k]; simpl in Hrun.
  - destruct (add_spec s this t1 k v Hd1) as (s1 & Hrun1 & Hd1' & _ & Hroots & Hfr).
    rewrite Hrun1 in Hrun. injection Hrun as <-.
    assert (fresh (dom (nodes s)) ∉ locs t2) as Hnew2 by (by eapply fresh_not_in).
    split.
    + split; [by rewrite Hroots by done| |done].
      eapply rep_frame; [|exact Hrep2]. intros l Hl. apply Hfr.
      * intros Hin. by apply (Hdisj l).
      * by intros ->.
    + eexists. split_and!; [done|by apply bst_tadd|].
      intros l Hl. rewrite locs_tadd in Hl.
      destruct (found k t1); [by apply Hdisj|].
      apply elem_of_cons in Hl as [->|Hl]; [done|by apply Hdisj].
  - pose proof Hd1 as [Hroot1 Hrep1 Hnd1].
    destruct t1 as [|l0 tl0 k0 v0 tr0].
    { rewrite remove_no_step in Hrun; [done|by left]. }
    destruct (key_eqb k0 k) eqn:Ek.
    { rewrite remove_no_step in Hrun; [done|]. right. destruct Hrep1 as (Hl0 & _).
      by exists l0, (mkNode k0 v0 (root_ptr tl0) (root_ptr tr0) None). }
    destruct (remove_spec s this _ k l0 tl0 k0 v0 tr0 Hd1 Hbst1 eq_refl Ek)
      as (s1 & Hrun1 & Hd1' & Hroots & Hfr & _).
    rewrite Hrun1 in Hrun. injection Hrun as <-.
    split.
    + split; [by rewrite Hroots by done| |done].
      eapply rep_frame; [|exact Hrep2]. intros l Hl. apply Hfr.
      intros Hin. by apply (Hdisj l).
    + eexists. split_and!; [done|by apply bst_tremove|].
      intros l Hl%locs_tremove. by apply Hdisj.
Qed.

Lemma run_ops_frame this other t2 (ops : list (op K V)) : ∀ s t1 s',
  this ≠ other → is_dict s this t1 → bst t1 → is_dict s other t2 →
  (∀ l, l ∈ locs t1 → l ∉ locs t2) →
  run (apply_op this <$> ops) s = Ret () s' →
  is_dict s' other t2.
Proof.
  induction ops as [|o ops IH]; intros s t1 s' Hne Hd1 Hbst1 Hd2 Hdisj Hrun.
  - simpl in Hrun. by injection Hrun as <-.
  - cbn [fmap list_fmap run] in Hrun.
    destruct (apply_op this o s) as [[] s1| | |] eqn:Hop; try done.
    destruct (apply_op_frame s this other t1 t2 o s1 Hne Hd1 Hbst1 Hd2 Hdisj Hop)
      as (Hd2' & t1' & Hd1' & Hbst1' & Hdisj').
    by eapply IH.
Qed.

(** After [copy = source] the copy has the keys of the source, and whatever
    sequence of [add] and [remove] calls is then made on the copy, as long
    as they return, [has] and the iteration answer on the source as they did
    before the assignment. *)
Lemma copy_assign_independent s this other t1 t2 :
  this ≠ other → is_dict s this t1 → is_dict s other t2 →
  t1 ≠ Leaf → t2 ≠ Leaf → bst t2 → (∀ l, l ∈ locs t1 → l ∉ locs t2) →
  ∃ s1, copy_assign this other s = Ret () s1
     ∧ iteration this s1 = Ret (keys t2) s1
     ∧ (∀ x, has this x s1 = Ret (found x t2) s1)
     ∧ ∀ ops s2, run (apply_op this <$> ops) s1 = Ret () s2 →
         iteration other s2 = Ret (keys t2) s2
         ∧ ∀ x, has other x s2 = Ret (found x t2) s2.
Proof.
  intros Hne Hd1 Hd2 Ht1 Ht2 Hbst2 Hdisj.
  destruct (copy_assign_spec s this other t1 t2 Hne Hd1 Hd2 Ht1 Ht2 Hdisj)
    as (s1 & t' & Hrun & Hd' & Hshape & Hd2' & Hdisj' & _).
  pose proof (copy_of_bst _ _ Hshape Hbst2) as Hbst'.
  exists s1. split_and!; [done| | |].
  - rewrite <- (copy_of_keys _ _ Hshape). apply iteration_spec; [done|].
    by eapply copy_of_Leaf.
  - intros x. rewrite (has_spec _ _ _ _ Hd'). f_equal.
    destruct (found x t2) eqn:E.
    + apply (found_iff _ _ Hbst'). rewrite (copy_of_keys _ _ Hshape).
      by apply (found_iff _ _ Hbst2).
    + destruct (found x t') eqn:E'; [|done].
      apply (found_iff _ _ Hbst') in E'. rewrite (copy_of_keys _ _ Hshape) in E'.
      apply (found_iff _ _ Hbst2) in E'. congruence.
  - intros ops s2 Hops.
    pose proof (run_ops_frame this other t2 ops s1 t' s2 Hne Hd' Hbst' Hd2' Hdisj' Hops)
      as Hd2''.
    split; [by apply iteration_spec|]. intros x. by apply has_spec.
Qed.


(** On a dictionary that starts out empty, any non-empty sequence of [add]
    and [remove] calls either runs into a [remove] that reads its
    unassigned local, or returns, and the iteration then yields a strictly
    ascending sequence of keys. *)
Lemma ops_on_new_dictionary this (ops : list (op K V)) s :
  roots s !! this = Some None → ops ≠ [] →
  run (apply_op this <$> ops) s = Undefined IndeterminateRead
  ∨ ∃ s' ks, run (apply_op this <$> ops) s = Ret () s'
       ∧ iteration this s' = Ret ks s' ∧ StronglySorted klt ks.
Proof.
  intros Hroot Hops.
  destruct (run_ops_spec this ops s Leaf) as [Hub|(s' & t' & Hrun & _ & _ & Hit)];
    [by split; [|done|apply NoDup_nil_2]|done|by left|].
  right. exists s', (keys t'). split; [done|]. by apply Hit.
Qed.

End Proofs.

(** ** The claims *)

#[export] Instance Z_KeyLaws : KeyLaws Z.
Proof.
  split; simpl.
  - intros a b. apply Z.eqb_eq.
  - intros a. apply Z.ltb_irrefl.
  - intros a b c. rewrite !Z.ltb_lt. lia.
  - intros a b. rewrite !Z.ltb_lt. lia.
Qed.

Import Examples.

(** The concrete stores are what the calls they are named after leave. *)
Lemma examples_built :
  construct empty_store = Ret 0 fresh_dict
  ∧ construct fresh_dict = Ret 1 two_fresh_dicts
  ∧ run [add 0 5 50]%Z fresh_dict = Ret () dict5
  ∧ run [add 0 5 50; add 0 8 80]%Z fresh_dict = Ret () dict58
  ∧ run [add 0 5 50; add 0 3 30; add 0 8 80; add 0 1 10;
         add 0 4 40; add 0 7 70; add 0 9 90]%Z fresh_dict = Ret () dict7
  ∧ run [add 0 5 50; add 1 1 10]%Z two_fresh_dicts = Ret () two_dicts
  ∧ run [add 0 5 50]%Z two_fresh_dicts = Ret () dict_and_empty.
Proof. split_and!; by vm_compute. Qed.

Lemma dict7_is_dict : is_dict dict7 0 tree7.
Proof.
  split; [reflexivity|simpl; by repeat split|].
  compute_done.
Qed.

Lemma tree7_bst : bst tree7.
Proof. simpl. unfold klt. repeat split; by repeat constructor. Qed.

(** C1.  On a new dictionary, [remove(k)] as the first call, and
    [add(k, v)] followed by [remove(k)]: the search loop of [remove] is not
    entered, because the root is null or already holds the key, and the
    local [remove] is read without ever being assigned.  No iteration
    sequence follows. *)
Theorem add_remove_same_key_undefined (k v : Z) :
  run [remove 0 k] fresh_dict = Undefined IndeterminateRead
  ∧ run [add 0 k v; remove 0 k] fresh_dict = Undefined IndeterminateRead.
Proof.
  split; [by vm_compute|].
  simpl. replace (add 0 k v fresh_dict) with
    (Ret () (mkStore {[ 0 := mkNode k v None None None ]} {[ 0 := Some 0 ]})
       : outcome (Store Z Z) ()) by (vm_compute; reflexivity).
  rewrite remove_no_step; [done|]. right. exists 0, (mkNode k v None None None).
  split_and!; [done|done|]. apply Z.eqb_refl.
Qed.

(** C2.  [remove(key)] where [key] is at a node, other than the root,
    that has a child: the call returns, the tree left is the one in which
    that node holds the replacement key [r] (the last key of its left
    subtree if it has one, else the first key of its right subtree) and
    that key is gone from the subtree below; but the node keeps the value
    [v] that was stored with [key], so [r] is now bound to [v]. *)
Theorem remove_keeps_value {K V} `{KeyOps K} `{DefaultInit V} `{!KeyLaws K}
    (s : Store K V) this t key l0 tl0 k0 v0 tr0 l tl k v tr r :
  is_dict s this t → bst t →
  t = Tree l0 tl0 k0 v0 tr0 → key_eqb k0 key = false →
  subtree_at key t = Tree l tl k v tr →
  replacement_of (Tree l tl k v tr) = Some r →
  ∃ s', remove this key s = Ret () s'
      ∧ is_dict s' this (tremove key t)
      ∧ (∃ ref, get_const this r s' = Ret ref s' ∧ read_ref ref s' = Ret v s')
      ∧ has this key s' = Ret false s'.
Proof.
  intros Hd Hbst Ht Hk0 Hsub Hr.
  destruct (remove_spec s this t key l0 tl0 k0 v0 tr0 Hd Hbst Ht Hk0)
    as (s' & Hrun & Hd' & _).
  destruct (remove_then_has s this t key l0 tl0 k0 v0 tr0 Hd Hbst Ht Hk0)
    as (s'' & Hrun' & Hhas & _).
  rewrite Hrun in Hrun'. injection Hrun' as <-.
  pose proof (bst_tremove key t Hbst) as Hbst'.
  exists s'. split_and!; [done|done| |done].
  eapply get_const_binding; [done|done|]. by eapply tremove_binding.
Qed.

(** In the seven-key tree, key 1 is bound to 10 and is the left child of
    the node of key 3, which is bound to 30: after [remove(3)] key 1 is
    bound to 30. *)
Lemma remove_keeps_value_witness :
  is_dict dict7 0 tree7 ∧ bst tree7
  ∧ lookup_value 0 1 dict7 = Ret 10%Z dict7
  ∧ ∃ s', remove 0 3%Z dict7 = Ret () s'
      ∧ is_dict s' 0 (tremove 3%Z tree7)
      ∧ (∃ ref, get_const 0 1%Z s' = Ret ref s' ∧ read_ref ref s' = Ret 30%Z s')
      ∧ has 0 3%Z s' = Ret false s'.
Proof.
  split; [exact dict7_is_dict|]. split; [exact tree7_bst|].
  split; [by vm_compute|].
  exact (remove_keeps_value dict7 0 tree7 3%Z _ _ _ _ _ _ _ _ _ _ 1%Z
           dict7_is_dict tree7_bst eq_refl eq_refl eq_refl eq_refl).
Defined.

(** C3.  The mutable [get] on an absent key: on the empty dictionary it
    dereferences the null root; on the dictionary holding only 5, [get(3)]
    links the new node to the left of 5 and then dereferences the null right
    child of 5; on the dictionary holding 5 and 8, [get(3)] creates the node
    at address 2 and returns a reference to the value of the node at address
    1, which holds key 8. *)
Theorem get_absent_key_wrong_reference :
  (∀ k, get 0 k fresh_dict = Undefined NullDeref)
  ∧ get 0 3%Z dict5 = Undefined NullDeref
  ∧ (∃ s', get 0 3%Z dict58 = Ret (ValueOf 1) s'
           ∧ data <$> nodes s' !! 1 = Some 8%Z
           ∧ data <$> nodes s' !! 2 = Some 3%Z
           ∧ has 0 3%Z s' = Ret true s').
Proof.
  split_and!; [by intros k; vm_compute|by vm_compute|].
  eexists. split_and!; by vm_compute.
Qed.

(** C4.  [remove] on a dictionary whose root is null, or whose root holds
    the key, does not execute the body of its search loop and then reads
    the local [remove], which was never assigned. *)
Theorem remove_reads_unassigned_local {K V} `{KeyOps K} (s : Store K V) this key :
  (roots s !! this = Some None
   ∨ ∃ l n, roots s !! this = Some (Some l) ∧ nodes s !! l = Some n
            ∧ key_eqb (data n) key = true) →
  remove this key s = Undefined IndeterminateRead.
Proof. apply remove_no_step. Qed.

Lemma remove_reads_unassigned_local_witness :
  (roots fresh_dict !! 0 = Some None
   ∨ ∃ l n, roots fresh_dict !! 0 = Some (Some l) ∧ nodes fresh_dict !! l = Some n
            ∧ key_eqb (data n) 7%Z = true)
  ∧ remove 0 7%Z fresh_dict = Undefined IndeterminateRead.
Proof.
  split; [left; reflexivity|].
  apply (remove_reads_unassigned_local fresh_dict 0 7%Z). left. reflexivity.
Defined.

(** C5.  Copy construction from the dictionary holding 5 ↦ 50 dereferences
    the null root of the object under construction.  Copy assignment of
    that dictionary to the one holding 1 ↦ 10 returns, and the target then
    binds 5 to the default value 0, not to 50; the node that held key 1 is
    still allocated. *)
Theorem copy_loses_values :
  copy_construct 0 two_dicts = Undefined NullDeref
  ∧ data <$> nodes two_dicts !! 1 = Some 1%Z
  ∧ ∃ s', copy_assign 1 0 two_dicts = Ret () s'
          ∧ lookup_value 0 5 s' = Ret 50%Z s'
          ∧ lookup_value 1 5 s' = Ret 0%Z s'
          ∧ data <$> nodes s' !! 1 = Some 1%Z.
Proof.
  split; [by vm_compute|]. split; [by vm_compute|].
  eexists. split_and!; by vm_compute.
Qed.

(** C6.  On a dictionary holding a search tree, the const [get(key)]
    throws [std::invalid_argument] exactly when [key] is not among the keys;
    when [key] is bound to [v] it returns a reference through which [v] is
    read; and whichever way it ends, the store is the one it started with. *)
Theorem get_const_spec {K V} `{KeyOps K} `{DefaultInit V} `{!KeyLaws K}
    (s : Store K V) this t key :
  is_dict s this t → bst t →
  (get_const this key s = Throw InvalidArgument s ↔ key ∉ keys t)
  ∧ (∀ v, (key, v) ∈ bindings t →
       ∃ r, get_const this key s = Ret r s ∧ read_ref r s = Ret v s)
  ∧ (get_const this key s = Throw InvalidArgument s
     ∨ ∃ r, get_const this key s = Ret r s).
Proof.
  intros Hd Hbst. split_and!.
  - rewrite (get_const_descend _ _ _ _ Hd).
    rewrite <- (found_iff key t Hbst). unfold found.
    destruct (descend key t) as [[l v]|]; [|done]. split; [done|]. by intros [].
  - intros v Hin. by eapply get_const_binding.
  - rewrite (get_const_descend _ _ _ _ Hd).
    destruct (descend key t) as [[l v]|]; [right; by eexists|by left].
Qed.

Lemma get_const_spec_witness :
  is_dict dict7 0 tree7 ∧ bst tree7
  ∧ (get_const 0 6%Z dict7 = Throw InvalidArgument dict7 ↔ 6%Z ∉ keys tree7)
  ∧ (∀ v, (6%Z, v) ∈ bindings tree7 →
       ∃ r, get_const 0 6%Z dict7 = Ret r dict7 ∧ read_ref r dict7 = Ret v dict7)
  ∧ (get_const 0 6%Z dict7 = Throw InvalidArgument dict7
     ∨ ∃ r, get_const 0 6%Z dict7 = Ret r dict7).
Proof.
  split; [exact dict7_is_dict|]. split; [exact tree7_bst|].
  exact (get_const_spec dict7 0 tree7 6%Z dict7_is_dict tree7_bst).
Defined.

(** C7.  On a dictionary holding a search tree, [add(key, value)] returns
    and [has(key)] is true afterwards; when [key] was already among the
    keys, the store after the call is the store before it: no node is
    created, no link and no stored value changes. *)
Theorem add_then_has {K V} `{KeyOps K} `{DefaultInit V} `{!KeyLaws K}
    (s : Store K V) this t key v :
  is_dict s this t → bst t →
  ∃ s', add this key v s = Ret () s'
     ∧ has this key s' = Ret true s'
     ∧ (key ∈ keys t → s' = s).
Proof.
  intros Hd Hbst.
  destruct (add_spec s this t key v Hd) as (s' & Hrun & Hd' & Hsame & _).
  exists s'. split_and!; [done| |].
  - rewrite (has_spec _ _ _ _ Hd'). by rewrite found_tadd.
  - intros Hin. apply Hsame. by apply found_iff.
Qed.

Lemma add_then_has_witness :
  is_dict dict7 0 tree7 ∧ bst tree7
  ∧ ∃ s', add 0 4%Z 99%Z dict7 = Ret () s'
     ∧ has 0 4%Z s' = Ret true s'
     ∧ (4%Z ∈ keys tree7 → s' = dict7).
Proof.
  split; [exact dict7_is_dict|]. split; [exact tree7_bst|].
  exact (add_then_has dict7 0 tree7 4%Z 99%Z dict7_is_dict tree7_bst).
Defined.

(** C8.  Move construction from any live dictionary: the body [*this =
    temp] is the copy assignment, which calls [freeNodes] on the null root
    of the object under construction. *)
Theorem move_construct_undefined {K V} `{DefaultInit V} (s : Store K V) temp :
  is_Some (roots s !! temp) → move_construct temp s = Undefined NullDeref.
Proof. apply copy_construct_undefined. Qed.

Lemma move_construct_undefined_witness :
  is_Some (roots dict7 !! 0) ∧ move_construct 0 dict7 = Undefined NullDeref.
Proof.
  split; [by eexists|]. apply (move_construct_undefined dict7 0). by eexists.
Defined.

(** Move assignment exchanges the two roots and touches no node. *)
Lemma move_assign_swaps {K V} (s : Store K V) this temp a b :
  roots s !! this = Some a → roots s !! temp = Some b →
  move_assign this temp s =
    Ret () (mkStore (nodes s) (<[temp := a]> (<[this := b]> (roots s)))).
Proof.
  intros Ha Hb. unfold move_assign, get_root, set_root, mbind, M_bind, bind.
  rewrite Ha, Hb. simpl. rewrite Ha. simpl.
  destruct (decide (this = temp)) as [->|Hne].
  - by rewrite lookup_insert_eq.
  - rewrite lookup_insert_ne by done. by rewrite Hb.
Qed.

(** C9.  On an empty dictionary [has] returns false for every key, and
    [begin()] dereferences the null root. *)
Theorem begin_on_empty {K V} `{KeyOps K} (s : Store K V) this :
  roots s !! this = Some None →
  (∀ k, has this k s = Ret false s) ∧ begin this s = Undefined NullDeref.
Proof.
  intros Hroot. split.
  - intros k. unfold has, get_root, mbind, M_bind, bind. by rewrite Hroot.
  - unfold begin, get_root, mbind, M_bind, bind. by rewrite Hroot.
Qed.

Lemma begin_on_empty_witness :
  roots fresh_dict !! 0 = Some None
  ∧ (∀ k, has 0 k fresh_dict = Ret false fresh_dict)
  ∧ begin 0 fresh_dict = Undefined NullDeref.
Proof. split; [reflexivity|]. by apply (begin_on_empty fresh_dict 0). Defined.




(** ** Further properties of the methods *)

Section More.
Context {K V : Type} `{KeyOps K} `{DefaultInit V} {KL : KeyLaws K}.

Implicit Types (s : Store K V) (t : tree K V) (h : gmap nat (Node K V)).

(** *** Lookups *)

Lemma key_neqb (a b : K) : a ≠ b → key_eqb a b = false.
Proof.
  intros Hne. destruct (key_eqb a b) eqn:E; [|done].
  by apply key_eqb_eq in E.
Qed.

(** The const [get] read through, in terms of the descent. *)
Lemma get_const_reads s this t key w :
  is_dict s this t → snd <$> descend key t = Some w →
  ∃ r, get_const this key s = Ret r s ∧ read_ref r s = Ret w s.
Proof.
  intros Hd Hw. rewrite (get_const_descend _ _ _ _ Hd).
  destruct (descend key t) as [[l v]|] eqn:Hdesc; [|done].
  injection Hw as ->. exists (ValueOf l). split; [done|].
  destruct Hd as [_ Hrep _].
  destruct (descend_cell _ _ _ _ _ _ Hrep Hdesc) as (n & Hn & _ & Hv).
  unfold read_ref. rewrite (bind_Ret _ _ _ _ _ (load_Some _ _ _ Hn)).
  by rewrite <- Hv.
Qed.

Lemma get_const_throws s this t key :
  is_dict s this t → snd <$> descend key t = None →
  get_const this key s = Throw InvalidArgument s.
Proof.
  intros Hd Hw. rewrite (get_const_descend _ _ _ _ Hd).
  by destruct (descend key t) as [[l v]|].
Qed.

Lemma descend_bound key w t :
  bst t → (key, w) ∈ bindings t → snd <$> descend key t = Some w.
Proof.
  intros Hbst Hin. destruct (descend_binding _ _ _ Hbst Hin) as [l Hl].
  by rewrite Hl.
Qed.

Lemma descend_unbound key t :
  bst t → key ∉ keys t → snd <$> descend key t = None.
Proof.
  intros Hbst Hin. rewrite <- (found_iff key t Hbst) in Hin. unfold found in Hin.
  by destruct (descend key t).
Qed.

(** *** The tree after an insertion *)

Lemma descend_tadd_same new key v t :
  snd <$> descend key (tadd new key v t)
  = Some (default v (snd <$> descend key t)).
Proof.
  induction t as [|l tl IHl k w tr IHr]; simpl.
  - by rewrite key_eqb_refl.
  - destruct (key_eqb k key) eqn:Ek; simpl; rewrite ?Ek; [done|].
    destruct (key_ltb key k) eqn:El; simpl; by rewrite Ek, El.
Qed.

Lemma descend_tadd_new new key v t :
  found key t = false → fst <$> descend key (tadd new key v t) = Some new.
Proof.
  unfold found. induction t as [|l tl IHl k w tr IHr]; simpl.
  - by rewrite key_eqb_refl.
  - destruct (key_eqb k key) eqn:Ek; [done|].
    destruct (key_ltb key k) eqn:El; simpl; by rewrite Ek, El.
Qed.

Lemma descend_tadd_other new key v x t :
  x ≠ key → snd <$> descend x (tadd new key v t) = snd <$> descend x t.
Proof.
  intros Hne. assert (key_eqb key x = false) as Hkx by by apply key_neqb.
  induction t as [|l tl IHl k w tr IHr]; simpl.
  - rewrite Hkx. by destruct (key_ltb x key).
  - destruct (key_eqb k key) eqn:Ek; simpl; [done|].
    destruct (key_ltb key k) eqn:El; simpl;
      destruct (key_eqb k x); try done; by destruct (key_ltb x k).
Qed.

Lemma tremove_tadd new key v t :
  found key t = false → tremove key (tadd new key v t) = t.
Proof.
  unfold found. induction t as [|l tl IHl k w tr IHr]; simpl.
  - by rewrite key_eqb_refl.
  - destruct (key_eqb k key) eqn:Ek; [done|].
    destruct (key_ltb key k) eqn:El; simpl; rewrite Ek, El; intros Hf;
      f_equal; auto.
Qed.

(** The cells in use after [add] of an absent key: those in use before,
    and the new one. *)
Lemma add_dom s this t key v s' :
  is_dict s this t → found key t = false →
  add this key v s = Ret () s' →
  dom (nodes s') = {[fresh (dom (nodes s))]} ∪ dom (nodes s).
Proof.
  intros Hd Hf Hrun.
  destruct (add_spec s this t key v Hd) as (s1 & Hrun1 & Hd1 & _ & _ & Hfr).
  rewrite Hrun in Hrun1. injection Hrun1 as <-.
  destruct Hd as [_ Hrep _]. destruct Hd1 as [_ Hrep1 _].
  pose proof (locs_tadd (fresh (dom (nodes s))) key v t) as Hperm.
  rewrite Hf in Hperm.
  apply set_eq. intros l. rewrite elem_of_union, elem_of_singleton.
  destruct (decide (l = fresh (dom (nodes s)))) as [->|Hnew].
  { split; [by left|]. intros _. eapply rep_dom; [exact Hrep1|].
    rewrite Hperm. set_solver. }
  destruct (decide (l ∈ locs t)) as [Hin|Hout].
  { split; intros _.
    - right. by eapply rep_dom.
    - eapply rep_dom; [exact Hrep1|]. rewrite Hperm. set_solver. }
  rewrite !elem_of_dom, (Hfr l Hout Hnew). naive_solver.
Qed.

(** *** A sequence of insertions *)

Lemma run_adds this (kvs : list (K * V)) : ∀ s t,
  is_dict s this t → bst t →
  ∃ s' t', run ((λ kv, add this kv.1 kv.2) <$> kvs) s = Ret () s'
    ∧ is_dict s' this t' ∧ bst t'
    ∧ ∀ x, snd <$> descend x t'
           = match snd <$> descend x t with
             | Some w => Some w
             | None => first_value x kvs
             end.
Proof.
  induction kvs as [|[k v] kvs IH]; intros s t Hd Hbst.
  - exists s, t. split_and!; [done|done|done|].
    intros x. by destruct (snd <$> descend x t).
  - destruct (add_spec s this t k v Hd) as (s1 & Hrun1 & Hd1 & _).
    pose proof (bst_tadd (fresh (dom (nodes s))) k v t Hbst) as Hbst1.
    destruct (IH s1 _ Hd1 Hbst1) as (s' & t' & Hrun & Hd' & Hbst' & Hval).
    exists s', t'. split_and!; [|done|done|].
    { cbn [fmap list_fmap run]. simpl. by rewrite Hrun1. }
    intros x. rewrite Hval. cbn [first_value].
    destruct (key_eqb k x) eqn:Ekx.
    + apply key_eqb_eq in Ekx as <-. rewrite descend_tadd_same.
      by destruct (snd <$> descend k t).
    + rewrite descend_tadd_other; [done|]. intros ->.
      by rewrite key_eqb_refl in Ekx.
Qed.

(** *** What a call leaves of the cells *)

Lemma bind_inv {A B} (m : M A) (k : A → M B) s b s' :
  (m ≫= k) s = Ret b s' → ∃ a s1, m s = Ret a s1 ∧ k a s1 = Ret b s'.
Proof.
  unfold mbind, M_bind, bind. destruct (m s) as [a s1| | |]; [|done..].
  intros Hk. by exists a, s1.
Qed.

Lemma load_inv p s n s' : load p s = Ret n s' → s' = s ∧ ∃ l, p = Some l ∧ nodes s !! l = Some n.
Proof.
  unfold load. destruct p as [l|]; [|done].
  destruct (nodes s !! l) as [n0|] eqn:Hn; [|done].
  intros [= <- <-]. split; [done|]. by exists l.
Qed.

Lemma read_slot_inv sl s p s' : read_slot sl s = Ret p s' → s' = s.
Proof.
  destruct sl as [this|l|l]; simpl.
  - unfold get_root. destruct (roots s !! this); [|done]. by intros [= _ <-].
  - intros (n & s1 & (-> & _)%load_inv & Hr)%bind_inv. by injection Hr.
  - intros (n & s1 & (-> & _)%load_inv & Hr)%bind_inv. by injection Hr.
Qed.

Lemma same_cells_refl s : same_cells s s.
Proof. intros l. by destruct (nodes s !! l). Qed.

Lemma same_cells_trans s1 s2 s3 :
  same_cells s1 s2 → same_cells s2 s3 → same_cells s1 s3.
Proof.
  intros H12 H23 l. specialize (H12 l). specialize (H23 l).
  destruct (nodes s1 !! l), (nodes s2 !! l), (nodes s3 !! l); try done.
  destruct H12 as (? & ? & ?), H23 as (? & ? & ?). split_and!; congruence.
Qed.

Lemma same_cells_dom s s' : same_cells s s' → dom (nodes s') = dom (nodes s).
Proof.
  intros Hs. apply set_eq. intros l. rewrite !elem_of_dom. specialize (Hs l).
  destruct (nodes s !! l), (nodes s' !! l); try done; split; by intros [].
Qed.

Lemma write_slot_same_cells sl q s s' :
  write_slot sl q s = Ret () s' → same_cells s s'.
Proof.
  destruct sl as [this|l|l]; simpl.
  - unfold set_root. destruct (roots s !! this); [|done]. intros [= <-].
    intros l. simpl. by destruct (nodes s !! l).
  - unfold set_left.
    intros (n & s1 & (-> & l1 & [= <-] & Hn)%load_inv & [= <-])%bind_inv.
    intros l'. simpl. destruct (decide (l' = l)) as [->|Hne].
    + by rewrite lookup_insert_eq, Hn.
    + rewrite lookup_insert_ne by done. by destruct (nodes s !! l').
  - unfold set_right.
    intros (n & s1 & (-> & l1 & [= <-] & Hn)%load_inv & [= <-])%bind_inv.
    intros l'. simpl. destruct (decide (l' = l)) as [->|Hne].
    + by rewrite lookup_insert_eq, Hn.
    + rewrite lookup_insert_ne by done. by destruct (nodes s !! l').
Qed.

(** [freeNodes], whenever it returns, has deleted no cell and has left
    every key, value and parent pointer in place. *)
Lemma freeNodes_same_cells fuel : ∀ sl s s',
  freeNodes fuel sl s = Ret () s' → same_cells s s'.
Proof.
  induction fuel as [|fuel IH]; intros sl s s' Hrun; [done|].
  cbn [freeNodes] in Hrun.
  apply bind_inv in Hrun as (p & s0 & ->%read_slot_inv & Hrun).
  apply bind_inv in Hrun as (n & s0 & (-> & l & -> & Hn)%load_inv & Hrun).
  apply bind_inv in Hrun as ([] & s2 & Hbody & Hw).
  apply write_slot_same_cells in Hw.
  eapply same_cells_trans; [|exact Hw].
  destruct (negb (isLeaf n)); [|injection Hbody as <-; apply same_cells_refl].
  apply bind_inv in Hbody as ([] & s3 & Hleft & Hbody).
  apply bind_inv in Hbody as (n' & s0 & (-> & _)%load_inv & Hright).
  apply (same_cells_trans _ s3).
  - destruct (hasLeft n); [by eapply IH|].
    injection Hleft as <-. apply same_cells_refl.
  - destruct (hasRight n'); [by eapply IH|].
    injection Hright as <-. apply same_cells_refl.
Qed.

(** *** The cell [remove] gives back *)

(** The node whose key [remove] moves up: the last of the left subtree,
    else the first of the right subtree. *)
Lemma replacement_cell fuel s b l tl k v tr r :
  rep (nodes s) b (Tree l tl k v tr) → height (Tree l tl k v tr) ≤ fuel →
  replacement_of (Tree l tl k v tr) = Some r →
  ∃ lm nm,
    (match root_ptr tl with
     | Some _ => maxKey fuel (root_ptr tl)
     | None => minKey fuel (root_ptr tr)
     end) s = Ret (Some lm) s
    ∧ nodes s !! lm = Some nm ∧ data nm = r.
Proof.
  intros (Hl & Hrl & Hrr) Hhs Hr.
  unfold replacement_of in Hr. destruct tl as [|l1 tl1 k1 v1 tr1].
  - destruct tr as [|l1 tl1 k1 v1 tr1]; [done|]. cbn [root_ptr tlast] in *.
    rewrite (minKey_spec fuel s _ _ _ _ _ _ Hrr) by (simpl in Hhs; lia).
    destruct (tfirst (Tree l1 tl1 k1 v1 tr1)) as [[lm km]|] eqn:Ef; [|done].
    injection Hr as ->.
    destruct (tfirst_cell _ _ _ _ _ Hrr Ef) as (_ & _ & nm & Hnm & Hdata).
    exists lm, nm. split_and!; [|done|done].
    simpl in Ef. destruct (tfirst tl1); by simplify_eq.
  - cbn [root_ptr] in *.
    rewrite (maxKey_spec fuel s _ _ _ _ _ _ Hrl) by (simpl in Hhs; lia).
    destruct (tlast (Tree l1 tl1 k1 v1 tr1)) as [[lm km]|] eqn:El;
      [|by apply tlast_None in El].
    injection Hr as ->.
    destruct (tlast_cell _ _ _ _ _ Hrl El) as (_ & _ & nm & Hnm & Hdata).
    exists lm, nm. split_and!; [|done|done].
    simpl in El. destruct (tlast tr1); by simplify_eq.
Qed.

Lemma replacement_present key t l tl k v tr r :
  bst t → subtree_at key t = Tree l tl k v tr →
  replacement_of (Tree l tl k v tr) = Some r →
  subtree_at r t ≠ Leaf.
Proof.
  intros Hbst Hsub Hr. rewrite subtree_at_Leaf.
  assert (r ∈ keys t) as Hin.
  { apply (subtree_at_keys key). rewrite Hsub.
    destruct (replacement_of_in _ _ Hr) as (? & ? & ? & ? & ? & [= <- <- <- <- <-] & Hin).
    simpl. destruct Hin as [Hin|[_ Hin]]; set_solver. }
  apply (found_iff r t Hbst) in Hin. by rewrite Hin.
Qed.

(** Removing a key that is present, away from the root, gives back
    exactly one cell of the tree. *)
Lemma remove_rec_frees depth : ∀ fuel s this t key l0 tl0 k0 v0 tr0 s',
  is_dict s this t → bst t → height t < fuel →
  t = Tree l0 tl0 k0 v0 tr0 → key_eqb k0 key = false →
  height (subtree_at key t) < depth →
  subtree_at key t ≠ Leaf →
  remove_rec depth fuel this key s = Ret () s' →
  ∃ d, d ∈ locs t ∧ dom (nodes s') = dom (nodes s) ∖ {[d]}.
Proof.
  induction depth as [|depth IH];
    intros fuel s this t key l0 tl0 k0 v0 tr0 s' Hd Hbst Hf Ht Hk0 Hdepth Hpres;
    [lia|].
  pose proof (is_dict_under _ _ _ Hd) as Hu.
  pose proof Hd as [Hroot Hrep Hnd]. pose proof Hu as (Hsl & _).
  cbn [remove_rec].
  rewrite (bind_Ret _ _ _ _ _
             (remove_search_spec fuel key (RootOf this) None s None t Hrep Hsl Hf)).
  assert (tsearch key (RootOf this) None t =
          ((tsearch key (RootOf this) None t).1,
           Some (root_ptr (subtree_at key t)))) as Hts.
  { rewrite (surjective_pairing (tsearch key (RootOf this) None t)) at 1.
    f_equal. subst t. simpl. rewrite Hk0. simpl.
    destruct (key_ltb key k0); apply tsearch_remove. }
  rewrite Hts. clear Hts.
  destruct (subtree_at key t) as [|l tl k v tr] eqn:Hsub; [done|]. clear Hpres.
  destruct (rep_subtree_at _ _ key _ Hrep) as [b' Hrs]. rewrite Hsub in Hrs.
  pose proof Hrs as (Hl & Hrl & Hrr). cbn [root_ptr].
  rewrite (bind_Ret _ _ _ _ _ (load_Some _ _ _ Hl)).
  assert (l ∈ locs t) as Hlin.
  { apply (subtree_at_in key). rewrite Hsub. simpl. set_solver. }
  pose proof (height_subtree_at key t) as Hhs. rewrite Hsub in Hhs.
  destruct (replacement_of (Tree l tl k v tr)) as [r|] eqn:Hr.
  - assert (isLeaf (mkNode k v (root_ptr tl) (root_ptr tr) b') = false) as ->.
    { unfold isLeaf. simpl. simpl in Hr.
      destruct tl as [|l1 tl1 k1 v1 tr1]; [|done].
      destruct tr as [|l1 tl1 k1 v1 tr1]; done. }
    cbn [negb left right].
    assert (height (Tree l tl k v tr) ≤ fuel) as Hle by lia.
    destruct (replacement_cell fuel s b' l tl k v tr r Hrs Hle Hr)
      as (lm & nm & Hm & Hnm & Hdata).
    rewrite (bind_Ret _ _ _ _ _ Hm).
    rewrite (bind_Ret _ _ _ _ _ (load_Some _ _ _ Hnm)). rewrite Hdata.
    destruct (replacement_route key t l tl k v tr r Hbst Hsub Hr) as [Hlt Hroot_ne].
    intros ([] & s1 & Hrun1 & Hset)%bind_inv.
    destruct (IH fuel s this t r l0 tl0 k0 v0 tr0 s1) as (d & Hdin & Hdom);
      [done|done|done|done|by eapply Hroot_ne|lia|by eapply replacement_present|done|].
    exists d. split; [done|]. rewrite <- Hdom.
    unfold set_data in Hset.
    apply bind_inv in Hset as (n1 & s0 & (-> & l1 & [= <-] & Hn1)%load_inv & [= <-]).
    simpl. apply dom_insert_lookup_L. by eexists.
  - assert (tl = Leaf ∧ tr = Leaf) as [-> ->].
    { simpl in Hr. destruct (tlast tl) as [[??]|] eqn:El; [done|].
      destruct (tfirst tr) as [[??]|] eqn:Ef; [done|].
      split; [by apply tlast_None|by apply tfirst_None]. }
    cbn [isLeaf left right root_ptr negb].
    rewrite (bind_Ret (delete_node l) _ s () _ eq_refl).
    intros Hw%write_slot_same_cells%same_cells_dom.
    exists l. split; [done|]. rewrite Hw. simpl. apply dom_delete_L.
Qed.

Lemma remove_frees s this t key l0 tl0 k0 v0 tr0 s' :
  is_dict s this t → bst t →
  t = Tree l0 tl0 k0 v0 tr0 → key_eqb k0 key = false →
  key ∈ keys t → remove this key s = Ret () s' →
  ∃ d, d ∈ locs t ∧ dom (nodes s') = dom (nodes s) ∖ {[d]}.
Proof.
  intros Hd Hbst Ht Hk0 Hin. unfold remove.
  rewrite (bind_Ret budget _ s _ s eq_refl).
  pose proof Hd as [_ Hrep Hnd].
  pose proof (budget_enough _ _ _ Hrep Hnd) as Hb.
  eapply remove_rec_frees; [done..| |].
  - pose proof (height_subtree_at key t). lia.
  - rewrite subtree_at_Leaf. apply (found_iff key t Hbst) in Hin. by rewrite Hin.
Qed.

(** *** Writing through the reference [get] returns *)

Lemma root_ptr_tput l w t : root_ptr (tput l w t) = root_ptr t.
Proof. by destruct t. Qed.

Lemma locs_tput l w t : locs (tput l w t) = locs t.
Proof. induction t as [|l0 tl IHl k v tr IHr]; simpl; [done|]. by rewrite IHl, IHr. Qed.

Lemma keys_tput l w t : keys (tput l w t) = keys t.
Proof. induction t as [|l0 tl IHl k v tr IHr]; simpl; [done|]. by rewrite IHl, IHr. Qed.

Lemma bst_tput l w t : bst t → bst (tput l w t).
Proof.
  induction t as [|l0 tl IHl k v tr IHr]; simpl; [done|].
  rewrite !keys_tput. naive_solver.
Qed.

Lemma rep_tput h b t l w n :
  rep h b t → h !! l = Some n →
  rep (<[l := mkNode (data n) w (left n) (right n) (back n)]> h) b (tput l w t).
Proof.
  revert b. induction t as [|l0 tl IHl k v tr IHr]; intros b; simpl; [done|].
  intros (Hl0 & Hrl & Hrr) Hn. rewrite !root_ptr_tput.
  split_and!; [|by apply IHl|by apply IHr].
  destruct (decide (l0 = l)) as [->|Hne].
  - rewrite lookup_insert_eq. rewrite Hl0 in Hn. by injection Hn as <-.
  - by rewrite lookup_insert_ne.
Qed.

Lemma descend_tput l w x t :
  descend x (tput l w t)
  = (λ lv, (lv.1, if decide (lv.1 = l) then w else lv.2)) <$> descend x t.
Proof.
  induction t as [|l0 tl IHl k v tr IHr]; simpl; [done|].
  destruct (key_eqb k x); [done|]. by destruct (key_ltb x k).
Qed.

Lemma write_ref_spec s this t l w :
  is_dict s this t → l ∈ locs t →
  ∃ s', write_ref (ValueOf l) w s = Ret () s'
     ∧ is_dict s' this (tput l w t)
     ∧ roots s' = roots s
     ∧ (∀ l', l' ≠ l → nodes s' !! l' = nodes s !! l').
Proof.
  intros [Hroot Hrep Hnd] Hin.
  pose proof (rep_dom _ _ _ _ Hrep Hin) as [n Hn]%elem_of_dom.
  eexists. split.
  { unfold write_ref. rewrite (bind_Ret _ _ _ _ _ (load_Some _ _ _ Hn)). reflexivity. }
  split_and!; simpl; [|done|].
  - split; simpl; [by rewrite root_ptr_tput|by apply rep_tput|by rewrite locs_tput].
  - intros l' Hl'. by rewrite lookup_insert_ne.
Qed.

(** Two keys found at the same cell are the same key. *)
Lemma descend_cell_inj h b t x y l v w :
  rep h b t → descend x t = Some (l, v) → descend y t = Some (l, w) → x = y.
Proof.
  intros Hrep Hx Hy.
  destruct (descend_cell _ _ _ _ _ _ Hrep Hx) as (n & Hn & <- & _).
  destruct (descend_cell _ _ _ _ _ _ Hrep Hy) as (n' & Hn' & <- & _).
  congruence.
Qed.

(** *** Iterating from a key *)

Lemma filter_keep {A} (f : A → bool) (l : list A) :
  Forall (λ x, f x = true) l → List.filter f l = l.
Proof. induction 1 as [|x l Hx _ IH]; simpl; [done|]. by rewrite Hx, IH. Qed.

Lemma filter_drop {A} (f : A → bool) (l : list A) :
  Forall (λ x, f x = false) l → List.filter f l = [].
Proof. induction 1 as [|x l Hx _ IH]; simpl; [done|]. by rewrite Hx, IH. Qed.

Lemma klt_trans (a b c : K) : klt a b → klt b c → klt a c.
Proof. apply key_ltb_trans. Qed.

(** On a search tree, the keys from [key] on are the keys that are not
    less than [key]. *)
Lemma keys_from_filter key t :
  bst t → found key t = true →
  keys_from key t = List.filter (λ x, negb (key_ltb x key)) (keys t).
Proof.
  unfold found. induction t as [|l tl IHl k v tr IHr]; simpl; [done|].
  intros (Hlt & Hgt & Hbl & Hbr). rewrite List.filter_app. simpl.
  destruct (key_eqb k key) eqn:Ek.
  - intros _. apply key_eqb_eq in Ek as <-. rewrite key_ltb_irrefl. simpl.
    rewrite filter_drop, filter_keep; [done| |].
    + eapply Forall_impl; [exact Hgt|]. intros x Hx. simpl.
      by rewrite (klt_asym _ _ Hx).
    + eapply Forall_impl; [exact Hlt|]. intros x Hx. simpl.
      unfold klt in Hx. by rewrite Hx.
  - destruct (key_ltb key k) eqn:El; intros Hf.
    + rewrite (klt_asym key k El). simpl. rewrite (IHl Hbl Hf). f_equal. f_equal.
      symmetry. apply filter_keep.
      eapply Forall_impl; [exact Hgt|]. intros x Hx. simpl.
      by rewrite (klt_asym key x (klt_trans _ _ _ El Hx)).
    + assert (klt k key) as Hk.
      { destruct (key_ltb_total k key) as [Hk|[Hk|Hk]]; [done| |].
        - subst. by rewrite key_eqb_refl in Ek.
        - unfold klt in *. congruence. }
      rewrite Hk. simpl. rewrite filter_drop; [by apply IHr|].
      eapply Forall_impl; [exact Hlt|]. intros x Hx. simpl.
      by rewrite (klt_trans _ _ _ Hx Hk).
Qed.

Lemma begin_key_loop_spec fuel key s b t :
  rep (nodes s) b t → height t < fuel →
  begin_key_loop fuel key (root_ptr t) s = Ret (fst <$> descend key t) s.
Proof.
  revert b fuel. induction t as [|l tl IHl k v tr IHr]; intros b fuel Hrep Hf.
  - destruct fuel; [lia|]. reflexivity.
  - destruct fuel; [lia|]. simpl in Hf. destruct Hrep as (Hl & Hrl & Hrr).
    simpl. rewrite (bind_Ret _ _ _ _ _ (load_Some _ _ _ Hl)). simpl.
    destruct (key_eqb k key); [done|].
    destruct (key_ltb key k).
    + apply (IHl (Some l)); [done|lia].
    + apply (IHr (Some l)); [done|lia].
Qed.

Lemma begin_key_spec s this t key :
  is_dict s this t →
  begin_key this key s = Ret (mkIter (fst <$> descend key t)) s.
Proof.
  intros [Hroot Hrep Hnd]. unfold begin_key, get_root.
  unfold mbind at 1, M_bind at 1, bind at 1. rewrite Hroot.
  rewrite (bind_Ret budget _ s _ s eq_refl).
  by rewrite (bind_Ret _ _ _ _ _ (begin_key_loop_spec _ key s None t Hrep
                (budget_enough _ _ _ Hrep Hnd))).
Qed.

(** Iterating from the root of a subtree yields its key, then the keys of
    its right subtree, and goes on with whatever follows it on the way
    up. *)
Lemma iterate_node this r0 s b l tl k v tr d nxt :
  roots s !! this = Some r0 →
  rep (nodes s) b (Tree l tl k v tr) → NoDup (locs (Tree l tl k v tr)) →
  d + height (Tree l tl k v tr) < 2 + 2 * size (nodes s) →
  (∀ f, d < f → climb_to_next f (Some l) s = Ret nxt s) →
  ∀ f, iterate (S (length (keys tr) + f)) this (mkIter (Some l)) s =
       outcome_map (app (k :: keys tr)) (iterate f this (mkIter nxt) s).
Proof.
  intros Hroot Hrep Hnd Hh Hup f.
  pose proof Hrep as (Hl & Hrl & Hrr).
  pose proof Hnd as Hnd'. simpl in Hnd'.
  apply NoDup_app in Hnd' as (Hndl & _ & Hnd').
  apply NoDup_cons in Hnd' as (_ & Hndr).
  cbn [height] in Hh.
  destruct (tfirst tr) as [[lf' kf']|] eqn:Ef.
  - assert (height tr < 2 + 2 * size (nodes s)) as Hhr by lia.
    rewrite (iterate_step this r0 s l _ (mkIter (Some lf')) _ Hroot Hl
               (iter_incr_right s b l tl k v tr lf' kf' Hrep Ef Hhr)).
    cbn [data].
    rewrite (iterate_subtree this r0 s Hroot tr (Some l) (S d) nxt lf' kf' Hrr Hndr Ef).
    + rewrite outcome_map_compose. by apply outcome_map_ext.
    + lia.
    + intros f'' Hf''. destruct f'' as [|f'']; [lia|].
      rewrite (climb_to_next_right s b l tl k v tr f'' Hrep)
        by (intros ->; done).
      apply Hup. lia.
  - apply tfirst_None in Ef as ->. cbn [keys length Nat.add].
    assert (d < 2 + 2 * size (nodes s)) as Hd by lia.
    rewrite (iterate_step this r0 s l _ (mkIter nxt) _ Hroot Hl
               (iter_incr_up s l _ nxt Hl eq_refl (Hup _ Hd))).
    by apply outcome_map_ext.
Qed.

(** Iterating from the node of a key yields the keys from it on. *)
Lemma iterate_from this r0 s key :
  roots s !! this = Some r0 →
  ∀ t b d nxt l v,
    rep (nodes s) b t → NoDup (locs t) → descend key t = Some (l, v) →
    d + height t < 2 + 2 * size (nodes s) →
    (∀ f, d < f → climb_to_next f (root_ptr t) s = Ret nxt s) →
    ∀ f, iterate (length (keys_from key t) + f) this (mkIter (Some l)) s =
         outcome_map (app (keys_from key t)) (iterate f this (mkIter nxt) s).
Proof.
  intros Hroot. induction t as [|l0 tl IHl k w tr IHr]; [done|].
  intros b d nxt l v Hrep Hnd Hdesc Hh Hup f.
  pose proof Hrep as (Hl & Hrl & Hrr).
  pose proof Hnd as Hnd'. simpl in Hnd'.
  apply NoDup_app in Hnd' as (Hndl & _ & Hnd').
  apply NoDup_cons in Hnd' as (_ & Hndr).
  pose proof (iterate_node this r0 s b l0 tl k w tr d nxt Hroot Hrep Hnd Hh Hup)
    as Hnode.
  cbn [height] in Hh. simpl in Hdesc. cbn [keys_from].
  destruct (key_eqb k key).
  - injection Hdesc as <- <-. apply Hnode.
  - destruct (key_ltb key k).
    + rewrite length_app. cbn [length].
      replace (length (keys_from key tl) + S (length (keys tr)) + f)
        with (length (keys_from key tl) + S (length (keys tr) + f)) by lia.
      rewrite (IHl (Some l0) 0 (Some l0) l v Hrl Hndl Hdesc).
      * rewrite Hnode, outcome_map_compose. apply outcome_map_ext.
        intros a. simpl. by rewrite <- app_assoc.
      * lia.
      * intros f' Hf'. eapply climb_to_next_left; [done|done| |done].
        intros ->. done.
    + apply (IHr (Some l0) (S d) nxt l v Hrr Hndr Hdesc); [lia|].
      intros f'' Hf''. destruct f'' as [|f'']; [lia|].
      rewrite (climb_to_next_right s b l0 tl k w tr f'' Hrep)
        by (intros ->; done).
      apply Hup. lia.
Qed.

Lemma length_keys_from key t : length (keys_from key t) ≤ length (keys t).
Proof.
  induction t as [|l tl IHl k v tr IHr]; simpl; [done|].
  rewrite length_app. simpl.
  destruct (key_eqb k key); [simpl; lia|].
  destruct (key_ltb key k); [rewrite length_app; simpl|]; lia.
Qed.

(** [begin(key)] advanced with [++] until [end()]. *)
Lemma iteration_from_spec s this t key :
  is_dict s this t →
  iteration_from this key s
  = Ret (if found key t then keys_from key t else []) s.
Proof.
  intros Hd. pose proof Hd as [Hroot Hrep Hnd].
  pose proof (budget_enough _ _ _ Hrep Hnd) as Hb.
  pose proof (rep_size _ _ _ Hrep Hnd) as Hsz.
  rewrite <- length_keys_locs in Hsz.
  pose proof (length_keys_from key t) as Hlen.
  unfold iteration_from.
  rewrite (bind_Ret _ _ _ _ _ (begin_key_spec s this t key Hd)).
  rewrite (bind_Ret budget _ s _ s eq_refl).
  unfold found. destruct (descend key t) as [[l v]|] eqn:Hdesc.
  - change (fst <$> Some (l, v)) with (Some l).
    replace (2 + 2 * size (nodes s))
      with (length (keys_from key t)
            + S (1 + 2 * size (nodes s) - length (keys_from key t))) by lia.
    rewrite (iterate_from this _ s key Hroot t None 0 None l v Hrep Hnd Hdesc).
    + rewrite (iterate_end this _ s _ Hroot). simpl. by rewrite app_nil_r.
    + lia.
    + intros f Hf. destruct f; [lia|].
      destruct t as [|l0 tl k w tr]; [done|].
      destruct Hrep as (Hl & _). by eapply climb_to_next_top.
  - change (2 + 2 * size (nodes s)) with (S (S (2 * size (nodes s)))).
    exact (iterate_end this _ s _ Hroot).
Qed.

(** *** The destructor and the copy assignment *)

Lemma destroy_spec s this t :
  is_dict s this t → t ≠ Leaf →
  ∃ s', destroy this s = Ret () s'
     ∧ roots s' = delete this (roots s)
     ∧ same_cells s s'
     ∧ (∀ l, l ∉ locs t → nodes s' !! l = nodes s !! l).
Proof.
  intros [Hroot Hrep Hnd] Hne. unfold destroy.
  rewrite (bind_Ret budget _ s _ s eq_refl).
  destruct (freeNodes_spec (2 + 2 * size (nodes s)) (RootOf this) s None t)
    as (s1 & Hrun1 & Hroots1 & Hfr1); [done|done|done|by eapply budget_enough| |done|].
  { simpl. unfold get_root. by rewrite Hroot. }
  rewrite (bind_Ret _ _ _ _ _ Hrun1). simpl in Hroots1, Hfr1.
  eexists. split; [reflexivity|]. simpl. split_and!.
  - by rewrite Hroots1, delete_insert_eq.
  - apply freeNodes_same_cells in Hrun1. intros l. specialize (Hrun1 l).
    simpl. done.
  - done.
Qed.

(** Copy assignment between two non-empty dictionaries, with what it does
    to the cells: the copy is built in cells that were not in use, and no
    cell in use is given back. *)
Lemma copy_assign_cells s this other t1 t2 :
  this ≠ other → is_dict s this t1 → is_dict s other t2 →
  t1 ≠ Leaf → t2 ≠ Leaf → (∀ l, l ∈ locs t1 → l ∉ locs t2) →
  ∃ s' t', copy_assign this other s = Ret () s'
     ∧ is_dict s' this t' ∧ copy_of t2 t'
     ∧ is_dict s' other t2
     ∧ (∀ l, l ∈ locs t' → l ∉ dom (nodes s))
     ∧ dom (nodes s) ⊆ dom (nodes s').
Proof.
  intros Hne [Hroot1 Hrep1 Hnd1] [Hroot2 Hrep2 Hnd2] Ht1 Ht2 Hdisj.
  unfold copy_assign. rewrite decide_True by done.
  rewrite (bind_Ret budget _ s _ s eq_refl).
  destruct (freeNodes_spec (2 + 2 * size (nodes s)) (RootOf this) s None t1)
    as (s1 & Hrun1 & Hroots1 & Hfr1); [done|done|done|by eapply budget_enough| |done|].
  { simpl. unfold get_root. by rewrite Hroot1. }
  rewrite (bind_Ret _ _ _ _ _ Hrun1). simpl in Hroots1, Hfr1.
  pose proof (same_cells_dom _ _ (freeNodes_same_cells _ _ _ _ Hrun1)) as Hdom1.
  assert (get_root other s1 = Ret (root_ptr t2) s1) as Hget.
  { unfold get_root. rewrite Hroots1, lookup_insert_ne by done. by rewrite Hroot2. }
  rewrite (bind_Ret _ _ _ _ _ Hget).
  assert (rep (nodes s1) None t2) as Hrep2'.
  { eapply rep_frame; [|exact Hrep2]. intros l Hl. apply Hfr1.
    intros Hin. by apply (Hdisj l). }
  destruct (copy_spec t2 (2 + 2 * size (nodes s)) s1 None Hrep2' Ht2
              (budget_enough _ _ _ Hrep2 Hnd2))
    as (s2 & t' & Hrun2 & Hroots2 & Hrep' & Hshape & Hnd' & Hfresh & Hold).
  rewrite (bind_Ret _ _ _ _ _ Hrun2).
  assert (roots s2 !! this = Some None) as Hthis2.
  { by rewrite Hroots2, Hroots1, lookup_insert_eq. }
  eexists. exists t'. split.
  { unfold set_root. rewrite Hthis2. reflexivity. }
  split_and!.
  - split; simpl; [by rewrite lookup_insert_eq|done|done].
  - done.
  - split; simpl; [|..|done].
    + rewrite lookup_insert_ne by done.
      rewrite Hroots2, Hroots1, lookup_insert_ne by done. done.
    + eapply rep_frame; [|exact Hrep2']. intros l Hl. apply Hold.
      by eapply rep_dom.
  - intros l Hl. rewrite <- Hdom1. by apply Hfresh.
  - intros l Hl. simpl. rewrite <- Hdom1 in Hl.
    apply elem_of_dom. rewrite (Hold l Hl). by apply elem_of_dom.
Qed.

(** *** The inserting [get] *)

Lemma tget_cases new key t l :
  tget new key t = Some l → l = new ∨ l ∈ locs t.
Proof.
  induction t as [|l0 tl IHl k v tr IHr]; simpl; [done|].
  destruct (key_ltb key k).
  - destruct tl as [|l1 tl1 k1 v1 tr1].
    + destruct tr as [|l2 tl2 k2 v2 tr2]; [done|]. intros [= <-]. right.
      simpl. set_solver.
    + intros [Hl|Hl]%IHl; [by left|right]. set_solver.
  - destruct tr as [|l2 tl2 k2 v2 tr2].
    + intros [= <-]. by left.
    + intros [Hl|Hl]%IHr; [by left|right]. set_solver.
Qed.

(** *** Printing *)

Lemma append_assoc (a b c : string) : (a +:+ b) +:+ c = a +:+ (b +:+ c).
Proof.
  induction a as [|x a IH]; [done|].
  change (String x ((a +:+ b) +:+ c) = String x (a +:+ (b +:+ c))).
  by rewrite IH.
Qed.

Lemma append_empty_r (a : string) : a +:+ "" = a.
Proof.
  induction a as [|x a IH]; [done|].
  change (String x (a +:+ "") = String x a). by rewrite IH.
Qed.

Lemma blanks_shift n (x : string) : blanks n +:+ (" " +:+ x) = " " +:+ (blanks n +:+ x).
Proof.
  induction n as [|n IH]; [done|]. cbn [blanks].
  by rewrite !append_assoc, IH.
Qed.

Lemma line_left prefix (x : list bool * K) :
  line (" " +:+ prefix +:+ "0") x = line prefix (prod_map (cons false) id x).
Proof.
  destruct x as [p k]. unfold line. cbn [prod_map fst snd id length digits blanks].
  do 2 f_equal. by rewrite !append_assoc, blanks_shift.
Qed.

Lemma line_right prefix (x : list bool * K) :
  line (" " +:+ prefix +:+ "1") x = line prefix (prod_map (cons true) id x).
Proof.
  destruct x as [p k]. unfold line. cbn [prod_map fst snd id length digits blanks].
  do 2 f_equal. by rewrite !append_assoc, blanks_shift.
Qed.

Lemma line_root prefix (k : K) :
  line prefix ([], k) = [Text prefix; Text ": "; KeyText k; Endl].
Proof.
  unfold line. cbn [fst snd length blanks digits].
  change ("" +:+ prefix +:+ "") with (prefix +:+ ""). by rewrite append_empty_r.
Qed.

Lemma lines_left prefix (ps : list (list bool * K)) :
  line prefix <$> (prod_map (cons false) id <$> ps)
  = line (" " +:+ prefix +:+ "0") <$> ps.
Proof.
  rewrite <- list_fmap_compose. apply list_fmap_ext.
  intros _ x _. simpl. symmetry. apply line_left.
Qed.

Lemma lines_right prefix (ps : list (list bool * K)) :
  line prefix <$> (prod_map (cons true) id <$> ps)
  = line (" " +:+ prefix +:+ "1") <$> ps.
Proof.
  rewrite <- list_fmap_compose. apply list_fmap_ext.
  intros _ x _. simpl. symmetry. apply line_right.
Qed.

Lemma printR_spec t : ∀ fuel out prefix s b,
  rep (nodes s) b t → height t < fuel →
  printR fuel out prefix (root_ptr t) s
  = Ret (out ++ concat (line prefix <$> paths t)) s.
Proof.
  induction t as [|l tl IHl k v tr IHr]; intros fuel out prefix s b Hrep Hf.
  - destruct fuel; [lia|]. simpl. by rewrite app_nil_r.
  - destruct fuel; [lia|]. cbn [height] in Hf. destruct Hrep as (Hl & Hrl & Hrr).
    cbn [printR root_ptr paths].
    rewrite (bind_Ret _ _ _ _ _ (load_Some _ _ _ Hl)).
    rewrite fmap_app, concat_app, fmap_cons. cbn [concat]. rewrite line_root.
    rewrite lines_left, lines_right.
    assert ((if hasLeft (mkNode k v (root_ptr tl) (root_ptr tr) b)
             then printR fuel out (" " +:+ prefix +:+ "0")
                    (left (mkNode k v (root_ptr tl) (root_ptr tr) b))
             else mret out) s
            = Ret (out ++ concat (line (" " +:+ prefix +:+ "0") <$> paths tl)) s)
      as Hleft.
    { unfold hasLeft. cbn [left]. destruct tl as [|l1 tl1 k1 v1 tr1].
      - simpl. by rewrite app_nil_r.
      - apply (IHl fuel out _ s (Some l) Hrl). lia. }
    rewrite (bind_Ret _ _ _ _ _ Hleft).
    rewrite (bind_Ret _ _ _ _ _ (load_Some _ _ _ Hl)).
    rewrite (bind_Ret _ _ _ _ _ (load_Some _ _ _ Hl)).
    unfold hasRight. cbn [right data]. destruct tr as [|l1 tl1 k1 v1 tr1].
    + simpl. by rewrite <- app_assoc.
    + cbn [root_ptr].
      pose proof (IHr fuel
                    ((out ++ concat (line (" " +:+ prefix +:+ "0") <$> paths tl))
                     ++ [Text prefix; Text ": "; KeyText k; Endl])
                    (" " +:+ prefix +:+ "1") s (Some l) Hrr) as Hright.
      cbn [root_ptr] in Hright. rewrite Hright by lia.
      f_equal. rewrite <- !app_assoc. done.
Qed.

Lemma paths_keys t : (paths t).*2 = keys t.
Proof.
  induction t as [|l tl IHl k v tr IHr]; simpl; [done|].
  rewrite fmap_app, fmap_cons, <- !list_fmap_compose. simpl.
  by rewrite <- IHl, <- IHr.
Qed.

(** *** Removing a leaf *)

(** Two stores that hold the same tree agree on its cells. *)
Lemma rep_agree h h' b t l :
  rep h b t → rep h' b t → l ∈ locs t → h !! l = h' !! l.
Proof.
  revert b. induction t as [|l0 tl IHl k v tr IHr]; intros b; simpl.
  - by intros _ _ ?%elem_of_nil.
  - intros (Hl0 & Hrl & Hrr) (Hl0' & Hrl' & Hrr').
    rewrite elem_of_app, elem_of_cons. intros [Hin|[->|Hin]].
    + by eapply IHl.
    + by rewrite Hl0, Hl0'.
    + by eapply IHr.
Qed.

Lemma tadd_root new key (v : V) l0 tl0 k0 v0 tr0 :
  key_eqb k0 key = false →
  ∃ tl' tr', tadd new key v (Tree l0 tl0 k0 v0 tr0) = Tree l0 tl' k0 v0 tr'.
Proof. intros Hk0. simpl. rewrite Hk0. destruct (key_ltb key k0); by eexists _, _. Qed.

Lemma tremove_root key l0 tl0 k0 (v0 : V) tr0 :
  key_eqb k0 key = false →
  ∃ tl' tr', tremove key (Tree l0 tl0 k0 v0 tr0) = Tree l0 tl' k0 v0 tr'.
Proof. intros Hk0. simpl. rewrite Hk0. destruct (key_ltb key k0); by eexists _, _. Qed.

Lemma absent_subtree key t : bst t → key ∉ keys t → subtree_at key t = Leaf.
Proof.
  intros Hbst Hout. apply subtree_at_Leaf. apply not_true_is_false.
  by rewrite (found_iff key t Hbst).
Qed.

(** Removing a key held by a node without children leaves every other
    key with the value it had. *)
Lemma descend_tremove_leaf key x t l k v :
  subtree_at key t = Tree l Leaf k v Leaf → x ≠ key →
  snd <$> descend x (tremove key t) = snd <$> descend x t.
Proof.
  intros Hsub Hne. induction t as [|l0 tl IHl k0 v0 tr IHr]; simpl in *; [done|].
  destruct (key_eqb k0 key) eqn:Ek.
  - injection Hsub as -> -> -> -> ->. simpl.
    apply key_eqb_eq in Ek as ->. rewrite (key_neqb key x) by done.
    by destruct (key_ltb x key).
  - destruct (key_ltb key k0); simpl;
      destruct (key_eqb k0 x); try done; destruct (key_ltb x k0); auto.
Qed.

End More.

(** ** Membership, insertion and removal *)

Lemma two_dicts_first : is_dict two_dicts 0 (Tree 0 Leaf 5 50 Leaf)%Z.
Proof. split; [reflexivity|simpl; by repeat split|]. apply NoDup_singleton. Qed.

Lemma two_dicts_second : is_dict two_dicts 1 (Tree 1 Leaf 1 10 Leaf)%Z.
Proof. split; [reflexivity|simpl; by repeat split|]. apply NoDup_singleton. Qed.

Lemma fresh_dict_is_dict : is_dict fresh_dict 0 (@Leaf Z Z).
Proof. split; [reflexivity|done|apply NoDup_nil_2]. Qed.

(** X1.  On a dictionary holding a search tree, [has(key)] returns, leaves
    the store as it was, and answers true exactly for the keys of the
    tree. *)
Theorem has_decides_membership {K V} `{KeyOps K} `{DefaultInit V} `{!KeyLaws K}
    (s : Store K V) this t key :
  is_dict s this t → bst t →
  ∃ b, has this key s = Ret b s ∧ (b = true ↔ key ∈ keys t).
Proof.
  intros Hd Hbst. exists (found key t). split; [by apply has_spec|].
  by apply found_iff.
Qed.

Lemma has_decides_membership_witness :
  is_dict dict7 0 tree7 ∧ bst tree7
  ∧ ∃ b, has 0 7%Z dict7 = Ret b dict7 ∧ (b = true ↔ 7%Z ∈ keys tree7).
Proof.
  split; [exact dict7_is_dict|]. split; [exact tree7_bst|].
  exact (has_decides_membership dict7 0 tree7 7%Z dict7_is_dict tree7_bst).
Defined.

(** X2.  [add(key, value)] on a dictionary holding a search tree, empty or
    not, returns and leaves it holding a search tree whose keys are the
    former keys and [key]; an iteration over the dictionary then yields
    exactly these keys, and the root of no other dictionary has changed. *)
Theorem add_keeps_search_tree {K V} `{KeyOps K} `{DefaultInit V} `{!KeyLaws K}
    (s : Store K V) this t key v :
  is_dict s this t → bst t →
  ∃ s' t', add this key v s = Ret () s'
     ∧ is_dict s' this t' ∧ bst t'
     ∧ (∀ x, x ∈ keys t' ↔ x = key ∨ x ∈ keys t)
     ∧ iteration this s' = Ret (keys t') s'
     ∧ (∀ o, o ≠ this → roots s' !! o = roots s !! o).
Proof.
  intros Hd Hbst.
  destruct (add_spec s this t key v Hd) as (s' & Hrun & Hd' & _ & Hroots & _).
  exists s', (tadd (fresh (dom (nodes s))) key v t).
  split_and!; [done|done|by apply bst_tadd|intros x; apply keys_tadd| |done].
  apply iteration_spec; [done|]. intros Heq.
  pose proof (found_tadd (fresh (dom (nodes s))) key v t) as Hf.
  by rewrite Heq in Hf.
Qed.

Lemma add_keeps_search_tree_witness :
  is_dict dict7 0 tree7 ∧ bst tree7
  ∧ ∃ s' t', add 0 6%Z 60%Z dict7 = Ret () s'
     ∧ is_dict s' 0 t' ∧ bst t'
     ∧ (∀ x, x ∈ keys t' ↔ x = 6%Z ∨ x ∈ keys tree7)
     ∧ iteration 0 s' = Ret (keys t') s'
     ∧ (∀ o, o ≠ 0 → roots s' !! o = roots dict7 !! o).
Proof.
  split; [exact dict7_is_dict|]. split; [exact tree7_bst|].
  exact (add_keeps_search_tree dict7 0 tree7 6%Z 60%Z dict7_is_dict tree7_bst).
Defined.

(** X3.  After [add(key, value)] the const [get(key)] reads the value
    [key] was bound to before the call if it was bound, and [value]
    otherwise: [add] never overwrites.  Every other key reads as before,
    and every other absent key is still reported absent. *)
Theorem add_then_get {K V} `{KeyOps K} `{DefaultInit V} `{!KeyLaws K}
    (s : Store K V) this t key v :
  is_dict s this t → bst t →
  ∃ s', add this key v s = Ret () s'
     ∧ (∀ w, (key, w) ∈ bindings t →
          ∃ r, get_const this key s' = Ret r s' ∧ read_ref r s' = Ret w s')
     ∧ (key ∉ keys t →
          ∃ r, get_const this key s' = Ret r s' ∧ read_ref r s' = Ret v s')
     ∧ (∀ x w, x ≠ key → (x, w) ∈ bindings t →
          ∃ r, get_const this x s' = Ret r s' ∧ read_ref r s' = Ret w s')
     ∧ (∀ x, x ≠ key → x ∉ keys t →
          get_const this x s' = Throw InvalidArgument s').
Proof.
  intros Hd Hbst.
  destruct (add_spec s this t key v Hd) as (s' & Hrun & Hd' & _).
  exists s'. split_and!; [done|..].
  - intros w Hin. eapply get_const_reads; [done|].
    by rewrite descend_tadd_same, (descend_bound _ _ _ Hbst Hin).
  - intros Hout. eapply get_const_reads; [done|].
    by rewrite descend_tadd_same, (descend_unbound _ _ Hbst Hout).
  - intros x w Hne Hin. eapply get_const_reads; [done|].
    rewrite descend_tadd_other by done. by apply descend_bound.
  - intros x Hne Hout. eapply get_const_throws; [done|].
    rewrite descend_tadd_other by done. by apply descend_unbound.
Qed.

Lemma add_then_get_witness :
  is_dict dict7 0 tree7 ∧ bst tree7
  ∧ ∃ s', add 0 4%Z 99%Z dict7 = Ret () s'
     ∧ (∀ w, (4%Z, w) ∈ bindings tree7 →
          ∃ r, get_const 0 4%Z s' = Ret r s' ∧ read_ref r s' = Ret w s')
     ∧ (4%Z ∉ keys tree7 →
          ∃ r, get_const 0 4%Z s' = Ret r s' ∧ read_ref r s' = Ret 99%Z s')
     ∧ (∀ x w, x ≠ 4%Z → (x, w) ∈ bindings tree7 →
          ∃ r, get_const 0 x s' = Ret r s' ∧ read_ref r s' = Ret w s')
     ∧ (∀ x, x ≠ 4%Z → x ∉ keys tree7 →
          get_const 0 x s' = Throw InvalidArgument s').
Proof.
  split; [exact dict7_is_dict|]. split; [exact tree7_bst|].
  exact (add_then_get dict7 0 tree7 4%Z 99%Z dict7_is_dict tree7_bst).
Defined.

(** X4.  [add] of a key that is not in the dictionary allocates exactly one
    node cell and gives none back. *)
Theorem add_allocates_one_cell {K V} `{KeyOps K} `{DefaultInit V} `{!KeyLaws K}
    (s : Store K V) this t key v :
  is_dict s this t → bst t → key ∉ keys t →
  ∃ s', add this key v s = Ret () s'
     ∧ dom (nodes s) ⊆ dom (nodes s')
     ∧ size (nodes s') = S (size (nodes s)).
Proof.
  intros Hd Hbst Hout.
  assert (found key t = false) as Hf.
  { apply not_true_is_false. by rewrite (found_iff key t Hbst). }
  destruct (add_spec s this t key v Hd) as (s' & Hrun & _).
  pose proof (add_dom s this t key v s' Hd Hf Hrun) as Hdom.
  exists s'. split_and!; [done|rewrite Hdom; set_solver|].
  rewrite <- !(size_dom (D := gset nat)), Hdom.
  rewrite size_union by (apply disjoint_singleton_l, is_fresh).
  by rewrite size_singleton.
Qed.

Lemma add_allocates_one_cell_witness :
  is_dict dict7 0 tree7 ∧ bst tree7 ∧ 6%Z ∉ keys tree7
  ∧ ∃ s', add 0 6%Z 60%Z dict7 = Ret () s'
     ∧ dom (nodes dict7) ⊆ dom (nodes s')
     ∧ size (nodes s') = S (size (nodes dict7)).
Proof.
  assert (6%Z ∉ keys tree7) as Hout by (by vm_compute; set_solver).
  split; [exact dict7_is_dict|]. split; [exact tree7_bst|]. split; [exact Hout|].
  exact (add_allocates_one_cell dict7 0 tree7 6%Z 60%Z dict7_is_dict tree7_bst Hout).
Defined.

(** X5.  [remove(key)], for a key other than the one at the root, on a
    dictionary holding a search tree: the call returns and leaves a search
    tree whose keys are the former keys without [key]; an iteration then
    yields exactly these keys; a key that was not there leaves the store
    untouched; and the root of no other dictionary has changed. *)
Theorem remove_keeps_search_tree {K V} `{KeyOps K} `{DefaultInit V} `{!KeyLaws K}
    (s : Store K V) this t key l0 tl0 k0 v0 tr0 :
  is_dict s this t → bst t →
  t = Tree l0 tl0 k0 v0 tr0 → k0 ≠ key →
  ∃ s' t', remove this key s = Ret () s'
     ∧ is_dict s' this t' ∧ bst t'
     ∧ (∀ x, x ∈ keys t' ↔ x ∈ keys t ∧ x ≠ key)
     ∧ iteration this s' = Ret (keys t') s'
     ∧ (key ∉ keys t → s' = s)
     ∧ (∀ o, o ≠ this → roots s' !! o = roots s !! o).
Proof.
  intros Hd Hbst Ht Hk0%key_neqb.
  destruct (remove_spec s this t key l0 tl0 k0 v0 tr0 Hd Hbst Ht Hk0)
    as (s' & Hrun & Hd' & Hroots & _ & Hsame).
  exists s', (tremove key t).
  split_and!; [done|done|by apply bst_tremove|intros x; by apply keys_tremove| | |done].
  - apply iteration_spec; [done|]. intros Heq.
    pose proof (root_ptr_tremove key t _ _ _ _ _ Ht Hk0) as Hr.
    by rewrite Heq in Hr.
  - intros Hout. apply Hsame. by apply absent_subtree.
Qed.

Lemma remove_keeps_search_tree_witness :
  is_dict dict7 0 tree7 ∧ bst tree7 ∧ 5%Z ≠ 8%Z
  ∧ ∃ s' t', remove 0 8%Z dict7 = Ret () s'
     ∧ is_dict s' 0 t' ∧ bst t'
     ∧ (∀ x, x ∈ keys t' ↔ x ∈ keys tree7 ∧ x ≠ 8%Z)
     ∧ iteration 0 s' = Ret (keys t') s'
     ∧ (8%Z ∉ keys tree7 → s' = dict7)
     ∧ (∀ o, o ≠ 0 → roots s' !! o = roots dict7 !! o).
Proof.
  split; [exact dict7_is_dict|]. split; [exact tree7_bst|]. split; [done|].
  exact (remove_keeps_search_tree dict7 0 tree7 8%Z _ _ _ _ _
           dict7_is_dict tree7_bst eq_refl ltac:(done)).
Defined.

(** X6.  Removing the same key a second time changes nothing: after
    [remove(key)] has returned, [remove(key)] returns again and leaves the
    store exactly as the first call left it. *)
Theorem remove_twice {K V} `{KeyOps K} `{DefaultInit V} `{!KeyLaws K}
    (s : Store K V) this t key l0 tl0 k0 v0 tr0 :
  is_dict s this t → bst t →
  t = Tree l0 tl0 k0 v0 tr0 → k0 ≠ key →
  ∃ s', remove this key s = Ret () s' ∧ remove this key s' = Ret () s'.
Proof.
  intros Hd Hbst Ht Hk0%key_neqb.
  destruct (remove_spec s this t key l0 tl0 k0 v0 tr0 Hd Hbst Ht Hk0)
    as (s' & Hrun & Hd' & _).
  exists s'. split; [done|].
  pose proof (bst_tremove key t Hbst) as Hbst'.
  destruct (tremove_root key l0 tl0 k0 v0 tr0 Hk0) as (tl' & tr' & Ht').
  rewrite <- Ht in Ht'.
  destruct (remove_spec s' this _ key l0 tl' k0 v0 tr' Hd' Hbst' Ht' Hk0)
    as (s'' & Hrun' & _ & _ & _ & Hsame).
  rewrite Hrun'. f_equal. apply Hsame. apply absent_subtree; [done|].
  rewrite keys_tremove by done. by intros [_ ?].
Qed.

Lemma remove_twice_witness :
  is_dict dict7 0 tree7 ∧ bst tree7 ∧ 5%Z ≠ 3%Z
  ∧ ∃ s', remove 0 3%Z dict7 = Ret () s' ∧ remove 0 3%Z s' = Ret () s'.
Proof.
  split; [exact dict7_is_dict|]. split; [exact tree7_bst|]. split; [done|].
  exact (remove_twice dict7 0 tree7 3%Z _ _ _ _ _
           dict7_is_dict tree7_bst eq_refl ltac:(done)).
Defined.

(** X7.  [add] of a key that is not in a non-empty dictionary, followed by
    [remove] of that key, gives back the store the two calls started from:
    the same cells with the same contents, and the same roots. *)
Theorem add_then_remove_restores {K V} `{KeyOps K} `{DefaultInit V} `{!KeyLaws K}
    (s : Store K V) this t key v :
  is_dict s this t → bst t → t ≠ Leaf → key ∉ keys t →
  ∃ s1, add this key v s = Ret () s1 ∧ remove this key s1 = Ret () s.
Proof.
  intros Hd Hbst Hne Hout. set (new := fresh (dom (nodes s))).
  assert (found key t = false) as Hf.
  { apply not_true_is_false. by rewrite (found_iff key t Hbst). }
  destruct (add_spec s this t key v Hd) as (s1 & Hrun1 & Hd1 & _ & Hroots1 & Hfr1).
  fold new in Hd1, Hfr1.
  pose proof (add_dom s this t key v s1 Hd Hf Hrun1) as Hdom1. fold new in Hdom1.
  pose proof (bst_tadd new key v t Hbst) as Hbst1.
  pose proof (locs_tadd new key v t) as Hperm. rewrite Hf in Hperm.
  destruct t as [|l0 tl0 k0 v0 tr0]; [done|].
  assert (key_eqb k0 key = false) as Hk0.
  { apply key_neqb. intros ->. apply Hout. simpl. set_solver. }
  destruct (tadd_root new key v l0 tl0 k0 v0 tr0 Hk0) as (tl' & tr' & Ht1).
  destruct (remove_spec s1 this _ key l0 tl' k0 v0 tr' Hd1 Hbst1 Ht1 Hk0)
    as (s2 & Hrun2 & Hd2 & Hroots2 & Hfr2 & _).
  rewrite tremove_tadd in Hd2 by done.
  assert (key ∈ keys (tadd new key v (Tree l0 tl0 k0 v0 tr0))) as Hin1.
  { apply keys_tadd. by left. }
  destruct (remove_frees s1 this _ key l0 tl' k0 v0 tr' s2 Hd1 Hbst1 Ht1 Hk0 Hin1 Hrun2)
    as (d & Hd_in & Hdom2).
  exists s1. split; [done|]. rewrite Hrun2. f_equal.
  destruct Hd as [Hroot Hrep Hnd]. destruct Hd2 as [Hroot2 Hrep2 _].
  assert (d = new) as ->.
  { rewrite Hperm in Hd_in. apply elem_of_cons in Hd_in as [->|Hd_in]; [done|].
    pose proof (rep_dom _ _ _ _ Hrep2 Hd_in) as Hdd. rewrite Hdom2 in Hdd.
    set_solver. }
  assert (nodes s2 = nodes s) as Hnodes.
  { apply map_eq. intros l.
    destruct (decide (l = new)) as [->|Hnew].
    { transitivity (@None (Node K V)); [|symmetry].
      - apply not_elem_of_dom. rewrite Hdom2. set_solver.
      - apply not_elem_of_dom. apply is_fresh. }
    destruct (decide (l ∈ locs (Tree l0 tl0 k0 v0 tr0))) as [Hin|Hnin].
    { by eapply rep_agree. }
    rewrite Hfr2, Hfr1; [done|done|done|]. rewrite Hperm. set_solver. }
  assert (roots s2 = roots s) as Hroots.
  { apply map_eq. intros o. destruct (decide (o = this)) as [->|Ho].
    - by rewrite Hroot2, Hroot.
    - by rewrite Hroots2, Hroots1. }
  destruct s, s2. simpl in *. by subst.
Qed.

Lemma add_then_remove_restores_witness :
  is_dict dict7 0 tree7 ∧ bst tree7 ∧ tree7 ≠ Leaf ∧ 6%Z ∉ keys tree7
  ∧ ∃ s1, add 0 6%Z 60%Z dict7 = Ret () s1 ∧ remove 0 6%Z s1 = Ret () dict7.
Proof.
  assert (6%Z ∉ keys tree7) as Hout by (by vm_compute; set_solver).
  split; [exact dict7_is_dict|]. split; [exact tree7_bst|]. split; [done|].
  split; [exact Hout|].
  exact (add_then_remove_restores dict7 0 tree7 6%Z 60%Z
           dict7_is_dict tree7_bst ltac:(done) Hout).
Defined.

(** X8.  [remove] of a key that is in the dictionary, other than the one
    at the root, gives back exactly one node cell, a cell of the tree, and
    allocates none. *)
Theorem remove_frees_one_cell {K V} `{KeyOps K} `{DefaultInit V} `{!KeyLaws K}
    (s : Store K V) this t key l0 tl0 k0 v0 tr0 :
  is_dict s this t → bst t →
  t = Tree l0 tl0 k0 v0 tr0 → k0 ≠ key → key ∈ keys t →
  ∃ s' d, remove this key s = Ret () s'
     ∧ d ∈ locs t
     ∧ dom (nodes s') = dom (nodes s) ∖ {[d]}
     ∧ size (nodes s) = S (size (nodes s')).
Proof.
  intros Hd Hbst Ht Hk0%key_neqb Hin.
  destruct (remove_spec s this t key l0 tl0 k0 v0 tr0 Hd Hbst Ht Hk0)
    as (s' & Hrun & _).
  destruct (remove_frees s this t key l0 tl0 k0 v0 tr0 s' Hd Hbst Ht Hk0 Hin Hrun)
    as (d & Hd_in & Hdom).
  exists s', d. split_and!; [done|done|done|].
  destruct Hd as [_ Hrep _]. pose proof (rep_dom _ _ _ _ Hrep Hd_in) as Hdd.
  assert (dom (nodes s) = {[d]} ∪ dom (nodes s')) as Hsplit.
  { rewrite Hdom. apply union_difference_singleton_L. done. }
  rewrite <- !(size_dom (D := gset nat)), Hsplit.
  rewrite size_union by (rewrite Hdom; set_solver).
  by rewrite size_singleton.
Qed.

Lemma remove_frees_one_cell_witness :
  is_dict dict7 0 tree7 ∧ bst tree7 ∧ 5%Z ≠ 8%Z ∧ 8%Z ∈ keys tree7
  ∧ ∃ s' d, remove 0 8%Z dict7 = Ret () s'
     ∧ d ∈ locs tree7
     ∧ dom (nodes s') = dom (nodes dict7) ∖ {[d]}
     ∧ size (nodes dict7) = S (size (nodes s')).
Proof.
  assert (8%Z ∈ keys tree7) as Hin by (vm_compute; set_solver).
  split; [exact dict7_is_dict|]. split; [exact tree7_bst|]. split; [done|].
  split; [exact Hin|].
  exact (remove_frees_one_cell dict7 0 tree7 8%Z _ _ _ _ _
           dict7_is_dict tree7_bst eq_refl ltac:(done) Hin).
Defined.

(** ** Destruction, copy and move *)

(** X9.  The destructor of a non-empty dictionary returns and ends the
    object's lifetime, but gives back no node: [freeNodes] only clears
    links, so every cell that was in use is still in use and still holds
    its key, its value and its parent pointer.  No cell outside the tree
    changes, and a dictionary that shares no node with the destroyed one
    holds the tree it held. *)
Theorem destructor_frees_nothing {K V} `{KeyOps K} `{DefaultInit V} `{!KeyLaws K}
    (s : Store K V) this t :
  is_dict s this t → t ≠ Leaf →
  ∃ s', destroy this s = Ret () s'
     ∧ roots s' = delete this (roots s)
     ∧ dom (nodes s') = dom (nodes s)
     ∧ same_cells s s'
     ∧ (∀ l, l ∉ locs t → nodes s' !! l = nodes s !! l)
     ∧ (∀ other t2, other ≠ this → is_dict s other t2 →
          (∀ l, l ∈ locs t2 → l ∉ locs t) → is_dict s' other t2).
Proof.
  intros Hd Hne.
  destruct (destroy_spec s this t Hd Hne) as (s' & Hrun & Hroots & Hsame & Hfr).
  exists s'. split_and!; [done|done|by apply same_cells_dom|done|done|].
  intros other t2 Ho [Hroot2 Hrep2 Hnd2] Hdisj. split; [|..|done].
  - rewrite Hroots. by rewrite lookup_delete_ne.
  - eapply rep_frame; [|exact Hrep2]. intros l Hl. apply Hfr. by apply Hdisj.
Qed.

Lemma destructor_frees_nothing_witness :
  is_dict dict7 0 tree7 ∧ tree7 ≠ Leaf
  ∧ ∃ s', destroy 0 dict7 = Ret () s'
     ∧ roots s' = delete 0 (roots dict7)
     ∧ dom (nodes s') = dom (nodes dict7)
     ∧ same_cells dict7 s'
     ∧ (∀ l, l ∉ locs tree7 → nodes s' !! l = nodes dict7 !! l)
     ∧ (∀ other t2, other ≠ 0 → is_dict dict7 other t2 →
          (∀ l, l ∈ locs t2 → l ∉ locs tree7) → is_dict s' other t2).
Proof.
  split; [exact dict7_is_dict|]. split; [done|].
  exact (destructor_frees_nothing dict7 0 tree7 dict7_is_dict ltac:(done)).
Defined.

(** X10.  Copy assignment between two distinct non-empty dictionaries that
    share no node returns; the target then iterates over the keys of the
    source; for each of these keys the const [get] returns a reference into
    a cell that was not in use before the call, so not into a node of the
    source, and for every other key it throws; the source holds the tree it
    held; and the nodes the target held before are still allocated although
    the target no longer reaches them. *)
Theorem copy_assign_copies_keys {K V} `{KeyOps K} `{DefaultInit V} `{!KeyLaws K}
    (s : Store K V) this other t1 t2 :
  this ≠ other → is_dict s this t1 → is_dict s other t2 →
  t1 ≠ Leaf → t2 ≠ Leaf → bst t2 → (∀ l, l ∈ locs t1 → l ∉ locs t2) →
  ∃ s' t', copy_assign this other s = Ret () s'
     ∧ is_dict s' this t' ∧ is_dict s' other t2
     ∧ iteration this s' = Ret (keys t2) s'
     ∧ (∀ k, k ∈ keys t2 →
          ∃ l, get_const this k s' = Ret (ValueOf l) s'
               ∧ l ∈ locs t' ∧ l ∉ dom (nodes s))
     ∧ (∀ k, k ∉ keys t2 → get_const this k s' = Throw InvalidArgument s')
     ∧ (∀ l, l ∈ locs t1 → l ∈ dom (nodes s') ∧ l ∉ locs t').
Proof.
  intros Hne Hd1 Hd2 Ht1 Ht2 Hbst Hdisj.
  destruct (copy_assign_cells s this other t1 t2 Hne Hd1 Hd2 Ht1 Ht2 Hdisj)
    as (s' & t' & Hrun & Hd' & Hcopy & Hd2' & Hfresh & Hsub).
  pose proof (copy_of_bst _ _ Hcopy Hbst) as Hbst'.
  exists s', t'. split_and!; [done|done|done|..].
  - rewrite <- (copy_of_keys _ _ Hcopy). apply iteration_spec; [done|].
    by eapply copy_of_Leaf.
  - intros k Hk. rewrite <- (copy_of_keys _ _ Hcopy) in Hk.
    apply (found_iff k t' Hbst') in Hk. unfold found in Hk.
    rewrite (get_const_descend _ _ _ k Hd').
    destruct (descend k t') as [[l v]|] eqn:Hdesc; [|done].
    destruct (descend_sound _ _ _ _ Hdesc) as [_ Hl].
    exists l. split_and!; [done|done|by apply Hfresh].
  - intros k Hk. eapply get_const_throws; [done|]. apply descend_unbound; [done|].
    by rewrite (copy_of_keys _ _ Hcopy).
  - intros l Hl. destruct Hd1 as [_ Hrep1 _].
    pose proof (rep_dom _ _ _ _ Hrep1 Hl) as Hdom. split; [by apply Hsub|].
    intros Hin. by apply (Hfresh l Hin).
Qed.

Lemma copy_assign_copies_keys_witness :
  1 ≠ 0 ∧ is_dict two_dicts 1 (Tree 1 Leaf 1 10 Leaf)%Z
  ∧ is_dict two_dicts 0 (Tree 0 Leaf 5 50 Leaf)%Z
  ∧ Tree 1 Leaf 1%Z 10%Z Leaf ≠ Leaf ∧ Tree 0 Leaf 5%Z 50%Z Leaf ≠ Leaf
  ∧ bst (Tree 0 Leaf 5 50 Leaf)%Z
  ∧ (∀ l, l ∈ locs (Tree 1 Leaf 1 10 Leaf)%Z → l ∉ locs (Tree 0 Leaf 5 50 Leaf)%Z)
  ∧ ∃ s' t', copy_assign 1 0 two_dicts = Ret () s'
     ∧ is_dict s' 1 t' ∧ is_dict s' 0 (Tree 0 Leaf 5 50 Leaf)%Z
     ∧ iteration 1 s' = Ret (keys (Tree 0 Leaf 5 50 Leaf)%Z) s'
     ∧ (∀ k, k ∈ keys (Tree 0 Leaf 5 50 Leaf)%Z →
          ∃ l, get_const 1 k s' = Ret (ValueOf l) s'
               ∧ l ∈ locs t' ∧ l ∉ dom (nodes two_dicts))
     ∧ (∀ k, k ∉ keys (Tree 0 Leaf 5 50 Leaf)%Z →
          get_const 1 k s' = Throw InvalidArgument s')
     ∧ (∀ l, l ∈ locs (Tree 1 Leaf 1 10 Leaf)%Z → l ∈ dom (nodes s') ∧ l ∉ locs t').
Proof.
  assert (bst (Tree 0 Leaf 5 50 Leaf)%Z) as Hbst by (simpl; by repeat split).
  assert (∀ l, l ∈ locs (Tree 1 Leaf 1 10 Leaf)%Z
               → l ∉ locs (Tree 0 Leaf 5 50 Leaf)%Z) as Hdisj.
  { intros l. simpl. set_solver. }
  split; [done|]. split; [exact two_dicts_second|]. split; [exact two_dicts_first|].
  split; [done|]. split; [done|]. split; [exact Hbst|]. split; [exact Hdisj|].
  exact (copy_assign_copies_keys two_dicts 1 0 _ _ ltac:(done)
           two_dicts_second two_dicts_first ltac:(done) ltac:(done) Hbst Hdisj).
Defined.

(** X11.  After such a copy assignment the two dictionaries are
    independent: whatever sequence of [add] and [remove] calls runs to its
    end on one of them, the other still iterates over the keys of the
    source, and the source still binds them to its own values. *)
Theorem copy_assign_independent_both_ways {K V} `{KeyOps K} `{DefaultInit V}
    `{!KeyLaws K} (s : Store K V) this other t1 t2 :
  this ≠ other → is_dict s this t1 → is_dict s other t2 →
  t1 ≠ Leaf → t2 ≠ Leaf → bst t2 → (∀ l, l ∈ locs t1 → l ∉ locs t2) →
  ∃ s1, copy_assign this other s = Ret () s1
     ∧ (∀ ops s2, run (apply_op this <$> ops) s1 = Ret () s2 →
          iteration other s2 = Ret (keys t2) s2
          ∧ ∀ k v, (k, v) ∈ bindings t2 →
              ∃ r, get_const other k s2 = Ret r s2 ∧ read_ref r s2 = Ret v s2)
     ∧ (∀ ops s2, run (apply_op other <$> ops) s1 = Ret () s2 →
          iteration this s2 = Ret (keys t2) s2).
Proof.
  intros Hne Hd1 Hd2 Ht1 Ht2 Hbst Hdisj.
  destruct (copy_assign_spec s this other t1 t2 Hne Hd1 Hd2 Ht1 Ht2 Hdisj)
    as (s1 & t' & Hrun & Hd' & Hcopy & Hd2' & Hfresh & _).
  pose proof (copy_of_bst _ _ Hcopy Hbst) as Hbst'.
  exists s1. split_and!; [done|..].
  - intros ops s2 Hops.
    pose proof (run_ops_frame this other t2 ops s1 t' s2 Hne Hd' Hbst' Hd2' Hfresh Hops)
      as Hd2''.
    split; [by apply iteration_spec|].
    intros k v Hin. by eapply get_const_binding.
  - intros ops s2 Hops.
    assert (∀ l, l ∈ locs t2 → l ∉ locs t') as Hfresh'.
    { intros l Hl Hl'. by apply (Hfresh l). }
    pose proof (run_ops_frame other this t' ops s1 t2 s2 (not_eq_sym Hne)
                  Hd2' Hbst Hd' Hfresh' Hops) as Hd''.
    rewrite <- (copy_of_keys _ _ Hcopy). apply iteration_spec; [done|].
    by eapply copy_of_Leaf.
Qed.

Lemma copy_assign_independent_both_ways_witness :
  1 ≠ 0 ∧ is_dict two_dicts 1 (Tree 1 Leaf 1 10 Leaf)%Z
  ∧ is_dict two_dicts 0 (Tree 0 Leaf 5 50 Leaf)%Z
  ∧ Tree 1 Leaf 1%Z 10%Z Leaf ≠ Leaf ∧ Tree 0 Leaf 5%Z 50%Z Leaf ≠ Leaf
  ∧ bst (Tree 0 Leaf 5 50 Leaf)%Z
  ∧ (∀ l, l ∈ locs (Tree 1 Leaf 1 10 Leaf)%Z → l ∉ locs (Tree 0 Leaf 5 50 Leaf)%Z)
  ∧ ∃ s1, copy_assign 1 0 two_dicts = Ret () s1
     ∧ (∀ ops s2, run (apply_op 1 <$> ops) s1 = Ret () s2 →
          iteration 0 s2 = Ret (keys (Tree 0 Leaf 5 50 Leaf)%Z) s2
          ∧ ∀ k v, (k, v) ∈ bindings (Tree 0 Leaf 5 50 Leaf)%Z →
              ∃ r, get_const 0 k s2 = Ret r s2 ∧ read_ref r s2 = Ret v s2)
     ∧ (∀ ops s2, run (apply_op 0 <$> ops) s1 = Ret () s2 →
          iteration 1 s2 = Ret (keys (Tree 0 Leaf 5 50 Leaf)%Z) s2).
Proof.
  assert (bst (Tree 0 Leaf 5 50 Leaf)%Z) as Hbst by (simpl; by repeat split).
  assert (∀ l, l ∈ locs (Tree 1 Leaf 1 10 Leaf)%Z
               → l ∉ locs (Tree 0 Leaf 5 50 Leaf)%Z) as Hdisj.
  { intros l. simpl. set_solver. }
  split; [done|]. split; [exact two_dicts_second|]. split; [exact two_dicts_first|].
  split; [done|]. split; [done|]. split; [exact Hbst|]. split; [exact Hdisj|].
  exact (copy_assign_independent_both_ways two_dicts 1 0 _ _ ltac:(done)
           two_dicts_second two_dicts_first ltac:(done) ltac:(done) Hbst Hdisj).
Defined.

(** X12.  Move assignment exchanges the trees of the two dictionaries and
    touches no node and no other dictionary; applied a second time it
    restores the store. *)
Theorem move_assign_exchanges {K V} `{KeyOps K} `{DefaultInit V}
    (s : Store K V) this temp t1 t2 :
  is_dict s this t1 → is_dict s temp t2 →
  ∃ s', move_assign this temp s = Ret () s'
     ∧ is_dict s' this t2 ∧ is_dict s' temp t1
     ∧ nodes s' = nodes s
     ∧ (∀ o, o ≠ this → o ≠ temp → roots s' !! o = roots s !! o)
     ∧ move_assign this temp s' = Ret () s.
Proof.
  intros [Hr1 Hrep1 Hnd1] [Hr2 Hrep2 Hnd2].
  set (s' := mkStore (nodes s)
               (<[temp := root_ptr t1]> (<[this := root_ptr t2]> (roots s)))).
  assert (roots s' !! this = Some (root_ptr t2)) as Hr1'.
  { simpl. destruct (decide (this = temp)) as [->|Hne].
    - rewrite lookup_insert_eq. congruence.
    - rewrite lookup_insert_ne by done. by rewrite lookup_insert_eq. }
  assert (roots s' !! temp = Some (root_ptr t1)) as Hr2'.
  { simpl. by rewrite lookup_insert_eq. }
  exists s'. split_and!.
  - by apply move_assign_swaps.
  - by split.
  - by split.
  - done.
  - intros o Ho1 Ho2. simpl. by rewrite !lookup_insert_ne.
  - rewrite (move_assign_swaps s' this temp _ _ Hr1' Hr2'). f_equal.
    destruct s as [h r]. unfold s'. simpl in *. f_equal.
    apply map_eq. intros o.
    destruct (decide (o = temp)) as [->|Ho2]; [by rewrite lookup_insert_eq|].
    rewrite lookup_insert_ne by done.
    destruct (decide (o = this)) as [->|Ho1]; [by rewrite lookup_insert_eq|].
    by rewrite !lookup_insert_ne.
Qed.

Lemma move_assign_exchanges_witness :
  is_dict two_dicts 0 (Tree 0 Leaf 5 50 Leaf)%Z
  ∧ is_dict two_dicts 1 (Tree 1 Leaf 1 10 Leaf)%Z
  ∧ ∃ s', move_assign 0 1 two_dicts = Ret () s'
     ∧ is_dict s' 0 (Tree 1 Leaf 1 10 Leaf)%Z
     ∧ is_dict s' 1 (Tree 0 Leaf 5 50 Leaf)%Z
     ∧ nodes s' = nodes two_dicts
     ∧ (∀ o, o ≠ 0 → o ≠ 1 → roots s' !! o = roots two_dicts !! o)
     ∧ move_assign 0 1 s' = Ret () two_dicts.
Proof.
  split; [exact two_dicts_first|]. split; [exact two_dicts_second|].
  exact (move_assign_exchanges two_dicts 0 1 _ _ two_dicts_first two_dicts_second).
Defined.

(** ** Iteration and extreme keys *)

(** X13.  On a non-empty dictionary holding a search tree, [begin()]
    advanced with [++] until it equals [end()] returns with the store
    unchanged and yields the keys of the dictionary in strictly ascending
    order: each key for which [has] answers true, and no other. *)
Theorem iteration_ascending {K V} `{KeyOps K} `{DefaultInit V} `{!KeyLaws K}
    (s : Store K V) this t :
  is_dict s this t → bst t → t ≠ Leaf →
  ∃ ks, iteration this s = Ret ks s
     ∧ StronglySorted klt ks
     ∧ ∀ x, x ∈ ks ↔ has this x s = Ret true s.
Proof.
  intros Hd Hbst Hne. exists (keys t).
  split_and!; [by apply iteration_spec|by apply bst_sorted|].
  intros x. rewrite (has_spec _ _ _ x Hd), <- (found_iff x t Hbst).
  split; [by intros ->|]. by intros [= ->].
Qed.

Lemma iteration_ascending_witness :
  is_dict dict7 0 tree7 ∧ bst tree7 ∧ tree7 ≠ Leaf
  ∧ ∃ ks, iteration 0 dict7 = Ret ks dict7
     ∧ StronglySorted klt ks
     ∧ ∀ x, x ∈ ks ↔ has 0 x dict7 = Ret true dict7.
Proof.
  split; [exact dict7_is_dict|]. split; [exact tree7_bst|]. split; [done|].
  exact (iteration_ascending dict7 0 tree7 dict7_is_dict tree7_bst ltac:(done)).
Defined.

(** X14.  [begin(key)] on a dictionary holding a search tree: for a key
    that is not there it is [end()], and the loop over it yields nothing;
    for a key that is there the iterator designates that key, and advancing
    it until [end()] yields, in ascending order, exactly the keys that are
    not less than [key]. *)
Theorem iteration_from_key {K V} `{KeyOps K} `{DefaultInit V} `{!KeyLaws K}
    (s : Store K V) this t key :
  is_dict s this t → bst t →
  (key ∉ keys t →
     begin_key this key s = end_ this s
     ∧ iteration_from this key s = Ret [] s)
  ∧ (key ∈ keys t →
       ∃ it, begin_key this key s = Ret it s
          ∧ iter_deref it s = Ret key s
          ∧ iteration_from this key s
            = Ret (List.filter (λ x, negb (key_ltb x key)) (keys t)) s).
Proof.
  intros Hd Hbst. pose proof Hd as [Hroot Hrep Hnd].
  rewrite (begin_key_spec s this t key Hd).
  rewrite (iteration_from_spec s this t key Hd). split.
  - intros Hout. pose proof (descend_unbound key t Hbst Hout) as Hnone.
    unfold found. destruct (descend key t); [done|]. split; [|done].
    unfold end_, get_root, mbind, M_bind, bind. by rewrite Hroot.
  - intros Hin. pose proof Hin as Hf. rewrite <- (found_iff key t Hbst) in Hf.
    rewrite Hf, (keys_from_filter key t Hbst Hf).
    unfold found in Hf. destruct (descend key t) as [[l v]|] eqn:Hdesc; [|done].
    eexists. split_and!; [done| |done].
    destruct (descend_cell _ _ _ _ _ _ Hrep Hdesc) as (n & Hn & Hk & _).
    unfold iter_deref. cbn [current fmap option_fmap option_map fst].
    rewrite (bind_Ret _ _ _ _ _ (load_Some _ _ _ Hn)). by rewrite <- Hk.
Qed.

Lemma iteration_from_key_witness :
  is_dict dict7 0 tree7 ∧ bst tree7
  ∧ (4%Z ∉ keys tree7 →
       begin_key 0 4%Z dict7 = end_ 0 dict7
       ∧ iteration_from 0 4%Z dict7 = Ret [] dict7)
  ∧ (4%Z ∈ keys tree7 →
       ∃ it, begin_key 0 4%Z dict7 = Ret it dict7
          ∧ iter_deref it dict7 = Ret 4%Z dict7
          ∧ iteration_from 0 4%Z dict7
            = Ret (List.filter (λ x, negb (key_ltb x 4%Z)) (keys tree7)) dict7).
Proof.
  split; [exact dict7_is_dict|]. split; [exact tree7_bst|].
  exact (iteration_from_key dict7 0 tree7 4%Z dict7_is_dict tree7_bst).
Defined.

(** X15.  On the root of a non-empty search tree, [maxKey] returns the
    node that holds the greatest key of the tree and [minKey] the node that
    holds the least, given a step budget above the height of the tree; the
    store is unchanged. *)
Theorem maxKey_minKey_extremes {K V} `{KeyOps K} `{DefaultInit V} `{!KeyLaws K}
    (s : Store K V) b t fuel :
  rep (nodes s) b t → bst t → t ≠ Leaf → height t ≤ fuel →
  ∃ lmax nmax lmin nmin,
    maxKey fuel (root_ptr t) s = Ret (Some lmax) s
    ∧ nodes s !! lmax = Some nmax ∧ data nmax ∈ keys t
    ∧ (∀ x, x ∈ keys t → x = data nmax ∨ klt x (data nmax))
    ∧ minKey fuel (root_ptr t) s = Ret (Some lmin) s
    ∧ nodes s !! lmin = Some nmin ∧ data nmin ∈ keys t
    ∧ (∀ x, x ∈ keys t → x = data nmin ∨ klt (data nmin) x).
Proof.
  intros Hrep Hbst Hne Hh. destruct t as [|l tl k v tr]; [done|].
  destruct (tlast (Tree l tl k v tr)) as [[lmax kmax]|] eqn:El;
    [|by apply tlast_None in El].
  destruct (tfirst (Tree l tl k v tr)) as [[lmin kmin]|] eqn:Ef;
    [|by apply tfirst_None in Ef].
  destruct (tlast_cell _ _ _ _ _ Hrep El) as (_ & Hkmax & nmax & Hnmax & <-).
  destruct (tfirst_cell _ _ _ _ _ Hrep Ef) as (_ & Hkmin & nmin & Hnmin & <-).
  exists lmax, nmax, lmin, nmin. cbn [root_ptr]. cbn [height] in Hh.
  split_and!; [|done|done|by eapply tlast_max| |done|done|by eapply tfirst_min].
  - rewrite (maxKey_spec fuel s b l tl k v tr Hrep) by lia.
    simpl in El. destruct (tlast tr); by simplify_eq.
  - rewrite (minKey_spec fuel s b l tl k v tr Hrep) by lia.
    simpl in Ef. destruct (tfirst tl); by simplify_eq.
Qed.

Lemma maxKey_minKey_extremes_witness :
  rep (nodes dict7) None tree7 ∧ bst tree7 ∧ tree7 ≠ Leaf ∧ height tree7 ≤ 16
  ∧ ∃ lmax nmax lmin nmin,
    maxKey 16 (root_ptr tree7) dict7 = Ret (Some lmax) dict7
    ∧ nodes dict7 !! lmax = Some nmax ∧ data nmax ∈ keys tree7
    ∧ (∀ x, x ∈ keys tree7 → x = data nmax ∨ klt x (data nmax))
    ∧ minKey 16 (root_ptr tree7) dict7 = Ret (Some lmin) dict7
    ∧ nodes dict7 !! lmin = Some nmin ∧ data nmin ∈ keys tree7
    ∧ (∀ x, x ∈ keys tree7 → x = data nmin ∨ klt (data nmin) x).
Proof.
  assert (height tree7 ≤ 16) as Hh by (vm_compute; lia).
  split; [exact (dict_rep _ _ _ dict7_is_dict)|]. split; [exact tree7_bst|].
  split; [done|]. split; [exact Hh|].
  exact (maxKey_minKey_extremes dict7 None tree7 16
           (dict_rep _ _ _ dict7_is_dict) tree7_bst ltac:(done) Hh).
Defined.

(** ** The mutable get *)

(** X16.  The mutable [get] on a key that is in the dictionary returns a
    reference to its value and leaves the store as it was.  Assigning
    through that reference rebinds the key: the const [get] then reads the
    assigned value for it, every other key reads as before, absent keys
    stay absent, and the iteration still yields the same keys. *)
Theorem write_through_get {K V} `{KeyOps K} `{DefaultInit V} `{!KeyLaws K}
    (s : Store K V) this t key w :
  is_dict s this t → bst t → key ∈ keys t →
  ∃ r s', get this key s = Ret r s
     ∧ write_ref r w s = Ret () s'
     ∧ (∃ r', get_const this key s' = Ret r' s' ∧ read_ref r' s' = Ret w s')
     ∧ (∀ x v, x ≠ key → (x, v) ∈ bindings t →
          ∃ r', get_const this x s' = Ret r' s' ∧ read_ref r' s' = Ret v s')
     ∧ (∀ x, x ∉ keys t → get_const this x s' = Throw InvalidArgument s')
     ∧ iteration this s' = Ret (keys t) s'.
Proof.
  intros Hd Hbst Hin. pose proof Hd as [_ Hrep _].
  pose proof Hin as Hf. rewrite <- (found_iff key t Hbst) in Hf. unfold found in Hf.
  destruct (descend key t) as [[l v0]|] eqn:Hdesc; [|done]. clear Hf.
  destruct (get_present_spec s this t key l v0 Hd Hdesc) as [Hget _].
  destruct (descend_sound _ _ _ _ Hdesc) as [_ Hl].
  destruct (write_ref_spec s this t l w Hd Hl) as (s' & Hw & Hd' & _).
  exists (ValueOf l), s'. split_and!; [done|done|..].
  - eapply get_const_reads; [done|]. rewrite descend_tput, Hdesc. simpl.
    by rewrite decide_True.
  - intros x v Hne Hxv. eapply get_const_reads; [done|].
    destruct (descend_binding _ _ _ Hbst Hxv) as [lx Hx].
    rewrite descend_tput, Hx. simpl. rewrite decide_False; [done|].
    intros ->. apply Hne. by eapply descend_cell_inj.
  - intros x Hout. eapply get_const_throws; [done|].
    rewrite descend_tput, fmap_None.
    pose proof (descend_unbound x t Hbst Hout) as Hnone.
    by destruct (descend x t).
  - rewrite <- (keys_tput l w t). apply iteration_spec; [done|].
    destruct t; [by apply elem_of_nil in Hin|done].
Qed.

Lemma write_through_get_witness :
  is_dict dict7 0 tree7 ∧ bst tree7 ∧ 7%Z ∈ keys tree7
  ∧ ∃ r s', get 0 7%Z dict7 = Ret r dict7
     ∧ write_ref r 77%Z dict7 = Ret () s'
     ∧ (∃ r', get_const 0 7%Z s' = Ret r' s' ∧ read_ref r' s' = Ret 77%Z s')
     ∧ (∀ x v, x ≠ 7%Z → (x, v) ∈ bindings tree7 →
          ∃ r', get_const 0 x s' = Ret r' s' ∧ read_ref r' s' = Ret v s')
     ∧ (∀ x, x ∉ keys tree7 → get_const 0 x s' = Throw InvalidArgument s')
     ∧ iteration 0 s' = Ret (keys tree7) s'.
Proof.
  assert (7%Z ∈ keys tree7) as Hin by (vm_compute; set_solver).
  split; [exact dict7_is_dict|]. split; [exact tree7_bst|]. split; [exact Hin|].
  exact (write_through_get dict7 0 tree7 7%Z 77%Z dict7_is_dict tree7_bst Hin).
Defined.

(** X17.  The mutable [get] on a key that is not in the dictionary.  It
    dereferences a null pointer when the dictionary is empty, and when the
    new node becomes the left child of a node without a right child.
    Otherwise it returns a reference to the value of the new node or of a
    node that was in the tree already.  The key is then in the dictionary:
    the const [get] returns for it a reference to the value of the new
    node; every key that was bound reads the value it had, and every other
    absent key is still reported absent. *)
Theorem get_absent_inserts_key {K V} `{KeyOps K} `{DefaultInit V} `{!KeyLaws K}
    (s : Store K V) this t key :
  is_dict s this t → bst t → key ∉ keys t →
  match tget (fresh (dom (nodes s))) key t with
  | None => get this key s = Undefined NullDeref
  | Some l =>
      (l = fresh (dom (nodes s)) ∨ l ∈ locs t)
      ∧ ∃ s', get this key s = Ret (ValueOf l) s'
          ∧ get_const this key s' = Ret (ValueOf (fresh (dom (nodes s)))) s'
          ∧ (fresh (dom (nodes s)) ∉ locs t)
          ∧ (∀ x w, (x, w) ∈ bindings t →
               ∃ r, get_const this x s' = Ret r s' ∧ read_ref r s' = Ret w s')
          ∧ (∀ x, x ≠ key → x ∉ keys t →
               get_const this x s' = Throw InvalidArgument s')
  end.
Proof.
  intros Hd Hbst Hout.
  assert (found key t = false) as Hf.
  { apply not_true_is_false. by rewrite (found_iff key t Hbst). }
  destruct (get_absent_spec s this t key Hd Hf) as (HLeaf & HNone & HSome).
  destruct (tget (fresh (dom (nodes s))) key t) as [l|] eqn:Hg.
  - assert (t ≠ Leaf) as Hne by (by intros ->).
    split; [by eapply tget_cases|].
    destruct (HSome l Hne eq_refl) as (s' & Hrun & Hd' & _).
    exists s'. split_and!; [done|..].
    + rewrite (get_const_descend _ _ _ key Hd').
      pose proof (descend_tadd_new (fresh (dom (nodes s))) key default_init t Hf)
        as Hnew.
      destruct (descend key (tadd (fresh (dom (nodes s))) key default_init t))
        as [[l' v']|]; [|done].
      by injection Hnew as ->.
    + destruct Hd as [_ Hrep _]. by eapply fresh_not_in.
    + intros x w Hin. eapply get_const_reads; [done|].
      rewrite descend_tadd_other; [by apply descend_bound|].
      intros ->. apply Hout. rewrite keys_bindings.
      apply list_elem_of_fmap. by exists (key, w).
    + intros x Hne' Hx. eapply get_const_throws; [done|].
      rewrite descend_tadd_other by done. by apply descend_unbound.
  - destruct (tree_leaf_dec t) as [->|Hne]; [by apply HLeaf|by apply HNone].
Qed.

Lemma get_absent_inserts_key_witness :
  is_dict dict7 0 tree7 ∧ bst tree7 ∧ 2%Z ∉ keys tree7
  ∧ match tget (fresh (dom (nodes dict7))) 2%Z tree7 with
    | None => get 0 2%Z dict7 = Undefined NullDeref
    | Some l =>
        (l = fresh (dom (nodes dict7)) ∨ l ∈ locs tree7)
        ∧ ∃ s', get 0 2%Z dict7 = Ret (ValueOf l) s'
            ∧ get_const 0 2%Z s' = Ret (ValueOf (fresh (dom (nodes dict7)))) s'
            ∧ (fresh (dom (nodes dict7)) ∉ locs tree7)
            ∧ (∀ x w, (x, w) ∈ bindings tree7 →
                 ∃ r, get_const 0 x s' = Ret r s' ∧ read_ref r s' = Ret w s')
            ∧ (∀ x, x ≠ 2%Z → x ∉ keys tree7 →
                 get_const 0 x s' = Throw InvalidArgument s')
    end.
Proof.
  assert (2%Z ∉ keys tree7) as Hout by (by vm_compute; set_solver).
  split; [exact dict7_is_dict|]. split; [exact tree7_bst|]. split; [exact Hout|].
  exact (get_absent_inserts_key dict7 0 tree7 2%Z dict7_is_dict tree7_bst Hout).
Defined.

(** ** Printing *)

(** X18.  [operator<<] on the root of a tree returns with the store
    unchanged and appends one line per node to the stream, in in-order:
    the line of a node is as many blanks as the node is deep, then the way
    to it from the root as a string of digits, 0 for a step to the left and
    1 for a step to the right, then a colon, a blank and the key.  So the
    keys appear in the order of an iteration. *)
Theorem print_node_lines {K V} `{KeyOps K} `{DefaultInit V} `{!KeyLaws K}
    (s : Store K V) b t out :
  rep (nodes s) b t → NoDup (locs t) →
  print_node out (root_ptr t) s = Ret (out ++ concat (line "" <$> paths t)) s
  ∧ (paths t).*2 = keys t.
Proof.
  intros Hrep Hnd. split; [|apply paths_keys].
  unfold print_node. rewrite (bind_Ret budget _ s _ s eq_refl).
  apply (printR_spec t _ out "" s b Hrep). by eapply budget_enough.
Qed.

Lemma print_node_lines_witness :
  rep (nodes dict7) None tree7 ∧ NoDup (locs tree7)
  ∧ print_node [] (root_ptr tree7) dict7
    = Ret ([] ++ concat (line "" <$> paths tree7)) dict7
  ∧ (paths tree7).*2 = keys tree7.
Proof.
  split; [exact (dict_rep _ _ _ dict7_is_dict)|].
  split; [exact (dict_nodup _ _ _ dict7_is_dict)|].
  exact (print_node_lines dict7 None tree7 []
           (dict_rep _ _ _ dict7_is_dict) (dict_nodup _ _ _ dict7_is_dict)).
Defined.

(** ** Sequences of calls *)

(** X19.  A sequence of [add] and [remove] calls on one dictionary that
    runs to its end leaves every other dictionary that shares no node with
    it as it was: the same root, the same tree, and every node of it
    unchanged. *)
Theorem mutations_leave_other_dictionaries {K V} `{KeyOps K} `{DefaultInit V}
    `{!KeyLaws K} (s : Store K V) this other t1 t2 (ops : list (op K V)) s' :
  this ≠ other → is_dict s this t1 → bst t1 → is_dict s other t2 →
  (∀ l, l ∈ locs t1 → l ∉ locs t2) →
  run (apply_op this <$> ops) s = Ret () s' →
  is_dict s' other t2
  ∧ roots s' !! other = roots s !! other
  ∧ (∀ l, l ∈ locs t2 → nodes s' !! l = nodes s !! l).
Proof.
  intros Hne Hd1 Hbst Hd2 Hdisj Hrun.
  pose proof (run_ops_frame this other t2 ops s t1 s' Hne Hd1 Hbst Hd2 Hdisj Hrun)
    as Hd2'.
  split_and!; [done| |].
  - destruct Hd2 as [-> _ _]. by destruct Hd2' as [-> _ _].
  - intros l Hl. destruct Hd2 as [_ Hrep _]. destruct Hd2' as [_ Hrep' _].
    by eapply rep_agree.
Qed.

Lemma mutations_leave_other_dictionaries_witness :
  0 ≠ 1 ∧ is_dict two_dicts 0 (Tree 0 Leaf 5 50 Leaf)%Z
  ∧ bst (Tree 0 Leaf 5 50 Leaf)%Z
  ∧ is_dict two_dicts 1 (Tree 1 Leaf 1 10 Leaf)%Z
  ∧ (∀ l, l ∈ locs (Tree 0 Leaf 5 50 Leaf)%Z → l ∉ locs (Tree 1 Leaf 1 10 Leaf)%Z)
  ∧ run (apply_op 0 <$> [Add 3 30; Add 8 80; Remove 3]%Z) two_dicts
    = Ret () two_dicts_later
  ∧ is_dict two_dicts_later 1 (Tree 1 Leaf 1 10 Leaf)%Z
  ∧ roots two_dicts_later !! 1 = roots two_dicts !! 1
  ∧ (∀ l, l ∈ locs (Tree 1 Leaf 1 10 Leaf)%Z →
       nodes two_dicts_later !! l = nodes two_dicts !! l).
Proof.
  assert (bst (Tree 0 Leaf 5 50 Leaf)%Z) as Hbst by (simpl; by repeat split).
  assert (∀ l, l ∈ locs (Tree 0 Leaf 5 50 Leaf)%Z
               → l ∉ locs (Tree 1 Leaf 1 10 Leaf)%Z) as Hdisj.
  { intros l. simpl. set_solver. }
  assert (run (apply_op 0 <$> [Add 3 30; Add 8 80; Remove 3]%Z) two_dicts
          = Ret () two_dicts_later) as Hrun by (by vm_compute).
  split; [done|]. split; [exact two_dicts_first|]. split; [exact Hbst|].
  split; [exact two_dicts_second|]. split; [exact Hdisj|]. split; [exact Hrun|].
  exact (mutations_leave_other_dictionaries two_dicts 0 1 _ _ _ _ ltac:(done)
           two_dicts_first Hbst two_dicts_second Hdisj Hrun).
Defined.

(** X20.  [remove] of a key held by a node without children, other than
    the root: the key is gone and every other key is bound to the value it
    was bound to. *)
Theorem remove_leaf_keeps_bindings {K V} `{KeyOps K} `{DefaultInit V} `{!KeyLaws K}
    (s : Store K V) this t key l0 tl0 k0 v0 tr0 l k v :
  is_dict s this t → bst t →
  t = Tree l0 tl0 k0 v0 tr0 → k0 ≠ key →
  subtree_at key t = Tree l Leaf k v Leaf →
  ∃ s', remove this key s = Ret () s'
     ∧ get_const this key s' = Throw InvalidArgument s'
     ∧ (∀ x w, x ≠ key → (x, w) ∈ bindings t →
          ∃ r, get_const this x s' = Ret r s' ∧ read_ref r s' = Ret w s')
     ∧ (∀ x, x ∉ keys t → get_const this x s' = Throw InvalidArgument s').
Proof.
  intros Hd Hbst Ht Hk0%key_neqb Hsub.
  destruct (remove_spec s this t key l0 tl0 k0 v0 tr0 Hd Hbst Ht Hk0)
    as (s' & Hrun & Hd' & _).
  pose proof (bst_tremove key t Hbst) as Hbst'.
  exists s'. split_and!; [done|..].
  - eapply get_const_throws; [done|]. apply descend_unbound; [done|].
    rewrite keys_tremove by done. by intros [_ ?].
  - intros x w Hne Hin. eapply get_const_reads; [done|].
    rewrite (descend_tremove_leaf key x t l k v Hsub Hne). by apply descend_bound.
  - intros x Hout. eapply get_const_throws; [done|]. apply descend_unbound; [done|].
    rewrite keys_tremove by done. by intros [? _].
Qed.

Lemma remove_leaf_keeps_bindings_witness :
  is_dict dict7 0 tree7 ∧ bst tree7 ∧ 5%Z ≠ 4%Z
  ∧ subtree_at 4%Z tree7 = Tree 4 Leaf 4%Z 40%Z Leaf
  ∧ ∃ s', remove 0 4%Z dict7 = Ret () s'
     ∧ get_const 0 4%Z s' = Throw InvalidArgument s'
     ∧ (∀ x w, x ≠ 4%Z → (x, w) ∈ bindings tree7 →
          ∃ r, get_const 0 x s' = Ret r s' ∧ read_ref r s' = Ret w s')
     ∧ (∀ x, x ∉ keys tree7 → get_const 0 x s' = Throw InvalidArgument s').
Proof.
  split; [exact dict7_is_dict|]. split; [exact tree7_bst|]. split; [done|].
  split; [reflexivity|].
  exact (remove_leaf_keeps_bindings dict7 0 tree7 4%Z _ _ _ _ _ 4 4%Z 40%Z
           dict7_is_dict tree7_bst eq_refl ltac:(done) eq_refl).
Defined.

(** X21.  A sequence of [add] calls on a dictionary holding a search tree,
    empty or not, always runs to its end.  Afterwards a key that was in
    the dictionary reads the value it had, a key that was not reads the
    value of the first call that added it, and a key that no call added is
    still absent. *)
Theorem adds_keep_first_value {K V} `{KeyOps K} `{DefaultInit V} `{!KeyLaws K}
    (s : Store K V) this t (kvs : list (K * V)) :
  is_dict s this t → bst t →
  ∃ s', run ((λ kv, add this kv.1 kv.2) <$> kvs) s = Ret () s'
     ∧ (∀ x w, (x, w) ∈ bindings t →
          ∃ r, get_const this x s' = Ret r s' ∧ read_ref r s' = Ret w s')
     ∧ (∀ x w, x ∉ keys t → first_value x kvs = Some w →
          ∃ r, get_const this x s' = Ret r s' ∧ read_ref r s' = Ret w s')
     ∧ (∀ x, x ∉ keys t → first_value x kvs = None →
          get_const this x s' = Throw InvalidArgument s').
Proof.
  intros Hd Hbst.
  destruct (run_adds this kvs s t Hd Hbst) as (s' & t' & Hrun & Hd' & _ & Hval).
  exists s'. split_and!; [done|..].
  - intros x w Hin. eapply get_const_reads; [done|].
    by rewrite Hval, (descend_bound _ _ _ Hbst Hin).
  - intros x w Hout Hfirst. eapply get_const_reads; [done|].
    by rewrite Hval, (descend_unbound _ _ Hbst Hout).
  - intros x Hout Hfirst. eapply get_const_throws; [done|].
    by rewrite Hval, (descend_unbound _ _ Hbst Hout).
Qed.

Lemma adds_keep_first_value_witness :
  is_dict fresh_dict 0 Leaf ∧ bst (@Leaf Z Z)
  ∧ ∃ s', run ((λ kv, add 0 kv.1 kv.2) <$> [(5, 50); (3, 30); (5, 99)]%Z) fresh_dict
          = Ret () s'
     ∧ (∀ x w, (x, w) ∈ bindings (@Leaf Z Z) →
          ∃ r, get_const 0 x s' = Ret r s' ∧ read_ref r s' = Ret w s')
     ∧ (∀ x w, x ∉ keys (@Leaf Z Z) →
          first_value x [(5, 50); (3, 30); (5, 99)]%Z = Some w →
          ∃ r, get_const 0 x s' = Ret r s' ∧ read_ref r s' = Ret w s')
     ∧ (∀ x, x ∉ keys (@Leaf Z Z) →
          first_value x [(5, 50); (3, 30); (5, 99)]%Z = None →
          get_const 0 x s' = Throw InvalidArgument s').
Proof.
  split; [exact fresh_dict_is_dict|]. split; [done|].
  exact (adds_keep_first_value fresh_dict 0 Leaf [(5, 50); (3, 30); (5, 99)]%Z
           fresh_dict_is_dict I).
Defined.

(** X22.  Any non-empty sequence of [add] and [remove] calls on a
    dictionary holding a search tree either runs into a [remove] that
    reads its unassigned local, or runs to its end; the iteration over the
    dictionary then returns and yields, in strictly ascending order,
    exactly the keys for which [has] answers true. *)
Theorem mutations_then_iteration {K V} `{KeyOps K} `{DefaultInit V} `{!KeyLaws K}
    (s : Store K V) this t (ops : list (op K V)) :
  is_dict s this t → bst t → ops ≠ [] →
  run (apply_op this <$> ops) s = Undefined IndeterminateRead
  ∨ ∃ s' ks, run (apply_op this <$> ops) s = Ret () s'
       ∧ iteration this s' = Ret ks s'
       ∧ StronglySorted klt ks
       ∧ ∀ x, x ∈ ks ↔ has this x s' = Ret true s'.
Proof.
  intros Hd Hbst Hops.
  destruct (run_ops_spec this ops s t Hd Hbst)
    as [Hub|(s' & t' & Hrun & Hd' & Hbst' & Hit)]; [by left|].
  right. exists s', (keys t'). destruct (Hit Hops) as [Hiter Hsorted].
  split_and!; [done|done|done|].
  intros x. rewrite (has_spec _ _ _ x Hd'), <- (found_iff x t' Hbst').
  split; [by intros ->|]. by intros [= ->].
Qed.

Lemma mutations_then_iteration_witness :
  is_dict fresh_dict 0 Leaf ∧ bst (@Leaf Z Z)
  ∧ [Add 5 50; Add 3 30; Remove 3]%Z ≠ []
  ∧ (run (apply_op 0 <$> [Add 5 50; Add 3 30; Remove 3]%Z) fresh_dict
     = Undefined IndeterminateRead
     ∨ ∃ s' ks, run (apply_op 0 <$> [Add 5 50; Add 3 30; Remove 3]%Z) fresh_dict
                = Ret () s'
          ∧ iteration 0 s' = Ret ks s'
          ∧ StronglySorted klt ks
          ∧ ∀ x, x ∈ ks ↔ has 0 x s' = Ret true s').
Proof.
  split; [exact fresh_dict_is_dict|]. split; [done|]. split; [done|].
  exact (mutations_then_iteration fresh_dict 0 Leaf [Add 5 50; Add 3 30; Remove 3]%Z
           fresh_dict_is_dict I ltac:(done)).
Defined.

(** ** Construction *)

(** X23.  The default constructor always returns: it makes an empty
    dictionary at an address that held none, for which [has] answers false
    on every key; it touches no node, and every dictionary that was there
    holds the tree it held. *)
Theorem construct_empty {K V} `{KeyOps K} `{DefaultInit V} (s : Store K V) :
  ∃ this s', construct s = Ret this s'
     ∧ roots s !! this = None
     ∧ is_dict s' this Leaf
     ∧ (∀ k, has this k s' = Ret false s')
     ∧ nodes s' = nodes s
     ∧ ∀ other t, is_dict s other t → is_dict s' other t.
Proof.
  assert (roots s !! fresh (dom (roots s)) = None) as Hnew.
  { apply not_elem_of_dom. apply is_fresh. }
  eexists _, _. split; [reflexivity|]. simpl. split_and!; [done| | |done|].
  - split; [simpl; by rewrite lookup_insert_eq|done|apply NoDup_nil_2].
  - intros k. unfold has, get_root, mbind, M_bind, bind. simpl.
    by rewrite lookup_insert_eq.
  - intros other t [Hroot Hrep Hnd]. split; [|done|done]. simpl.
    rewrite lookup_insert_ne; [done|]. intros Heq.
    rewrite <- Heq in Hroot. congruence.
Qed.
